(** * SCTE-35 codec (Comcast/scte35-go): a shallow embedding and its properties

    The development follows the Go sources:
    - [pkg/scte35/pids.go]                 : module [PIDs]
    - the MPEG-TS demultiplexer (stream)   : module [Stream]
    - [pkg/scte35/segmentation_upid.go]    : module [Upid]
    - the segmentation descriptor          : module [SegDesc]
    - splice_insert and time_descriptor    : modules [SpliceInsert], [TimeDescriptor]
    - [pkg/scte35/audio_descriptor.go]     : module [AudioDescriptor] ([decode])
    - the splice_info_section              : module [Sis], over the interfaces
      [SpliceCommand] and [SpliceDescriptor]; [Signals] is the instance the
      test signals need

    Bytes are [Byte.byte]; Go strings are byte sequences and are modelled as
    [list byte]; unsigned machine integers are [Z] with explicit wrap-around. *)

From Stdlib Require Import ZArith Lia List Bool.
From Stdlib Require Import Init.Byte Strings.Byte Strings.String Strings.Ascii.
From stdpp Require Import base decidable option list gmap.

Local Open Scope Z_scope.

(** ** Machine integers *)

Definition wrap (w : Z) (x : Z) : Z := x mod 2 ^ w.
Definition uint8 (x : Z) : Z := wrap 8 x.
Definition uint16 (x : Z) : Z := wrap 16 x.
Definition uint32 (x : Z) : Z := wrap 32 x.
Definition uint64 (x : Z) : Z := wrap 64 x.

Definition Z_of_byte (b : byte) : Z := Z.of_N (Byte.to_N b).

Definition byte_of_Z (z : Z) : byte :=
  match Byte.of_N (Z.to_N (z mod 256)) with
  | Some b => b
  | None => x00
  end.

Definition byte_eqb (a b : byte) : bool := Byte.eqb a b.

#[global] Instance byte_eq_decision : EqDecision byte := Byte.byte_eq_dec.

(** Equality of Go strings. *)
Fixpoint list_byte_eqb (a b : list byte) : bool :=
  match a, b with
  | [], [] => true
  | x :: a', y :: b' => Byte.eqb x y && list_byte_eqb a' b'
  | _, _ => false
  end.

(** Go string literals, as byte sequences. *)
Definition str (s : string) : list byte := list_byte_of_string s.


(** ** pkg/scte35/pids.go *)

Module PIDs.

(** [type PIDs struct] : three slices of uint16. *)
Record t := mk {
  PMTPIDs : list Z;
  PCRPIDs : list Z;
  SCTE35PIDs : list Z
}.

(** The zero value [PIDs{}]. *)
Definition zero : t := mk [] [] [].

(** [isIn16] : the membership loop over a slice. *)
Fixpoint isIn16 (slice : list Z) (val : Z) : bool :=
  match slice with
  | [] => false
  | item :: rest => if Z.eqb item val then true else isIn16 rest val
  end.

Definition isPMTPID (p : t) (pid : Z) : bool := isIn16 (PMTPIDs p) pid.

Definition addPMTPID (p : t) (pid : Z) : t :=
  if negb (isPMTPID p pid)
  then mk (PMTPIDs p ++ [pid]) (PCRPIDs p) (SCTE35PIDs p)
  else p.

Definition isPCRPID (p : t) (pid : Z) : bool := isIn16 (PCRPIDs p) pid.

Definition addPCRPID (p : t) (pid : Z) : t :=
  if negb (isPCRPID p pid)
  then mk (PMTPIDs p) (PCRPIDs p ++ [pid]) (SCTE35PIDs p)
  else p.

Definition isSCTE35PID (p : t) (pid : Z) : bool := isIn16 (SCTE35PIDs p) pid.

Definition addSCTE35PID (p : t) (pid : Z) : t :=
  if negb (isSCTE35PID p pid)
  then mk (PMTPIDs p) (PCRPIDs p) (SCTE35PIDs p ++ [pid])
  else p.

(** The body of the [for _, val := range p.SCTE35PIDs] loop of
    [delSCTE35PID]: [k] iterations remain, [i] is the range index, [arr] the
    backing array (written in place at [n]) and [n] the write cursor. *)
Fixpoint delLoop (pid : Z) (k : nat) (i : nat) (arr : list Z) (n : nat)
  : list Z * nat :=
  match k with
  | O => (arr, n)
  | S k' =>
      match arr !! i with
      | Some val =>
          if negb (Z.eqb val pid)
          then delLoop pid k' (S i) (<[n := val]> arr) (S n)
          else delLoop pid k' (S i) arr n
      | None => (arr, n)
      end
  end.

(** [delSCTE35PID] : compact in place, then reslice to [[:n]]. *)
Definition delSCTE35PID (p : t) (pid : Z) : t :=
  let '(arr, n) :=
    delLoop pid (length (SCTE35PIDs p)) 0 (SCTE35PIDs p) 0 in
  mk (PMTPIDs p) (PCRPIDs p) (take n arr).

(** States of a [PIDs] value that only its own methods have touched. *)
Inductive reachable : t -> Prop :=
| reach_zero : reachable zero
| reach_addPMT p pid : reachable p -> reachable (addPMTPID p pid)
| reach_addPCR p pid : reachable p -> reachable (addPCRPID p pid)
| reach_addSCTE35 p pid : reachable p -> reachable (addSCTE35PID p pid)
| reach_delSCTE35 p pid : reachable p -> reachable (delSCTE35PID p pid).

End PIDs.


(** ** Bit strings (most significant bit first) *)

Fixpoint bits_of_Z (n : nat) (v : Z) : list bool :=
  match n with
  | O => []
  | S k => Z.testbit v (Z.of_nat k) :: bits_of_Z k v
  end.

Definition Z_of_bits (bs : list bool) : Z :=
  fold_left (fun acc b => 2 * acc + Z.b2z b) bs 0.

Definition bits_of_byte (b : byte) : list bool := bits_of_Z 8 (Z_of_byte b).

Definition bits_of_bytes (l : list byte) : list bool := flat_map bits_of_byte l.

(** Packs bits into bytes; a trailing partial byte is padded with zero bits. *)
Fixpoint bytes_of_bits (bs : list bool) : list byte :=
  match bs with
  | [] => []
  | b7 :: b6 :: b5 :: b4 :: b3 :: b2 :: b1 :: b0 :: rest =>
      byte_of_Z (Z_of_bits [b7; b6; b5; b4; b3; b2; b1; b0]) :: bytes_of_bits rest
  | _ => [byte_of_Z (Z_of_bits (take 8 (bs ++ repeat false 8)))]
  end.

(** [binary.BigEndian.PutUint32] / [PutUint64] into a fresh buffer. *)
Definition be_bytes (n : nat) (v : Z) : list byte := bytes_of_bits (bits_of_Z (8 * n) v).

(** [binary.BigEndian.Uint16] and friends. *)
Definition be_value (l : list byte) : Z := Z_of_bits (bits_of_bytes l).

(** ** Errors of the package ([scte35.go])

    [ErrUnsupportedType] stands for the error that section 3 of the spec
    asks for when a splice_command_type is not known; the spec does not name
    its kind. *)

Inductive error :=
| ErrBufferOverflow
| ErrBufferUnderflow
| ErrCRC32Invalid
| ErrUnsupportedEncoding
| ErrUnsupportedType.

(** An error wrapped with the name of the structure that raised it
    ([fmt.Errorf("segmentation_descriptor: %w", err)]). *)
Definition wrapped : Type := (list byte * error)%type.

(** ** The bit reader and writer (package [github.com/bamiaux/iobit])

    Modelled from the spec: section 4.1 (BitIO); the package is an external
    dependency.  A reader never fails on the spot: reading past the end of the
    buffer moves the index past the size (the overflow condition), the bits
    that are not there read as zero, and [LeftBits] reports nothing left. *)

Module iobit.

Record Reader := mkReader { src : list byte; idx : nat }.

Definition NewReader (b : list byte) : Reader := mkReader b 0.

Definition size (r : Reader) : nat := (8 * length (src r))%nat.

Definition LeftBits (r : Reader) : nat := (size r - idx r)%nat.

Definition overflowed (r : Reader) : bool := (size r <? idx r)%nat.

Definition Skip (n : nat) (r : Reader) : Reader := mkReader (src r) (idx r + n).

(** The next [n] bits at the index. *)
Definition peek (n : nat) (r : Reader) : list bool :=
  take n (drop (idx r) (bits_of_bytes (src r)) ++ repeat false n).

Definition Bit (r : Reader) : bool * Reader :=
  (match peek 1 r with b :: _ => b | [] => false end, Skip 1 r).

Definition Uint32 (n : nat) (r : Reader) : Z * Reader :=
  (uint32 (Z_of_bits (peek n r)), Skip n r).

Definition Uint64 (n : nat) (r : Reader) : Z * Reader :=
  (uint64 (Z_of_bits (peek n r)), Skip n r).

(** [Bytes(n)] : the next [n] bytes, from the byte the index is in. *)
Definition Bytes (n : nat) (r : Reader) : list byte * Reader :=
  let r' := Skip (8 * n) r in
  (if overflowed r' then [] else take n (drop (idx r / 8) (src r)), r').

(** [LeftBytes()] : the unread bytes; the index is left where it is. *)
Definition LeftBytes (r : Reader) : list byte := drop (idx r / 8) (src r).

Record Writer := mkWriter { cap : nat; out : list bool }.

Definition NewWriter (n : nat) : Writer := mkWriter n [].

Definition PutBit (b : bool) (w : Writer) : Writer := mkWriter (cap w) (out w ++ [b]).

(** [PutUint32(bits, val)] / [PutUint64(bits, val)] : the low [bits] bits of
    [val], most significant first. *)
Definition PutUint (bits : nat) (val : Z) (w : Writer) : Writer :=
  mkWriter (cap w) (out w ++ bits_of_Z bits val).

(** Zero bits up to the next byte boundary. *)
Definition padding (bs : list bool) : list bool :=
  repeat false ((8 - length bs mod 8) mod 8).

(** [Write(p)] : flushes the partial byte, then copies the bytes. *)
Definition Write (p : list byte) (w : Writer) : Writer :=
  mkWriter (cap w) (out w ++ padding (out w) ++ bits_of_bytes p).

(** The destination buffer after [Flush()]: what was written, cut at the
    capacity of the buffer, the cells never written left zero. *)
Definition buffer (w : Writer) : list byte :=
  take (cap w) (bytes_of_bits (out w) ++ repeat x00 (cap w)).

(** [Flush()] reports an overflow of the destination buffer. *)
Definition Flush (w : Writer) : list byte * option error :=
  (buffer w,
   if (8 * cap w <? length (out w))%nat then Some ErrBufferOverflow else None).

End iobit.

(** [readerError] ([scte35.go]).
    Modelled from the spec: sections 4.1 and 7; the function itself is not
    among the sources.  Overflow: the reader ran past the end of its input;
    underflow: bits are left that nothing accounts for. *)
Definition readerError (r : iobit.Reader) : option error :=
  if iobit.overflowed r then Some ErrBufferOverflow
  else if (0 <? iobit.LeftBits r)%nat then Some ErrBufferUnderflow
  else None.

(** [Reserved] : reserved bits are written as ones. *)
Definition Reserved : Z := 0xFF.

(** [CUEIdentifier] : the ASCII bytes of CUEI. *)
Definition CUEIdentifier : Z := 0x43554549.

(** ** Package [strconv] *)

Module strconv.

Definition isDigit (c : byte) : bool :=
  (48 <=? Z_of_byte c) && (Z_of_byte c <=? 57).

Fixpoint digits (acc : Z) (s : list byte) : option Z :=
  match s with
  | [] => Some acc
  | c :: rest =>
      if isDigit c then digits (10 * acc + (Z_of_byte c - 48)) rest else None
  end.

(** Unsigned decimal digits, at least one. *)
Definition unsigned (s : list byte) : option Z :=
  match s with
  | [] => None
  | _ => digits 0 s
  end.

(** [strconv.Atoi] on a 64-bit platform: an optional sign, decimal digits,
    and the value within the range of [int]; [None] is a non-nil error. *)
Definition Atoi (s : list byte) : option Z :=
  match s with
  | [] => None
  | c :: rest =>
      if Byte.eqb c "-"%byte then
        match unsigned rest with
        | Some v => if v <=? 2 ^ 63 then Some (- v) else None
        | None => None
        end
      else if Byte.eqb c "+"%byte then
        match unsigned rest with
        | Some v => if v <? 2 ^ 63 then Some v else None
        | None => None
        end
      else
        match unsigned s with
        | Some v => if v <? 2 ^ 63 then Some v else None
        | None => None
        end
  end.

(** [strconv.ParseUint(s, 10, 64)]. *)
Definition ParseUint (s : list byte) : option Z :=
  match unsigned s with
  | Some v => if v <? 2 ^ 64 then Some v else None
  | None => None
  end.

Definition digit (d : Z) : byte := byte_of_Z (48 + d).

Fixpoint formatAux (fuel : nat) (n : Z) (acc : list byte) : list byte :=
  match fuel with
  | O => acc
  | S f =>
      let acc' := digit (n mod 10) :: acc in
      if n / 10 =? 0 then acc' else formatAux f (n / 10) acc'
  end.

(** [strconv.FormatUint(n, 10)], also the verb [%d] of [fmt] on an unsigned
    value: a uint64 has at most twenty decimal digits. *)
Definition FormatUint (n : Z) : list byte := formatAux 20 n [].

End strconv.

(** ** Package [encoding/hex] *)

Module hex.

Definition upper (d : Z) : byte :=
  if d <? 10 then byte_of_Z (48 + d) else byte_of_Z (55 + d).

(** The verb [%X] of [fmt] on a byte slice: two upper-case digits a byte. *)
Definition EncodeUpper (l : list byte) : list byte :=
  flat_map (fun b => [upper (Z_of_byte b / 16); upper (Z_of_byte b mod 16)]) l.

(** [fromHexChar] : both cases are accepted. *)
Definition fromHexChar (c : byte) : option Z :=
  let v := Z_of_byte c in
  if (48 <=? v) && (v <=? 57) then Some (v - 48)
  else if (97 <=? v) && (v <=? 102) then Some (v - 97 + 10)
  else if (65 <=? v) && (v <=? 70) then Some (v - 65 + 10)
  else None.

(** [hex.DecodeString] : the bytes decoded before the error, and whether the
    whole input was well formed (an odd length is an error). *)
Fixpoint DecodeString (s : list byte) : list byte * bool :=
  match s with
  | [] => ([], true)
  | [_] => ([], false)
  | a :: b :: rest =>
      match fromHexChar a, fromHexChar b with
      | Some x, Some y =>
          let '(tl, ok) := DecodeString rest in
          (byte_of_Z (16 * x + y) :: tl, ok)
      | _, _ => ([], false)
      end
  end.

End hex.

(** ** Package [encoding/base64] : [StdEncoding] *)

Module base64.

Definition alphabet : list byte :=
  str "ABCDEFGHIJKLMNOPQRSTUVWXYZabcdefghijklmnopqrstuvwxyz0123456789+/".

Definition char (v : Z) : byte := nth (Z.to_nat v) alphabet "A"%byte.

Fixpoint EncodeToString (l : list byte) : list byte :=
  match l with
  | [] => []
  | [a] =>
      let x := Z_of_byte a in
      [char (x / 4); char (x mod 4 * 16); "="%byte; "="%byte]
  | [a; b] =>
      let x := Z_of_byte a in
      let y := Z_of_byte b in
      [char (x / 4); char (x mod 4 * 16 + y / 16); char (y mod 16 * 4); "="%byte]
  | a :: b :: c :: rest =>
      let x := Z_of_byte a in
      let y := Z_of_byte b in
      let z := Z_of_byte c in
      char (x / 4) :: char (x mod 4 * 16 + y / 16)
        :: char (y mod 16 * 4 + z / 64) :: char (z mod 64)
        :: EncodeToString rest
  end.

Fixpoint indexOf (c : byte) (l : list byte) (i : Z) : option Z :=
  match l with
  | [] => None
  | x :: rest => if Byte.eqb x c then Some i else indexOf c rest (i + 1)
  end.

Definition value (c : byte) : option Z := indexOf c alphabet 0.

Definition isNewline (c : byte) : bool :=
  Byte.eqb c x0a || Byte.eqb c x0d.

Definition isPad (c : byte) : bool := Byte.eqb c "="%byte.

(** Quantum by quantum; padding closes the input.  The bits of the last
    character that do not belong to a byte are not checked (the encoding is
    not strict). *)
Fixpoint decodeQuanta (s : list byte) : list byte * bool :=
  match s with
  | [] => ([], true)
  | a :: b :: c :: d :: rest =>
      match value a, value b with
      | Some x, Some y =>
          let b0 := byte_of_Z (x * 4 + y / 16) in
          match value c, value d with
          | Some z, Some t =>
              let '(tl, ok) := decodeQuanta rest in
              (b0 :: byte_of_Z (y mod 16 * 16 + z / 4)
                  :: byte_of_Z (z mod 4 * 64 + t) :: tl, ok)
          | Some z, None =>
              if isPad d && match rest with [] => true | _ => false end
              then ([b0; byte_of_Z (y mod 16 * 16 + z / 4)], true)
              else ([], false)
          | None, _ =>
              if isPad c && isPad d && match rest with [] => true | _ => false end
              then ([b0], true)
              else ([], false)
          end
      | _, _ => ([], false)
      end
  | _ => ([], false)
  end.

(** [base64.StdEncoding.DecodeString] : carriage returns and line feeds are
    skipped; the result is the bytes decoded before the error, and whether the
    input was well formed. *)
Definition DecodeString (s : list byte) : list byte * bool :=
  decodeQuanta (List.filter (fun c => negb (isNewline c)) s).

End base64.

(** ** Package [unicode/utf8] *)

Module utf8.

Definition cont (lo hi : Z) (c : byte) : bool :=
  (lo <=? Z_of_byte c) && (Z_of_byte c <=? hi).

(** [utf8.Valid] : well-formed UTF-8 only (no overlong forms, no surrogates,
    nothing above U+10FFFF). *)
Fixpoint Valid (s : list byte) : bool :=
  match s with
  | [] => true
  | a :: rest =>
      let x := Z_of_byte a in
      if x <? 0x80 then Valid rest
      else if (0xC2 <=? x) && (x <=? 0xDF) then
        match rest with
        | b :: rest' => cont 0x80 0xBF b && Valid rest'
        | _ => false
        end
      else if (0xE0 <=? x) && (x <=? 0xEF) then
        match rest with
        | b :: c :: rest' =>
            cont (if x =? 0xE0 then 0xA0 else 0x80)
                 (if x =? 0xED then 0x9F else 0xBF) b
            && cont 0x80 0xBF c && Valid rest'
        | _ => false
        end
      else if (0xF0 <=? x) && (x <=? 0xF4) then
        match rest with
        | b :: c :: d :: rest' =>
            cont (if x =? 0xF0 then 0x90 else 0x80)
                 (if x =? 0xF4 then 0x8F else 0xBF) b
            && cont 0x80 0xBF c && cont 0x80 0xBF d && Valid rest'
        | _ => false
        end
      else false
  end.

End utf8.

(** ** Package [strings] and [bytes] *)

Module strings.

(** [strings.FieldsFunc] : the maximal runs of bytes that [f] rejects.  The
    separators used here are ASCII, and an ASCII byte is never part of a
    longer UTF-8 sequence nor of an invalid one, so splitting by bytes agrees
    with splitting by runes. *)
Fixpoint fieldsFrom (f : byte -> bool) (s : list byte) (cur : list byte)
  : list (list byte) :=
  match s with
  | [] => match cur with [] => [] | _ => [cur] end
  | c :: rest =>
      if f c
      then match cur with
           | [] => fieldsFrom f rest []
           | _ => cur :: fieldsFrom f rest []
           end
      else fieldsFrom f rest (cur ++ [c])
  end.

Definition FieldsFunc (s : list byte) (f : byte -> bool) : list (list byte) :=
  fieldsFrom f s [].

(** [strings.ReplaceAll(s, old, "")] for a one-byte [old]. *)
Definition RemoveAll (s : list byte) (old : byte) : list byte :=
  List.filter (fun c => negb (Byte.eqb c old)) s.

(** [bytes.Contains(b, sub)] for a one-byte [sub]. *)
Definition Contains (b : list byte) (c : byte) : bool :=
  existsb (Byte.eqb c) b.

End strings.

(** ** pkg/scte35/segmentation_upid.go *)

Definition SegmentationUPIDTypeISANDeprecated : Z := 0x05.
Definition SegmentationUPIDTypeISAN : Z := 0x06.
Definition SegmentationUPIDTypeTI : Z := 0x08.
Definition SegmentationUPIDTypeEIDR : Z := 0x0a.
Definition SegmentationUPIDTypeMPU : Z := 0x0c.
Definition SegmentationUPIDTypeMID : Z := 0x0d.

(** Go's slice expression [b[lo:hi]] within bounds. *)
Definition slice {A} (lo hi : nat) (b : list A) : list A := take (hi - lo) (drop lo b).

(** [canonicalEIDR] : the function is the same in both revisions of the file. *)
Definition canonicalEIDR (b : list byte) : list byte :=
  if strings.Contains b "/"%byte then b
  else if negb (length b =? 12)%nat then []
  else
    let i := be_value (slice 0 2 b) in
    str "10." ++ strconv.FormatUint i ++ str "/"
      ++ hex.EncodeUpper (slice 2 4 b) ++ str "-"
      ++ hex.EncodeUpper (slice 4 6 b) ++ str "-"
      ++ hex.EncodeUpper (slice 6 8 b) ++ str "-"
      ++ hex.EncodeUpper (slice 8 10 b) ++ str "-"
      ++ hex.EncodeUpper (slice 10 12 b).

Module Upid.

(** [type SegmentationUPID struct] *)
Record SegmentationUPID := mkUPID {
  Type' : Z;
  FormatIdentifier : option Z;
  Format : list byte;
  Value : list byte
}.

(** [NewSegmentationUPID] *)
Definition NewSegmentationUPID (upidType : Z) (buf : list byte) : SegmentationUPID :=
  let r := iobit.NewReader buf in
  if upidType =? SegmentationUPIDTypeEIDR then
    mkUPID upidType None (str "text") (canonicalEIDR (iobit.LeftBytes r))
  else if (upidType =? SegmentationUPIDTypeISAN)
          || (upidType =? SegmentationUPIDTypeISANDeprecated) then
    mkUPID upidType None (str "base-64") (base64.EncodeToString (iobit.LeftBytes r))
  else if upidType =? SegmentationUPIDTypeMPU then
    let '(fi, r1) := iobit.Uint32 32 r in
    mkUPID upidType (Some fi) (str "base-64")
      (base64.EncodeToString (iobit.LeftBytes r1))
  else if upidType =? SegmentationUPIDTypeTI then
    mkUPID upidType None (str "text")
      (strconv.FormatUint (fst (iobit.Uint64 (iobit.LeftBits r) r)))
  else
    mkUPID upidType None (str "text") (iobit.LeftBytes r).

Definition isSeparator (r : byte) : bool :=
  Byte.eqb r "."%byte || Byte.eqb r "/"%byte.

(** [compressEIDR] *)
Definition compressEIDR (s : list byte) : list byte :=
  match strings.FieldsFunc s isSeparator with
  | [_; p1; p2] =>
      match strconv.Atoi p1 with
      | None => s
      | Some i =>
          let iow := iobit.PutUint 16 (uint32 i) (iobit.NewWriter 12) in
          match hex.DecodeString (strings.RemoveAll p2 "-"%byte) with
          | (_, false) => s
          | (h, true) => iobit.buffer (iobit.Write h iow)
          end
      end
  | _ => s
  end.

(** [valueBytes] : [None] is the nil-pointer panic of [*upid.FormatIdentifier]. *)
Definition valueBytes (upid : SegmentationUPID) : option (list byte) :=
  if Type' upid =? SegmentationUPIDTypeMPU then
    match FormatIdentifier upid with
    | None => None
    | Some fi =>
        Some (be_bytes 4 fi ++ fst (base64.DecodeString (Value upid)))
    end
  else if Type' upid =? SegmentationUPIDTypeEIDR then
    Some (compressEIDR (Value upid))
  else if Type' upid =? SegmentationUPIDTypeTI then
    Some (match strconv.Atoi (Value upid) with
          | Some i => be_bytes 8 (uint64 i)
          | None => repeat x00 8
          end)
  else if list_byte_eqb (Format upid) (str "hexbinary") then
    Some (fst (hex.DecodeString (Value upid)))
  else if list_byte_eqb (Format upid) (str "base-64") then
    Some (fst (base64.DecodeString (Value upid)))
  else
    Some (Value upid).

End Upid.

Definition isASCII (c : byte) : Prop := Z_of_byte c < 0x80.

(** The characters of a decimal or upper-case hexadecimal rendering: ASCII,
    neither a field separator of [compressEIDR] nor a hyphen. *)
Definition plainChar (c : byte) : Prop :=
  Upid.isSeparator c = false /\ Byte.eqb c "-"%byte = false
  /\ isASCII c.

(** ** The later revision of [segmentation_upid.go] (text UPIDs decoded as
    US-ASCII) *)

Module UpidASCII.

(** [type SegmentationUPID struct] : [Format] is deprecated and never set. *)
Record SegmentationUPID := mkUPID {
  Type' : Z;
  FormatIdentifier : option Z;
  Value : list byte
}.

(** The replacement character U+FFFD in UTF-8. *)
Definition replacementChar : list byte := [xef; xbf; xbd].

(** [DecodeASCII] : the US-ASCII decoder of [golang.org/x/text] copies the
    bytes up to 0x7F and turns every other byte into U+FFFD; it reports no
    error, so the fallback string of the function is never returned. *)
Definition DecodeASCII (b : list byte) : list byte :=
  flat_map (fun c => if Z_of_byte c <? 0x80 then [c] else replacementChar) b.

(** [NewSegmentationUPID] *)
Definition NewSegmentationUPID (upidType : Z) (buf : list byte) : SegmentationUPID :=
  let r := iobit.NewReader buf in
  if upidType =? SegmentationUPIDTypeEIDR then
    mkUPID upidType None (canonicalEIDR (iobit.LeftBytes r))
  else if (upidType =? SegmentationUPIDTypeISAN)
          || (upidType =? SegmentationUPIDTypeISANDeprecated) then
    mkUPID upidType None (base64.EncodeToString (iobit.LeftBytes r))
  else if upidType =? SegmentationUPIDTypeMPU then
    let '(fi, r1) := iobit.Uint32 32 r in
    mkUPID upidType (Some fi) (base64.EncodeToString (iobit.LeftBytes r1))
  else if upidType =? SegmentationUPIDTypeTI then
    mkUPID upidType None
      (strconv.FormatUint (fst (iobit.Uint64 (iobit.LeftBits r) r)))
  else
    mkUPID upidType None (DecodeASCII (iobit.LeftBytes r)).

End UpidASCII.

(** Whether [compressEIDR] takes its text for a canonical EIDR: three fields
    between dots and slashes, the second a decimal number, the third
    hexadecimal digits and hyphens. *)
Definition compressible (s : list byte) : bool :=
  match strings.FieldsFunc s Upid.isSeparator with
  | [_; p1; p2] =>
      match strconv.Atoi p1 with
      | Some _ => snd (hex.DecodeString (strings.RemoveAll p2 "-"%byte))
      | None => false
      end
  | _ => false
  end.

(** ** The segmentation descriptor ([segmentation_descriptor.go]) *)

Definition SegmentationDescriptorTag : Z := 0x02.
Definition SegmentationTypeProviderPOStart : Z := 0x34.
Definition SegmentationTypeDistributorPOStart : Z := 0x36.

Module SegDesc.

Import Upid.

(** [type DeliveryRestrictions struct] *)
Record DeliveryRestrictions := mkDR {
  WebDeliveryAllowedFlag : bool;
  NoRegionalBlackoutFlag : bool;
  ArchiveAllowedFlag : bool;
  DeviceRestrictions : Z
}.

(** [type SegmentationDescriptorComponent struct] *)
Record SegmentationDescriptorComponent := mkComponent {
  Tag : Z;
  PTSOffset : Z
}.

(** [type SegmentationDescriptor struct] : a nil pointer is [None], a nil
    slice is the empty list. *)
Record SegmentationDescriptor := mkSD {
  DeliveryRestrictions' : option DeliveryRestrictions;
  SegmentationUPIDs : list SegmentationUPID;
  Components : list SegmentationDescriptorComponent;
  SegmentationEventID : Z;
  SegmentationEventCancelIndicator : bool;
  SegmentationDuration : option Z;
  SegmentationTypeID : Z;
  SegmentNum : Z;
  SegmentsExpected : Z;
  SubSegmentNum : option Z;
  SubSegmentsExpected : option Z
}.

(** The zero value [SegmentationDescriptor{}]. *)
Definition zero : SegmentationDescriptor :=
  mkSD None [] [] 0 false None 0 0 0 None None.

Definition DeliveryNotRestrictedFlag (sd : SegmentationDescriptor) : bool :=
  match DeliveryRestrictions' sd with None => true | Some _ => false end.

Definition ProgramSegmentationFlag (sd : SegmentationDescriptor) : bool :=
  (length (Components sd) =? 0)%nat.

Definition SegmentationDurationFlag (sd : SegmentationDescriptor) : bool :=
  match SegmentationDuration sd with None => false | Some _ => true end.

(** The [for _, upid := range] loop of [SegmentationUpidLength], in bits. *)
Fixpoint midLength (upids : list SegmentationUPID) (length : Z) : option Z :=
  match upids with
  | [] => Some length
  | upid :: rest =>
      vb ← valueBytes upid;
      midLength rest (length + 8 + 8 + Z.of_nat (List.length vb) * 8)
  end.

(** [SegmentationUpidLength] : [None] when [valueBytes] panics. *)
Definition SegmentationUpidLength (sd : SegmentationDescriptor) : option Z :=
  match SegmentationUPIDs sd with
  | [] => Some (0 / 8)
  | [upid] => vb ← valueBytes upid; Some ((0 + Z.of_nat (List.length vb) * 8) / 8)
  | upids => len ← midLength upids 0; Some (len / 8)
  end.

(** [length] : the descriptor_length. *)
Definition length (sd : SegmentationDescriptor) : option Z :=
  let length := 32 + 32 + 1 + 7 in
  if negb (SegmentationEventCancelIndicator sd) then
    let length := length + 1 + 1 + 1 + 5 in
    let length :=
      if negb (ProgramSegmentationFlag sd)
      then length + 8 + Z.of_nat (List.length (Components sd)) * (8 + 7 + 33)
      else length in
    let length := if SegmentationDurationFlag sd then length + 40 else length in
    upidLength ← SegmentationUpidLength sd;
    let length := length + 8 + 8 + upidLength * 8 + 8 + 8 + 8 in
    let length := match SubSegmentNum sd with Some _ => length + 8 | None => length end in
    let length := match SubSegmentsExpected sd with Some _ => length + 8 | None => length end in
    Some (length / 8)
  else Some (length / 8).

(** *** decode *)

(** The component loop: [componentCount] components are read. *)
Fixpoint decodeComponents (componentCount : nat) (r : iobit.Reader)
  : list SegmentationDescriptorComponent * iobit.Reader :=
  match componentCount with
  | O => ([], r)
  | S k =>
      let '(tag, r) := iobit.Uint32 8 r in
      let r := iobit.Skip 7 r in
      let '(ptsOffset, r) := iobit.Uint64 33 r in
      let '(rest, r) := decodeComponents k r in
      (mkComponent tag ptsOffset :: rest, r)
  end.

(** The loop [for upidr.LeftBits() > 0] over the body of a MID.  Every turn
    moves the index by sixteen bits at least, so the loop takes no more turns
    than the body has bytes, which is the fuel given by [decodeUPIDs]. *)
Fixpoint decodeMID (fuel : nat) (upidr : iobit.Reader) : list SegmentationUPID :=
  match fuel with
  | O => []
  | S f =>
      if (0 <? iobit.LeftBits upidr)%nat then
        let '(upidType, upidr) := iobit.Uint32 8 upidr in
        let '(upidLength, upidr) := iobit.Uint32 8 upidr in
        let '(upidValue, upidr) := iobit.Bytes (Z.to_nat upidLength) upidr in
        NewSegmentationUPID upidType upidValue :: decodeMID f upidr
      else []
  end.

(** segmentation_upid_type, segmentation_upid_length and segmentation_upid():
    the UPIDs already held by the descriptor stay when the length is zero. *)
Definition decodeUPIDs (old : list SegmentationUPID) (r : iobit.Reader)
  : list SegmentationUPID * iobit.Reader :=
  let '(segmentationUpidType, r) := iobit.Uint32 8 r in
  let '(segmentationUpidLength, r) := iobit.Uint32 8 r in
  if 0 <? segmentationUpidLength then
    let '(segmentationUpidValue, r) := iobit.Bytes (Z.to_nat segmentationUpidLength) r in
    if segmentationUpidType =? SegmentationUPIDTypeMID then
      (decodeMID (S (List.length segmentationUpidValue))
         (iobit.NewReader segmentationUpidValue), r)
    else
      ([NewSegmentationUPID segmentationUpidType segmentationUpidValue], r)
  else (old, r).

(** [decode], from the flags after the cancel indicator through
    segments_expected: the descriptor so far and the reader there. *)
Definition decodeSegmentation (sd : SegmentationDescriptor) (r : iobit.Reader)
  : SegmentationDescriptor * iobit.Reader :=
  let '(programSegmentationFlag, r) := iobit.Bit r in
  let '(segmentationDurationFlag, r) := iobit.Bit r in
  let '(deliveryNotRestrictedFlag, r) := iobit.Bit r in
  let '(restrictions, r) :=
    if negb deliveryNotRestrictedFlag then
      let '(web, r) := iobit.Bit r in
      let '(blackout, r) := iobit.Bit r in
      let '(archive, r) := iobit.Bit r in
      let '(device, r) := iobit.Uint32 2 r in
      (Some (mkDR web blackout archive device), r)
    else (DeliveryRestrictions' sd, iobit.Skip 5 r) in
  let '(components, r) :=
    if negb programSegmentationFlag then
      let '(componentCount, r) := iobit.Uint32 8 r in
      decodeComponents (Z.to_nat componentCount) r
    else (Components sd, r) in
  let '(duration, r) :=
    if segmentationDurationFlag then
      let '(dur, r) := iobit.Uint64 40 r in (Some dur, r)
    else (SegmentationDuration sd, r) in
  let '(upids, r) := decodeUPIDs (SegmentationUPIDs sd) r in
  let '(typeID, r) := iobit.Uint32 8 r in
  let '(segmentNum, r) := iobit.Uint32 8 r in
  let '(segmentsExpected, r) := iobit.Uint32 8 r in
  (mkSD restrictions upids components (SegmentationEventID sd)
     (SegmentationEventCancelIndicator sd) duration typeID segmentNum
     segmentsExpected (SubSegmentNum sd) (SubSegmentsExpected sd), r).

(** [decode], the secondary check for sub_segment_num and
    sub_segments_expected. *)
Definition decodeSubSegments (sd : SegmentationDescriptor) (r : iobit.Reader)
  : SegmentationDescriptor * iobit.Reader :=
  if (SegmentationTypeID sd =? SegmentationTypeProviderPOStart)
     || (SegmentationTypeID sd =? SegmentationTypeDistributorPOStart) then
    if (iobit.LeftBits r =? 16)%nat then
      let '(n, r) := iobit.Uint32 8 r in
      let '(e, r) := iobit.Uint32 8 r in
      (mkSD (DeliveryRestrictions' sd) (SegmentationUPIDs sd) (Components sd)
         (SegmentationEventID sd) (SegmentationEventCancelIndicator sd)
         (SegmentationDuration sd) (SegmentationTypeID sd) (SegmentNum sd)
         (SegmentsExpected sd) (Some n) (Some e), r)
    else (sd, r)
  else (sd, r).

(** [decode], up to the cancel indicator and its reserved bits. *)
Definition decodeHead (sd : SegmentationDescriptor) (b : list byte)
  : SegmentationDescriptor * iobit.Reader :=
  let r := iobit.NewReader b in
  let r := iobit.Skip 8 r in
  let r := iobit.Skip 8 r in
  let r := iobit.Skip 32 r in
  let '(eventID, r) := iobit.Uint32 32 r in
  let '(cancel, r) := iobit.Bit r in
  let r := iobit.Skip 7 r in
  (mkSD (DeliveryRestrictions' sd) (SegmentationUPIDs sd) (Components sd)
     eventID cancel (SegmentationDuration sd) (SegmentationTypeID sd)
     (SegmentNum sd) (SegmentsExpected sd) (SubSegmentNum sd)
     (SubSegmentsExpected sd), r).

(** [decode] updates the descriptor [sd] from binary. *)
Definition decode (sd : SegmentationDescriptor) (b : list byte)
  : SegmentationDescriptor * option wrapped :=
  let '(sd, r) := decodeHead sd b in
  let '(sd, r) :=
    if negb (SegmentationEventCancelIndicator sd) then
      let '(sd, r) := decodeSegmentation sd r in
      decodeSubSegments sd r
    else (sd, r) in
  match readerError r with
  | Some err => (sd, Some (str "segmentation_descriptor", err))
  | None => (sd, None)
  end.

(** *** encode *)

(** One UPID on the wire: type, length of the value, value. *)
Definition putUPID (iow : iobit.Writer) (upid : SegmentationUPID) : option iobit.Writer :=
  vb ← valueBytes upid;
  let iow := iobit.PutUint 8 (Type' upid) iow in
  let iow := iobit.PutUint 8 (uint32 (Z.of_nat (List.length vb))) iow in
  Some (iobit.Write vb iow).

Fixpoint putUPIDs (iow : iobit.Writer) (upids : list SegmentationUPID)
  : option iobit.Writer :=
  match upids with
  | [] => Some iow
  | upid :: rest => iow ← putUPID iow upid; putUPIDs iow rest
  end.

(** The three branches on [len(sd.SegmentationUPIDs)]. *)
Definition encodeUPIDs (sd : SegmentationDescriptor) (iow : iobit.Writer)
  : option iobit.Writer :=
  match SegmentationUPIDs sd with
  | [] => Some (iobit.PutUint 8 0x00 (iobit.PutUint 8 0x00 iow))
  | [upid] => putUPID iow upid
  | upids =>
      len ← SegmentationUpidLength sd;
      let iow := iobit.PutUint 8 SegmentationUPIDTypeMID iow in
      let iow := iobit.PutUint 8 (uint32 len) iow in
      putUPIDs iow upids
  end.

Fixpoint putComponents (iow : iobit.Writer)
  (cs : list SegmentationDescriptorComponent) : iobit.Writer :=
  match cs with
  | [] => iow
  | c :: rest =>
      let iow := iobit.PutUint 8 (Tag c) iow in
      let iow := iobit.PutUint 7 Reserved iow in
      let iow := iobit.PutUint 33 (PTSOffset c) iow in
      putComponents iow rest
  end.

(** [encode], the fields before the UPID of a descriptor that is not
    cancelled. *)
Definition encodeFlags (sd : SegmentationDescriptor) (iow : iobit.Writer)
  : iobit.Writer :=
  let iow := iobit.PutBit (ProgramSegmentationFlag sd) iow in
  let iow := iobit.PutBit (SegmentationDurationFlag sd) iow in
  let iow := iobit.PutBit (DeliveryNotRestrictedFlag sd) iow in
  let iow :=
    match DeliveryRestrictions' sd with
    | Some dr =>
        let iow := iobit.PutBit (WebDeliveryAllowedFlag dr) iow in
        let iow := iobit.PutBit (NoRegionalBlackoutFlag dr) iow in
        let iow := iobit.PutBit (ArchiveAllowedFlag dr) iow in
        iobit.PutUint 2 (DeviceRestrictions dr) iow
    | None => iobit.PutUint 5 Reserved iow
    end in
  let iow :=
    if negb (ProgramSegmentationFlag sd) then
      let iow := iobit.PutUint 8 (uint32 (Z.of_nat (List.length (Components sd)))) iow in
      putComponents iow (Components sd)
    else iow in
  match SegmentationDuration sd with
  | Some dur => iobit.PutUint 40 dur iow
  | None => iow
  end.

(** [encode], the fields after the UPID. *)
Definition encodeTail (sd : SegmentationDescriptor) (iow : iobit.Writer)
  : iobit.Writer :=
  let iow := iobit.PutUint 8 (SegmentationTypeID sd) iow in
  let iow := iobit.PutUint 8 (SegmentNum sd) iow in
  let iow := iobit.PutUint 8 (SegmentsExpected sd) iow in
  let iow :=
    match SubSegmentNum sd with
    | Some n => iobit.PutUint 8 n iow
    | None => iow
    end in
  match SubSegmentsExpected sd with
  | Some e => iobit.PutUint 8 e iow
  | None => iow
  end.

(** [encode], up to the cancel indicator and its reserved bits. *)
Definition encodeHead (sd : SegmentationDescriptor) (length : Z) : iobit.Writer :=
  let iow := iobit.NewWriter (Z.to_nat (length + 2)) in
  let iow := iobit.PutUint 8 SegmentationDescriptorTag iow in
  let iow := iobit.PutUint 8 (uint32 length) iow in
  let iow := iobit.PutUint 32 CUEIdentifier iow in
  let iow := iobit.PutUint 32 (SegmentationEventID sd) iow in
  let iow := iobit.PutBit (SegmentationEventCancelIndicator sd) iow in
  iobit.PutUint 7 Reserved iow.

(** What [encode] has written when it reaches [Flush]. *)
Definition encodeWriter (sd : SegmentationDescriptor) : option iobit.Writer :=
  length ← length sd;
  let iow := encodeHead sd length in
  if negb (SegmentationEventCancelIndicator sd) then
    iow ← encodeUPIDs sd (encodeFlags sd iow);
    Some (encodeTail sd iow)
  else Some iow.

(** [encode] this descriptor to binary: the buffer and the error of [Flush];
    [None] when [valueBytes] panics. *)
Definition encode (sd : SegmentationDescriptor) : option (list byte * option error) :=
  iow ← encodeWriter sd;
  Some (iobit.Flush iow).

End SegDesc.

(** *** Vocabulary of the statements about the descriptor on the wire *)

(** The value bytes of each UPID of a list; [None] when [valueBytes] panics. *)
Fixpoint valuesOf (upids : list Upid.SegmentationUPID) : option (list (list byte)) :=
  match upids with
  | [] => Some []
  | upid :: rest =>
      vb ← Upid.valueBytes upid;
      vbs ← valuesOf rest;
      Some (vb :: vbs)
  end.

(** The bytes a list of UPIDs takes inside a MID: for each, the type byte,
    the length byte and the value. *)
Fixpoint midSum (vbs : list (list byte)) : Z :=
  match vbs with
  | [] => 0
  | vb :: rest => 2 + Z.of_nat (length vb) + midSum rest
  end.

(** The offset, in bytes, of segmentation_upid_type in an encoded descriptor
    that is not cancelled: tag, length, identifier, event id, cancel byte,
    flags, then the components and the duration when present. *)
Definition upidOffset (sd : SegDesc.SegmentationDescriptor) : Z :=
  12 + (if SegDesc.ProgramSegmentationFlag sd then 0
        else 1 + 6 * Z.of_nat (length (SegDesc.Components sd)))
     + (if SegDesc.SegmentationDurationFlag sd then 5 else 0).

(** The optional byte of a field that may be absent. *)
Definition optionalByte (o : option Z) : list bool :=
  match o with
  | Some v => bits_of_Z 8 v
  | None => []
  end.

(** A writer that stands on a byte boundary. *)
Definition aligned (w : iobit.Writer) : Prop :=
  exists k, length (iobit.out w) = (8 * k)%nat.

(** [SegmentationUpidLength] in terms of the value bytes: nothing for an
    empty list, the value for a single UPID, the inner triples for a MID. *)
Definition upidLengthOf (vbs : list (list byte)) : Z :=
  match vbs with
  | [] => 0
  | [vb] => Z.of_nat (length vb)
  | _ => midSum vbs
  end.

(** The segmentation_upid_type the encoder writes for a list of UPIDs: zero
    for none, the type of a single UPID, MID for several. *)
Definition outerType (upids : list Upid.SegmentationUPID) : Z :=
  match upids with
  | [] => 0x00
  | [upid] => Upid.Type' upid
  | _ => SegmentationUPIDTypeMID
  end.

(** The bits of segmentation_type_id, segment_num, segments_expected and of
    the two optional sub-segment bytes. *)
Definition tailBits (sd : SegDesc.SegmentationDescriptor) : list bool :=
  bits_of_Z 8 (SegDesc.SegmentationTypeID sd)
    ++ bits_of_Z 8 (SegDesc.SegmentNum sd)
    ++ bits_of_Z 8 (SegDesc.SegmentsExpected sd)
    ++ optionalByte (SegDesc.SubSegmentNum sd)
    ++ optionalByte (SegDesc.SubSegmentsExpected sd).

(** An optional byte-wide field on the wire. *)
Definition optionalField (o : option Z) : list byte :=
  match o with
  | Some v => [byte_of_Z v]
  | None => []
  end.

(** ** splice_insert ([splice_insert.go]) *)

Module SpliceInsert.

(** [type SpliceTime struct] : [PTSTime] is a pointer. *)
Record SpliceTime := mkSpliceTime { PTSTime : option Z }.

(** [type SpliceInsertComponent struct] *)
Record SpliceInsertComponent := mkComponent {
  Tag : Z;
  SpliceTime' : option SpliceTime
}.

(** [type BreakDuration struct] *)
Record BreakDuration := mkBreakDuration {
  AutoReturn : bool;
  Duration : Z
}.

(** [type SpliceInsert struct] : [Program] points to a
    [SpliceInsertProgram], which holds one [SpliceTime]. *)
Record SpliceInsert := mkSpliceInsert {
  Program : option SpliceTime;
  Components : list SpliceInsertComponent;
  BreakDuration' : option BreakDuration;
  SpliceEventID : Z;
  SpliceEventCancelIndicator : bool;
  SpliceImmediateFlag : bool;
  OutOfNetworkIndicator : bool;
  UniqueProgramID : Z;
  AvailNum : Z;
  AvailsExpected : Z
}.

Definition zero : SpliceInsert :=
  mkSpliceInsert None [] None 0 false false false 0 0 0.

Definition durationFlag (cmd : SpliceInsert) : bool :=
  match BreakDuration' cmd with Some _ => true | None => false end.

Definition programSpliceFlag (cmd : SpliceInsert) : bool :=
  match Program cmd with Some _ => true | None => false end.

(** [timeSpecifiedFlag] of a [SpliceInsertProgram] *)
Definition programTimeSpecifiedFlag (p : option SpliceTime) : bool :=
  match p with
  | Some (mkSpliceTime (Some _)) => true
  | _ => false
  end.

(** [timeSpecifiedFlag] of a [SpliceInsertComponent] *)
Definition componentTimeSpecifiedFlag (c : SpliceInsertComponent) : bool :=
  match SpliceTime' c with
  | Some (mkSpliceTime (Some _)) => true
  | _ => false
  end.

(** time_specified_flag and what follows it, as [decode] reads them. *)
Definition decodeTime (r : iobit.Reader) : option Z * iobit.Reader :=
  let '(timeSpecifiedFlag, r) := iobit.Bit r in
  if timeSpecifiedFlag then
    let r := iobit.Skip 6 r in
    let '(ptsTime, r) := iobit.Uint64 33 r in
    (Some ptsTime, r)
  else (None, iobit.Skip 7 r).

Fixpoint decodeComponents (componentCount : nat) (immediate : bool)
  (r : iobit.Reader) : list SpliceInsertComponent * iobit.Reader :=
  match componentCount with
  | O => ([], r)
  | S k =>
      let '(tag, r) := iobit.Uint32 8 r in
      let '(time, r) :=
        if negb immediate then
          let '(pts, r) := decodeTime r in
          (match pts with
           | Some p => Some (mkSpliceTime (Some p))
           | None => None
           end, r)
        else (None, r) in
      let '(rest, r) := decodeComponents k immediate r in
      (mkComponent tag time :: rest, r)
  end.

(** [decode] a binary splice_insert into [cmd]. *)
Definition decode (cmd : SpliceInsert) (b : list byte)
  : SpliceInsert * option wrapped :=
  let r := iobit.NewReader b in
  let '(eventID, r) := iobit.Uint32 32 r in
  let '(cancel, r) := iobit.Bit r in
  let r := iobit.Skip 7 r in
  let '(cmd, r) :=
    if negb cancel then
      let '(outOfNetwork, r) := iobit.Bit r in
      let '(programSpliceFlag, r) := iobit.Bit r in
      let '(durationFlag, r) := iobit.Bit r in
      let '(immediate, r) := iobit.Bit r in
      let r := iobit.Skip 4 r in
      let '(program, components, r) :=
        if programSpliceFlag then
          if negb immediate then
            let '(pts, r) := decodeTime r in
            (Some (mkSpliceTime pts), Components cmd, r)
          else (Some (mkSpliceTime None), Components cmd, r)
        else
          let '(componentCount, r) := iobit.Uint32 8 r in
          let '(cs, r) := decodeComponents (Z.to_nat componentCount) immediate r in
          (Program cmd, cs, r) in
      let '(break, r) :=
        if durationFlag then
          let '(autoReturn, r) := iobit.Bit r in
          let r := iobit.Skip 6 r in
          let '(duration, r) := iobit.Uint64 33 r in
          (Some (mkBreakDuration autoReturn duration), r)
        else (BreakDuration' cmd, r) in
      (mkSpliceInsert program components break eventID cancel immediate
         outOfNetwork (UniqueProgramID cmd) (AvailNum cmd) (AvailsExpected cmd), r)
    else
      (mkSpliceInsert (Program cmd) (Components cmd) (BreakDuration' cmd)
         eventID cancel (SpliceImmediateFlag cmd) (OutOfNetworkIndicator cmd)
         (UniqueProgramID cmd) (AvailNum cmd) (AvailsExpected cmd), r) in
  let '(uniqueProgramID, r) := iobit.Uint32 16 r in
  let '(availNum, r) := iobit.Uint32 8 r in
  let '(availsExpected, r) := iobit.Uint32 8 r in
  let cmd :=
    mkSpliceInsert (Program cmd) (Components cmd) (BreakDuration' cmd)
      (SpliceEventID cmd) (SpliceEventCancelIndicator cmd)
      (SpliceImmediateFlag cmd) (OutOfNetworkIndicator cmd)
      uniqueProgramID availNum availsExpected in
  match readerError r with
  | Some err => (cmd, Some (str "splice_insert", err))
  | None => (cmd, None)
  end.

(** time_specified_flag and what follows it, as [encode] writes them. *)
Definition putTime (specified : bool) (pts : option Z) (iow : iobit.Writer)
  : iobit.Writer :=
  if specified then
    let iow := iobit.PutBit true iow in
    let iow := iobit.PutUint 6 Reserved iow in
    iobit.PutUint 33 (default 0 pts) iow
  else
    let iow := iobit.PutBit false iow in
    iobit.PutUint 7 Reserved iow.

Definition ptsOf (t : option SpliceTime) : option Z :=
  match t with
  | Some t => PTSTime t
  | None => None
  end.

Fixpoint putComponents (immediate : bool) (cs : list SpliceInsertComponent)
  (iow : iobit.Writer) : iobit.Writer :=
  match cs with
  | [] => iow
  | c :: rest =>
      let iow := iobit.PutUint 8 (Tag c) iow in
      let iow :=
        if negb immediate
        then putTime (componentTimeSpecifiedFlag c) (ptsOf (SpliceTime' c)) iow
        else iow in
      putComponents immediate rest iow
  end.

(** [length] : the splice_command_length. *)
Definition length (cmd : SpliceInsert) : Z :=
  let length := 32 + 1 + 7 in
  let length :=
    if negb (SpliceEventCancelIndicator cmd) then
      let length := length + 1 + 1 + 1 + 1 + 4 in
      let length :=
        if programSpliceFlag cmd && negb (SpliceImmediateFlag cmd) then
          if programTimeSpecifiedFlag (Program cmd)
          then length + 1 + 6 + 33 else length + 1 + 7
        else length in
      let length :=
        if negb (programSpliceFlag cmd) then
          fold_left
            (fun length c =>
               let length := length + 8 in
               if negb (SpliceImmediateFlag cmd) then
                 if componentTimeSpecifiedFlag c
                 then length + 1 + 6 + 33 else length + 1 + 7
               else length)
            (Components cmd) (length + 8)
        else length in
      let length := if durationFlag cmd then length + 1 + 6 + 33 else length in
      length + 16 + 8 + 8
    else length in
  length / 8.

(** [encode] this splice_insert to binary. *)
Definition encode (cmd : SpliceInsert) : list byte * option error :=
  let iow := iobit.NewWriter (Z.to_nat (length cmd)) in
  let iow := iobit.PutUint 32 (SpliceEventID cmd) iow in
  let iow := iobit.PutBit (SpliceEventCancelIndicator cmd) iow in
  let iow := iobit.PutUint 7 Reserved iow in
  let iow :=
    if negb (SpliceEventCancelIndicator cmd) then
      let iow := iobit.PutBit (OutOfNetworkIndicator cmd) iow in
      let iow := iobit.PutBit (programSpliceFlag cmd) iow in
      let iow := iobit.PutBit (durationFlag cmd) iow in
      let iow := iobit.PutBit (SpliceImmediateFlag cmd) iow in
      let iow := iobit.PutUint 4 Reserved iow in
      let iow :=
        if programSpliceFlag cmd && negb (SpliceImmediateFlag cmd)
        then putTime (programTimeSpecifiedFlag (Program cmd)) (ptsOf (Program cmd)) iow
        else iow in
      let iow :=
        if negb (programSpliceFlag cmd) then
          let iow :=
            iobit.PutUint 8 (uint32 (Z.of_nat (List.length (Components cmd)))) iow in
          putComponents (SpliceImmediateFlag cmd) (Components cmd) iow
        else iow in
      let iow :=
        match BreakDuration' cmd with
        | Some bd =>
            let iow := iobit.PutBit (AutoReturn bd) iow in
            let iow := iobit.PutUint 6 Reserved iow in
            iobit.PutUint 33 (Duration bd) iow
        | None => iow
        end in
      let iow := iobit.PutUint 16 (UniqueProgramID cmd) iow in
      let iow := iobit.PutUint 8 (AvailNum cmd) iow in
      iobit.PutUint 8 (AvailsExpected cmd) iow
    else iow in
  iobit.Flush iow.

End SpliceInsert.

(** ** time_descriptor ([time_descriptor.go]) *)

Module TimeDescriptor.

Definition TimeDescriptorTag : Z := 0x03.

Record TimeDescriptor := mkTimeDescriptor {
  TAISeconds : Z;
  TAINS : Z;
  UTCOffset : Z
}.

Definition decode (b : list byte) : TimeDescriptor * option error :=
  let r := iobit.NewReader b in
  let r := iobit.Skip 8 r in
  let r := iobit.Skip 8 r in
  let r := iobit.Skip 32 r in
  let '(taiSeconds, r) := iobit.Uint64 48 r in
  let '(taiNS, r) := iobit.Uint32 32 r in
  let '(utcOffset, r) := iobit.Uint32 16 r in
  (mkTimeDescriptor taiSeconds taiNS utcOffset, readerError r).

Definition length (sd : TimeDescriptor) : Z := (32 + 48 + 32 + 16) / 8.

Definition encode (sd : TimeDescriptor) : list byte * option error :=
  let length := length sd in
  let iow := iobit.NewWriter (Z.to_nat (length + 2)) in
  let iow := iobit.PutUint 8 TimeDescriptorTag iow in
  let iow := iobit.PutUint 8 (uint32 length) iow in
  let iow := iobit.PutUint 32 CUEIdentifier iow in
  let iow := iobit.PutUint 48 (TAISeconds sd) iow in
  let iow := iobit.PutUint 32 (TAINS sd) iow in
  let iow := iobit.PutUint 16 (UTCOffset sd) iow in
  iobit.Flush iow.

End TimeDescriptor.

(** ** The MPEG-TS demultiplexer ([stream.go])

    A payload is modelled by its bytes.  (In the source a payload is a slice
    of the read buffer; within one read of the file, and as long as no partial
    section is extended in place, the slice keeps these bytes.)  What the
    source prints is kept as a list of records, without the conversion of the
    clocks to seconds and without the JSON rendering. *)

Module Stream.

Definition packetSize : Z := 188.

(** What [makeSpliceInfoSection] and [parseScte35] print for one section:
    the packet data (clocks in ticks) and the bytes handed to [sis.Decode]. *)
Record Output := mkOutput {
  PacketNumber : Z;
  PID : Z;
  Program : Z;
  PCR : Z;
  PTS : Z;
  Section : list byte
}.

(** [type Stream struct] *)
Record t := mkStream {
  pktNum : Z;
  programs : list Z;
  pidToProgram : gmap Z Z;
  programToPCR : gmap Z Z;
  programToPTS : gmap Z Z;
  partial : gmap Z (list byte);
  last : gmap Z (list byte);
  pids : PIDs.t;
  printed : list Output
}.

(** The stream after [mkMaps] and [st.pktNum = 0], nothing printed yet. *)
Definition init : t := mkStream 0 [] ∅ ∅ ∅ ∅ ∅ PIDs.zero [].

Definition setPids (st : t) (p : PIDs.t) : t :=
  mkStream (pktNum st) (programs st) (pidToProgram st) (programToPCR st)
    (programToPTS st) (partial st) (last st) p (printed st).

Definition setPartial (st : t) (m : gmap Z (list byte)) : t :=
  mkStream (pktNum st) (programs st) (pidToProgram st) (programToPCR st)
    (programToPTS st) m (last st) (pids st) (printed st).

Definition setLast (st : t) (m : gmap Z (list byte)) : t :=
  mkStream (pktNum st) (programs st) (pidToProgram st) (programToPCR st)
    (programToPTS st) (partial st) m (pids st) (printed st).

Definition setPrograms (st : t) (l : list Z) : t :=
  mkStream (pktNum st) l (pidToProgram st) (programToPCR st)
    (programToPTS st) (partial st) (last st) (pids st) (printed st).

Definition setPidToProgram (st : t) (m : gmap Z Z) : t :=
  mkStream (pktNum st) (programs st) m (programToPCR st)
    (programToPTS st) (partial st) (last st) (pids st) (printed st).

Definition setProgramToPCR (st : t) (m : gmap Z Z) : t :=
  mkStream (pktNum st) (programs st) (pidToProgram st) m
    (programToPTS st) (partial st) (last st) (pids st) (printed st).

Definition setProgramToPTS (st : t) (m : gmap Z Z) : t :=
  mkStream (pktNum st) (programs st) (pidToProgram st) (programToPCR st)
    m (partial st) (last st) (pids st) (printed st).

Definition print (st : t) (o : Output) : t :=
  mkStream (pktNum st) (programs st) (pidToProgram st) (programToPCR st)
    (programToPTS st) (partial st) (last st) (pids st) (printed st ++ [o]).

(** [b[i]] : [None] is the index-out-of-range panic. *)
Definition at_ (b : list byte) (i : Z) : option Z :=
  Z_of_byte <$> b !! Z.to_nat i.

(** [b[i:]] : [None] is the slice-bounds panic. *)
Definition from (b : list byte) (i : Z) : option (list byte) :=
  if i <=? Z.of_nat (length b) then Some (drop (Z.to_nat i) b) else None.

Definition parseLength (byte1 byte2 : Z) : Z :=
  Z.lor (Z.shiftl (uint16 (Z.land byte1 0xf)) 8) (uint16 byte2).

Definition parsePID (byte1 byte2 : Z) : Z :=
  Z.lor (Z.shiftl (uint16 (Z.land byte1 0x1f)) 8) (uint16 byte2).

Definition parseProgram (byte1 byte2 : Z) : Z :=
  Z.lor (uint16 (Z.shiftl (uint16 byte1) 8)) (uint16 byte2).

Fixpoint hasPrefix (sep l : list byte) : bool :=
  match sep, l with
  | [], _ => true
  | s :: sep', x :: l' => Byte.eqb s x && hasPrefix sep' l'
  | _ :: _, [] => false
  end.

(** [bytes.Index] and the reslice of [splitByIndex] in one pass: the payload
    from the first occurrence of [sep], empty when there is none. *)
Fixpoint splitByIndex (payload sep : list byte) : list byte :=
  if hasPrefix sep payload then payload
  else match payload with
       | [] => []
       | _ :: rest => splitByIndex rest sep
       end.

Definition parsePUSI (pkt : list byte) : option bool :=
  b1 ← at_ pkt 1;
  if Z.land (Z.shiftr b1 6) 1 =? 1 then
    b6 ← at_ pkt 6;
    Some (Z.land b6 1 =? 1)
  else Some false.

Definition parsePTS (st : t) (pkt : list byte) (pid : Z) : option t :=
  pusi ← parsePUSI pkt;
  if (pusi : bool) then
    match pidToProgram st !! pid with
    | Some prgm =>
        b13 ← at_ pkt 13;
        b14 ← at_ pkt 14;
        b15 ← at_ pkt 15;
        b16 ← at_ pkt 16;
        b17 ← at_ pkt 17;
        let pts := Z.shiftl (Z.land (Z.shiftr b13 1) 7) 30 in
        let pts := Z.lor pts (Z.shiftl b14 22) in
        let pts := Z.lor pts (Z.shiftl (Z.shiftr b15 1) 15) in
        let pts := Z.lor pts (Z.shiftl b16 7) in
        let pts := Z.lor pts (Z.shiftr b17 1) in
        Some (setProgramToPTS st (<[prgm := pts]> (programToPTS st)))
    | None => Some st
    end
  else Some st.

Definition parsePCR (st : t) (pkt : list byte) (pid : Z) : option t :=
  b3 ← at_ pkt 3;
  if Z.land (Z.shiftr b3 5) 1 =? 1 then
    b5 ← at_ pkt 5;
    if Z.land (Z.shiftr b5 4) 1 =? 1 then
      b6 ← at_ pkt 6;
      b7 ← at_ pkt 7;
      b8 ← at_ pkt 8;
      b9 ← at_ pkt 9;
      b10 ← at_ pkt 10;
      let pcr := Z.shiftl b6 25 in
      let pcr := Z.lor pcr (Z.shiftl b7 17) in
      let pcr := Z.lor pcr (Z.shiftl b8 9) in
      let pcr := Z.lor pcr (Z.shiftl b9 1) in
      let pcr := Z.lor pcr (Z.shiftr b10 7) in
      let prgm := default 0 (pidToProgram st !! pid) in
      Some (setProgramToPCR st (<[prgm := pcr]> (programToPCR st)))
    else Some st
  else Some st.

(** [parsePayload] : the payload starts after the header and the adaptation
    field. *)
Definition parsePayload (pkt : list byte) : option (list byte) :=
  b3 ← at_ pkt 3;
  head ←
    (if Z.land (Z.shiftr b3 5) 1 =? 1 then
       afl ← at_ pkt 4;
       Some (4 + (afl + 1))
     else Some 4);
  let head := if packetSize <? head then packetSize else head in
  from pkt head.

(** [checkPartial] *)
Definition checkPartial (st : t) (pay : list byte) (pid : Z) (sep : list byte)
  : list byte :=
  let pay :=
    match partial st !! pid with
    | Some val => val ++ pay
    | None => pay
    end in
  splitByIndex pay sep.

(** [sameAsLast] *)
Definition sameAsLast (st : t) (pay : list byte) (pid : Z) : bool * t :=
  match last st !! pid with
  | Some val =>
      if list_byte_eqb pay val then (true, st)
      else (false, setLast st (<[pid := pay]> (last st)))
  | None => (false, setLast st (<[pid := pay]> (last st)))
  end.

(** [sectionDone] *)
Definition sectionDone (st : t) (pay : list byte) (pid : Z) (seclen : Z)
  : bool * t :=
  if uint16 (Z.of_nat (length pay)) <? uint16 (seclen + 3)
  then (false, setPartial st (<[pid := pay]> (partial st)))
  else (true, setPartial st (delete pid (partial st))).

(** The loop of [parsePAT] over the (program, PMT PID) pairs. *)
Fixpoint patLoop (fuel : nat) (st : t) (pay : list byte) (idx end_ : Z)
  : option t :=
  match fuel with
  | O => if idx <? end_ then None else Some st
  | S f =>
      if idx <? end_ then
        b0 ← at_ pay idx;
        b1 ← at_ pay (uint16 (idx + 1));
        let prgm := parseProgram b0 b1 in
        st ←
          (if 0 <? prgm then
             let st :=
               if negb (PIDs.isIn16 (programs st) prgm)
               then setPrograms st (programs st ++ [prgm]) else st in
             b2 ← at_ pay (uint16 (idx + 2));
             b3 ← at_ pay (uint16 (idx + 3));
             let pmtpid := parsePID b2 b3 in
             Some (setPids st (PIDs.addPMTPID (pids st) pmtpid))
           else Some st);
        patLoop f st pay (uint16 (idx + 4)) end_
      else Some st
  end.

(** [parsePAT] *)
Definition parsePAT (st : t) (pay : list byte) (pid : Z) : option t :=
  let '(same, st) := sameAsLast st pay pid in
  if same then Some st
  else
    let pay := checkPartial st pay pid [x00; x00] in
    if (length pay <? 1)%nat then Some st
    else
      b2 ← at_ pay 2;
      b3 ← at_ pay 3;
      let seclen := parseLength b2 b3 in
      let '(done_, st) := sectionDone st pay pid seclen in
      if done_ then
        let seclen := uint16 (seclen - 5) in
        let idx := 9 in
        let end_ := uint16 (idx + seclen - 4) in
        patLoop (Z.to_nat end_) st pay idx end_
      else Some st.

(** [verifyStreamType] *)
Definition verifyStreamType (st : t) (pid : Z) (streamtype : Z) : t :=
  if (streamtype =? 6) || (streamtype =? 134)
  then setPids st (PIDs.addSCTE35PID (pids st) pid)
  else st.

(** The loop of [parseStreams] over the elementary streams of a program. *)
Fixpoint streamsLoop (fuel : nat) (st : t) (pay : list byte) (idx endidx prgm : Z)
  : option t :=
  match fuel with
  | O => if idx <? endidx then None else Some st
  | S f =>
      if idx <? endidx then
        streamtype ← at_ pay idx;
        b1 ← at_ pay (uint16 (idx + 1));
        b2 ← at_ pay (uint16 (idx + 2));
        let elpid := parsePID b1 b2 in
        b3 ← at_ pay (uint16 (idx + 3));
        b4 ← at_ pay (uint16 (idx + 4));
        let eilen := parseLength b3 b4 in
        let idx := uint16 (idx + 5) in
        let idx := uint16 (idx + eilen) in
        let st := setPidToProgram st (<[elpid := prgm]> (pidToProgram st)) in
        let st := verifyStreamType st elpid streamtype in
        streamsLoop f st pay idx endidx prgm
      else Some st
  end.

(** [parseStreams] : an index that stays in the payload grows by five at
    least in every turn, which bounds the turns by the length of the payload. *)
Definition parseStreams (st : t) (silen : Z) (pay : list byte) (idx prgm : Z)
  : option t :=
  let chunksize := 5 in
  let endidx := uint16 (uint16 (idx + silen) - chunksize) in
  streamsLoop (S (length pay)) st pay idx endidx prgm.

(** [parsePMT] *)
Definition parsePMT (st : t) (pay : list byte) (pid : Z) : option t :=
  let '(same, st) := sameAsLast st pay pid in
  if same then Some st
  else
    let pay := checkPartial st pay pid [x02] in
    if (length pay <? 1)%nat then Some st
    else
      b1 ← at_ pay 1;
      b2 ← at_ pay 2;
      let secinfolen := parseLength b1 b2 in
      let '(done_, st) := sectionDone st pay pid secinfolen in
      if done_ then
        b3 ← at_ pay 3;
        b4 ← at_ pay 4;
        let prgm := parseProgram b3 b4 in
        b8 ← at_ pay 8;
        b9 ← at_ pay 9;
        let pcrpid := parsePID b8 b9 in
        let st := setPids st (PIDs.addPCRPID (pids st) pcrpid) in
        b10 ← at_ pay 10;
        b11 ← at_ pay 11;
        let proginfolen := parseLength b10 b11 in
        let idx := uint16 (12 + proginfolen) in
        let silen := uint16 (secinfolen - 9) in
        let silen := uint16 (silen - proginfolen) in
        parseStreams st silen pay idx prgm
      else Some st.

(** [makeSpliceInfoSection] and the two prints of [parseScte35]. *)
Definition makeSpliceInfoSection (st : t) (pid : Z) (pay : list byte) : t :=
  let prgm := default 0 (pidToProgram st !! pid) in
  print st (mkOutput (pktNum st) pid prgm
              (default 0 (programToPCR st !! prgm))
              (default 0 (programToPTS st !! prgm)) pay).

(** [parseScte35] *)
Definition parseScte35 (st : t) (pay : list byte) (pid : Z) : option t :=
  let pay := checkPartial st pay pid [xfc; "0"%byte] in
  if (length pay =? 0)%nat then
    Some (setPids st (PIDs.delSCTE35PID (pids st) pid))
  else
    b1 ← at_ pay 1;
    b2 ← at_ pay 2;
    let seclen := parseLength b1 b2 in
    let '(done_, st) := sectionDone st pay pid seclen in
    if done_ then Some (makeSpliceInfoSection st pid pay)
    else Some st.

(** [parse] : one packet, by its PID. *)
Definition parse (st : t) (pkt : list byte) : option t :=
  b1 ← at_ pkt 1;
  b2 ← at_ pkt 2;
  let pid := parsePID b1 b2 in
  pay ← parsePayload pkt;
  st ← (if pid =? 0 then parsePAT st pay pid else Some st);
  st ← (if PIDs.isPMTPID (pids st) pid then parsePMT st pay pid else Some st);
  st ← (if PIDs.isPCRPID (pids st) pid then parsePCR st pkt pid
        else parsePTS st pkt pid);
  if PIDs.isSCTE35PID (pids st) pid then parseScte35 st pay pid else Some st.

(** The packet loop of [Decode] over the packets of one read. *)
Fixpoint decodePackets (st : t) (pkts : list (list byte)) : option t :=
  match pkts with
  | [] => Some st
  | pkt :: rest =>
      let st :=
        mkStream (pktNum st + 1) (programs st) (pidToProgram st)
          (programToPCR st) (programToPTS st) (partial st) (last st) (pids st)
          (printed st) in
      st ← parse st pkt;
      decodePackets st rest
  end.

End Stream.

(** ** CRC-32 of a section

    Modelled from the spec: section 4.2; the functions live in [scte35.go],
    which is not among the sources.  MPEG-2 CRC-32: polynomial 0x04C11DB7,
    register initialised to 0xFFFFFFFF, bytes processed most significant bit
    first, no reflection, no final exclusive-or. *)





(** ** The interfaces of commands and descriptors

    Modelled from the spec: sections 3, 4.3 and 4.4; [splice_command.go] and
    [splice_descriptor.go] are not among the sources.  A command type offers
    its type, its encoder and its length; [decodeSpliceCommand] builds the
    variant for a splice_command_type and decodes the payload into it: no
    variant ([None]) for a type that is not known, otherwise the value, which
    is partially populated when an error comes with it. *)

Class SpliceCommand (C : Type) := {
  commandType : C -> Z;
  commandEncode : C -> list byte * option error;
  commandLength : C -> Z;
  decodeSpliceCommand : Z -> list byte -> option (C * option wrapped)
}.

(** [decodeSpliceDescriptor tag identifier b] decodes one descriptor from its
    bytes [b], which start at the tag; the encoder of a descriptor returns
    them, tag and length included; [descriptorLength] is the
    descriptor_length.  [None] stands for a run-time panic of the Go code. *)
Class SpliceDescriptor (D : Type) := {
  descriptorEncode : D -> option (list byte * option error);
  descriptorLength : D -> option Z;
  decodeSpliceDescriptor : Z -> Z -> list byte -> option (D * option wrapped)
}.

(** ** splice_info_section

    Modelled from the spec: sections 3, 4.6 and 4.7, and from the tests of
    the package where they decide what the spec leaves open;
    [splice_info_section.go] and [scte35.go] are not among the sources.
    table_id, section_syntax_indicator and private_indicator are constants
    of the encoder that the decoder skips; the encrypted_packet flag is
    derived from the encryption algorithm; the lengths are derived.  The
    alignment stuffing and E_CRC_32 that [Decode] reads are kept in the value
    and written back by [Encode]: [TestEncodeWithAlignmentStuffing] requires
    a decoded signal with stuffing to encode to the text it came from. *)

Module Sis.

Section Codec.

Context {C D : Type} `{SpliceCommand C} `{SpliceDescriptor D}.

Definition EncryptionAlgorithmNone : Z := 0.

Record EncryptedPacket := mkEncryptedPacket {
  EncryptionAlgorithm : Z;
  CWIndex : Z
}.

Record SpliceInfoSection := mkSIS {
  EncryptedPacket' : EncryptedPacket;
  SpliceCommand' : option C;
  SpliceDescriptors : list D;
  SAPType : Z;
  PTSAdjustment : Z;
  ProtocolVersion : Z;
  Tier : Z;
  alignmentStuffing : list byte;
  ecrc32 : Z;
  crc32 : Z
}.

Definition zero : SpliceInfoSection :=
  mkSIS (mkEncryptedPacket 0 0) None [] 0 0 0 0 [] 0 0.

Definition encryptionIndicator (p : EncryptedPacket) : bool :=
  negb (EncryptionAlgorithm p =? EncryptionAlgorithmNone).


(** *** Decode *)












(** *** Encode *)


Definition sectionLengthOf (sis : SpliceInfoSection)
  (spliceCommandLength descriptorLoopLength : Z) : Z :=
  11 + spliceCommandLength + 2 + descriptorLoopLength
  + Z.of_nat (length (alignmentStuffing sis))
  + (if encryptionIndicator (EncryptedPacket' sis) then 4 else 0) + 4.





End Codec.

Arguments SpliceInfoSection : clear implicits.

End Sis.

(** ** Commands and descriptors of the test signals

    Modelled from the spec: sections 3, 4.3 and 4.4, with the bit layouts of
    ANSI/SCTE 35 that section 4.3 refers to; [splice_null.go],
    [time_signal.go], [avail_descriptor.go], [dtmf_descriptor.go] and
    [private_descriptor.go] are not among the sources.  [splice_insert],
    [segmentation_descriptor] and [time_descriptor] are the ones above,
    from the source. *)

Module TimeSignal.

Definition TimeSignalType : Z := 0x06.

Record TimeSignal := mkTimeSignal { SpliceTime : SpliceInsert.SpliceTime }.

Definition decode (b : list byte) : TimeSignal * option wrapped :=
  let r := iobit.NewReader b in
  let '(pts, r) := SpliceInsert.decodeTime r in
  let cmd := mkTimeSignal (SpliceInsert.mkSpliceTime pts) in
  match readerError r with
  | Some err => (cmd, Some (str "time_signal", err))
  | None => (cmd, None)
  end.

Definition timeSpecifiedFlag (cmd : TimeSignal) : bool :=
  match SpliceInsert.PTSTime (SpliceTime cmd) with Some _ => true | None => false end.

Definition length (cmd : TimeSignal) : Z :=
  (if timeSpecifiedFlag cmd then 1 + 6 + 33 else 1 + 7) / 8.

Definition encode (cmd : TimeSignal) : list byte * option error :=
  let iow := iobit.NewWriter (Z.to_nat (length cmd)) in
  let iow :=
    SpliceInsert.putTime (timeSpecifiedFlag cmd)
      (SpliceInsert.PTSTime (SpliceTime cmd)) iow in
  iobit.Flush iow.

End TimeSignal.

Module SpliceNull.

Definition SpliceNullType : Z := 0x00.

(** A splice_null has no payload. *)
Definition decode (b : list byte) : option wrapped :=
  match readerError (iobit.NewReader b) with
  | Some err => Some (str "splice_null", err)
  | None => None
  end.

Definition encode : list byte * option error := iobit.Flush (iobit.NewWriter 0).

End SpliceNull.

Module AvailDescriptor.

Definition AvailDescriptorTag : Z := 0x00.

Record AvailDescriptor := mkAvailDescriptor { ProviderAvailID : Z }.

Definition decode (b : list byte) : AvailDescriptor * option wrapped :=
  let r := iobit.NewReader b in
  let r := iobit.Skip 8 r in
  let r := iobit.Skip 8 r in
  let r := iobit.Skip 32 r in
  let '(providerAvailID, r) := iobit.Uint32 32 r in
  let sd := mkAvailDescriptor providerAvailID in
  match readerError r with
  | Some err => (sd, Some (str "avail_descriptor", err))
  | None => (sd, None)
  end.

Definition length (sd : AvailDescriptor) : Z := (32 + 32) / 8.

Definition encode (sd : AvailDescriptor) : list byte * option error :=
  let length := length sd in
  let iow := iobit.NewWriter (Z.to_nat (length + 2)) in
  let iow := iobit.PutUint 8 AvailDescriptorTag iow in
  let iow := iobit.PutUint 8 (uint32 length) iow in
  let iow := iobit.PutUint 32 CUEIdentifier iow in
  let iow := iobit.PutUint 32 (ProviderAvailID sd) iow in
  iobit.Flush iow.

End AvailDescriptor.

Module DTMFDescriptor.

Definition DTMFDescriptorTag : Z := 0x01.

Record DTMFDescriptor := mkDTMFDescriptor {
  Preroll : Z;
  DTMFChars : list byte
}.

Definition decode (b : list byte) : DTMFDescriptor * option wrapped :=
  let r := iobit.NewReader b in
  let r := iobit.Skip 8 r in
  let r := iobit.Skip 8 r in
  let r := iobit.Skip 32 r in
  let '(preroll, r) := iobit.Uint32 8 r in
  let '(dtmfCount, r) := iobit.Uint32 3 r in
  let r := iobit.Skip 5 r in
  let '(chars, r) := iobit.Bytes (Z.to_nat dtmfCount) r in
  let sd := mkDTMFDescriptor preroll chars in
  match readerError r with
  | Some err => (sd, Some (str "dtmf_descriptor", err))
  | None => (sd, None)
  end.

Definition length (sd : DTMFDescriptor) : Z :=
  (32 + 8 + 3 + 5 + 8 * Z.of_nat (List.length (DTMFChars sd))) / 8.

Definition encode (sd : DTMFDescriptor) : list byte * option error :=
  let length := length sd in
  let iow := iobit.NewWriter (Z.to_nat (length + 2)) in
  let iow := iobit.PutUint 8 DTMFDescriptorTag iow in
  let iow := iobit.PutUint 8 (uint32 length) iow in
  let iow := iobit.PutUint 32 CUEIdentifier iow in
  let iow := iobit.PutUint 8 (Preroll sd) iow in
  let iow := iobit.PutUint 3 (uint32 (Z.of_nat (List.length (DTMFChars sd)))) iow in
  let iow := iobit.PutUint 5 Reserved iow in
  let iow := iobit.Write (DTMFChars sd) iow in
  iobit.Flush iow.

End DTMFDescriptor.

Module PrivateDescriptor.

Record PrivateDescriptor := mkPrivateDescriptor {
  PrivateTag : Z;
  Identifier : Z;
  PrivateBytes : list byte
}.

Definition decode (b : list byte) : PrivateDescriptor * option wrapped :=
  let r := iobit.NewReader b in
  let '(tag, r) := iobit.Uint32 8 r in
  let r := iobit.Skip 8 r in
  let '(identifier, r) := iobit.Uint32 32 r in
  let privateBytes := iobit.LeftBytes r in
  let r := iobit.Skip (iobit.LeftBits r) r in
  let sd := mkPrivateDescriptor tag identifier privateBytes in
  match readerError r with
  | Some err => (sd, Some (str "private_descriptor", err))
  | None => (sd, None)
  end.

Definition length (sd : PrivateDescriptor) : Z :=
  (32 + 8 * Z.of_nat (List.length (PrivateBytes sd))) / 8.

Definition encode (sd : PrivateDescriptor) : list byte * option error :=
  let length := length sd in
  let iow := iobit.NewWriter (Z.to_nat (length + 2)) in
  let iow := iobit.PutUint 8 (PrivateTag sd) iow in
  let iow := iobit.PutUint 8 (uint32 length) iow in
  let iow := iobit.PutUint 32 (Identifier sd) iow in
  let iow := iobit.Write (PrivateBytes sd) iow in
  iobit.Flush iow.

End PrivateDescriptor.

(** The variants that occur in the signals below, as one type each; the
    other commands and the audio_descriptor are outside this instance, which
    reports their types as not known. *)

Module Signals.

Inductive Command :=
| Null
| Insert (cmd : SpliceInsert.SpliceInsert)
| Signal (cmd : TimeSignal.TimeSignal).

Inductive Descriptor :=
| Avail (sd : AvailDescriptor.AvailDescriptor)
| DTMF (sd : DTMFDescriptor.DTMFDescriptor)
| Segmentation (sd : SegDesc.SegmentationDescriptor)
| Time (sd : TimeDescriptor.TimeDescriptor)
| Private (sd : PrivateDescriptor.PrivateDescriptor).

Definition SpliceInsertType : Z := 0x05.

Definition commandType (cmd : Command) : Z :=
  match cmd with
  | Null => SpliceNull.SpliceNullType
  | Insert _ => SpliceInsertType
  | Signal _ => TimeSignal.TimeSignalType
  end.

Definition commandEncode (cmd : Command) : list byte * option error :=
  match cmd with
  | Null => SpliceNull.encode
  | Insert c => SpliceInsert.encode c
  | Signal c => TimeSignal.encode c
  end.

Definition commandLength (cmd : Command) : Z :=
  match cmd with
  | Null => 0
  | Insert c => SpliceInsert.length c
  | Signal c => TimeSignal.length c
  end.

Definition decodeSpliceCommand (spliceCommandType : Z) (b : list byte)
  : option (Command * option wrapped) :=
  if spliceCommandType =? SpliceNull.SpliceNullType then
    Some (Null, SpliceNull.decode b)
  else if spliceCommandType =? SpliceInsertType then
    let '(c, err) := SpliceInsert.decode SpliceInsert.zero b in Some (Insert c, err)
  else if spliceCommandType =? TimeSignal.TimeSignalType then
    let '(c, err) := TimeSignal.decode b in Some (Signal c, err)
  else None.

Definition unwrapped (err : option error) : option wrapped :=
  match err with
  | Some e => Some ([], e)
  | None => None
  end.

Definition descriptorEncode (sd : Descriptor) : option (list byte * option error) :=
  match sd with
  | Avail d => Some (AvailDescriptor.encode d)
  | DTMF d => Some (DTMFDescriptor.encode d)
  | Segmentation d => SegDesc.encode d
  | Time d => Some (TimeDescriptor.encode d)
  | Private d => Some (PrivateDescriptor.encode d)
  end.

Definition descriptorLength (sd : Descriptor) : option Z :=
  match sd with
  | Avail d => Some (AvailDescriptor.length d)
  | DTMF d => Some (DTMFDescriptor.length d)
  | Segmentation d => SegDesc.length d
  | Time d => Some (TimeDescriptor.length d)
  | Private d => Some (PrivateDescriptor.length d)
  end.

Definition decodeSpliceDescriptor (tag identifier : Z) (b : list byte)
  : option (Descriptor * option wrapped) :=
  if identifier =? CUEIdentifier then
    if tag =? AvailDescriptor.AvailDescriptorTag then
      let '(d, err) := AvailDescriptor.decode b in Some (Avail d, err)
    else if tag =? DTMFDescriptor.DTMFDescriptorTag then
      let '(d, err) := DTMFDescriptor.decode b in Some (DTMF d, err)
    else if tag =? SegmentationDescriptorTag then
      let '(d, err) := SegDesc.decode SegDesc.zero b in Some (Segmentation d, err)
    else if tag =? TimeDescriptor.TimeDescriptorTag then
      let '(d, err) := TimeDescriptor.decode b in Some (Time d, unwrapped err)
    else None
  else
    let '(d, err) := PrivateDescriptor.decode b in Some (Private d, err).

#[global] Instance command : SpliceCommand Command :=
  Build_SpliceCommand Command commandType commandEncode commandLength
    decodeSpliceCommand.

#[global] Instance descriptor : SpliceDescriptor Descriptor :=
  Build_SpliceDescriptor Descriptor descriptorEncode descriptorLength
    decodeSpliceDescriptor.


End Signals.

(** *** Vocabulary of the statements about a section on the wire *)

(** The [n] bits at bit offset [off] of a byte string, as the reader reads
    them with [Uint32] and with [Uint64], and the bit there. *)
Definition readUint32 (off n : nat) (b : list byte) : Z :=
  fst (iobit.Uint32 n (iobit.mkReader b off)).

Definition readUint64 (off n : nat) (b : list byte) : Z :=
  fst (iobit.Uint64 n (iobit.mkReader b off)).

Definition readBit (off : nat) (b : list byte) : bool :=
  fst (iobit.Bit (iobit.mkReader b off)).



Definition sectionLengthOf (b : list byte) : Z := readUint32 12 12 b.



















(** ** Concrete inputs used by the examples below *)

Definition pids_example : PIDs.t :=
  PIDs.addSCTE35PID
    (PIDs.addSCTE35PID (PIDs.addPCRPID (PIDs.addPMTPID PIDs.zero 256) 257) 258) 259.


(** The compressed EIDR of the test signal with a MID, and its canonical text. *)
Definition eidr_raw : list byte :=
  [x14; x77; x8b; xe5; xe3; xf6; x00; x00; x00; x00; x00; x00].

Definition eidr_text : list byte := str "10.5239/8BE5-E3F6-0000-0000-0000".

(** A cancelled descriptor that carries both sub-segment fields. *)
Definition sd_cancelled : SegDesc.SegmentationDescriptor :=
  SegDesc.mkSD None [] [] 1 true None 0x34 0 0 (Some 1) (Some 2).

(** The same descriptor without them. *)
Definition sd_cancelled_bare : SegDesc.SegmentationDescriptor :=
  SegDesc.mkSD None [] [] 1 true None 0x34 0 0 None None.

(** A Provider Placement Opportunity Start descriptor with both sub-segment
    bytes on the wire. *)
Definition sd_wire_subsegments : list byte :=
  fst (hex.DecodeString
         (str "0211435545490000000A7FBF00003401020304")).

(** A descriptor with one URI UPID whose value is 256 bytes long. *)
Definition upid_long : Upid.SegmentationUPID :=
  Upid.mkUPID 0x0F None (str "text") (repeat "a"%byte 256).

Definition sd_long : SegDesc.SegmentationDescriptor :=
  SegDesc.mkSD None [upid_long] [] 1 false None 0x10 0 0 None None.

(** A TI UPID read from a four-byte value, and a descriptor that holds it. *)
Definition upid_ti_short : Upid.SegmentationUPID :=
  Upid.NewSegmentationUPID SegmentationUPIDTypeTI [x2c; xa0; xa1; x8a].

Definition sd_ti_short : SegDesc.SegmentationDescriptor :=
  SegDesc.mkSD None [upid_ti_short] [] 1 false None 0x35 0 0 None None.

(** A 188-byte transport packet with the payload-unit-start flag, no
    adaptation field, the given PID and payload, padded with 0xFF. *)
Definition ts_packet (pid : Z) (payload : list byte) : list byte :=
  take 188 ([x47; byte_of_Z (0x40 + pid / 256); byte_of_Z pid; x10]
              ++ payload ++ repeat xff 188).

(** A PAT: program 1 is described on PID 0x100. *)
Definition pat_packet : list byte :=
  ts_packet 0 (fst (hex.DecodeString (str "0000B00D0001C100000001E10000000000"))).

(** A PMT for program 1, PCR on PID 0x101, one stream of type 0x86 on the
    given elementary PID. *)
Definition pmt_packet (elpid : Z) : list byte :=
  ts_packet 0x100
    ([x00; x02; xb0; x12; x00; x01; xc1; x00; x00; xe1; x01; xf0; x00;
      x86; byte_of_Z (0xE0 + elpid / 256); byte_of_Z elpid; xf0; x00;
      x00; x00; x00; x00]).

(** The splice_null heartbeat of the test suite as a section. *)
Definition heartbeat : list byte :=
  fst (hex.DecodeString (str "FC301100000000000000FFF0000000007A4FBFFF")).

Definition scte35_packet (pid : Z) : list byte := ts_packet pid (x00 :: heartbeat).

(** A stream of four packets: PAT, PMT announcing a SCTE-35 stream on PID
    0x102, and the same SCTE-35 packet twice. *)
Definition repeated_section_stream : list (list byte) :=
  [pat_packet; pmt_packet 0x102; scte35_packet 0x102; scte35_packet 0x102].

(** The payload of that SCTE-35 packet from the start of the section: the
    section and the stuffing of the packet. *)
Definition heartbeat_payload : list byte := drop 5 (scte35_packet 0x102).

(** ** Signals of the test suite *)








(** *** Vocabulary of the statements about the demultiplexer *)

(** Every PID held as a SCTE-35 PID has a program in the PID-to-program
    table. *)
Definition announced (st : Stream.t) : Prop :=
  forall pid, PIDs.isSCTE35PID (Stream.pids st) pid = true ->
    is_Some (Stream.pidToProgram st !! pid).

(** What was printed from [st] to [st'], when [st'] continues [st]. *)
Definition printedSince (st st' : Stream.t) : list Stream.Output :=
  drop (length (Stream.printed st)) (Stream.printed st').

(** [st'] continues [st] within one packet: the packet counter stands, the
    PID collections are still states of [PIDs], announced PIDs stay
    announced, and what was printed is kept, the new records carrying the
    number of the packet. *)
Definition continues (st st' : Stream.t) : Prop :=
  Stream.pktNum st' = Stream.pktNum st
  /\ (PIDs.reachable (Stream.pids st) -> PIDs.reachable (Stream.pids st'))
  /\ (announced st -> announced st')
  /\ Stream.printed st `prefix_of` Stream.printed st'
  /\ Forall (fun o => Stream.PacketNumber o = Stream.pktNum st) (printedSince st st').

(** The PID in the header of a packet. *)
Definition packetPID (pkt : list byte) : Z :=
  Stream.parsePID (default 0 (Stream.at_ pkt 1)) (default 0 (Stream.at_ pkt 2)).

(** The stream that has counted [n] packets and learned nothing. *)
Definition idle (n : Z) : Stream.t :=
  Stream.mkStream n [] ∅ ∅ ∅ ∅ ∅ PIDs.zero [].

(** *** Vocabulary of the statements about decoding *)

(** The bits a reader has not read yet. *)
Definition remaining (r : iobit.Reader) : list bool :=
  drop (iobit.idx r) (bits_of_bytes (iobit.src r)).

(** The reader is within its buffer and has exactly the bits [l] left. *)
Definition leftToRead (r : iobit.Reader) (l : list bool) : Prop :=
  (iobit.idx r <= iobit.size r)%nat /\ remaining r = l.

(** The reader [r'] is the reader [r] moved on, over the same bytes. *)
Definition movedOn (r r' : iobit.Reader) : Prop :=
  iobit.src r' = iobit.src r /\ (iobit.idx r <= iobit.idx r')%nat.

(** *** Vocabulary of the statements about splice_insert on the wire *)

(** time_specified_flag and what follows it. *)
Definition timeBits (pts : option Z) : list bool :=
  match pts with
  | Some p => [true] ++ bits_of_Z 6 Reserved ++ bits_of_Z 33 p
  | None => [false] ++ bits_of_Z 7 Reserved
  end.

(** The time of a component, or of the program. *)
Definition timeOf (t : option SpliceInsert.SpliceTime) : option Z :=
  match t with
  | Some (SpliceInsert.mkSpliceTime (Some p)) => Some p
  | _ => None
  end.

Definition componentBits (immediate : bool) (c : SpliceInsert.SpliceInsertComponent)
  : list bool :=
  bits_of_Z 8 (SpliceInsert.Tag c)
    ++ (if immediate then [] else timeBits (timeOf (SpliceInsert.SpliceTime' c))).

(** What follows the cancel indicator and its reserved bits in a
    splice_insert that is not cancelled. *)
Definition spliceBits (cmd : SpliceInsert.SpliceInsert) : list bool :=
  [SpliceInsert.OutOfNetworkIndicator cmd; SpliceInsert.programSpliceFlag cmd;
   SpliceInsert.durationFlag cmd; SpliceInsert.SpliceImmediateFlag cmd]
    ++ bits_of_Z 4 Reserved
    ++ (if SpliceInsert.programSpliceFlag cmd && negb (SpliceInsert.SpliceImmediateFlag cmd)
        then timeBits (timeOf (SpliceInsert.Program cmd)) else [])
    ++ (if SpliceInsert.programSpliceFlag cmd then []
        else bits_of_Z 8 (uint32 (Z.of_nat (length (SpliceInsert.Components cmd))))
               ++ flat_map (componentBits (SpliceInsert.SpliceImmediateFlag cmd))
                    (SpliceInsert.Components cmd))
    ++ match SpliceInsert.BreakDuration' cmd with
       | Some bd =>
           [SpliceInsert.AutoReturn bd] ++ bits_of_Z 6 Reserved
             ++ bits_of_Z 33 (SpliceInsert.Duration bd)
       | None => []
       end
    ++ bits_of_Z 16 (SpliceInsert.UniqueProgramID cmd)
    ++ bits_of_Z 8 (SpliceInsert.AvailNum cmd)
    ++ bits_of_Z 8 (SpliceInsert.AvailsExpected cmd).

(** The bits of a splice_insert as [encode] writes them. *)
Definition spliceInsertBits (cmd : SpliceInsert.SpliceInsert) : list bool :=
  bits_of_Z 32 (SpliceInsert.SpliceEventID cmd)
    ++ [SpliceInsert.SpliceEventCancelIndicator cmd] ++ bits_of_Z 7 Reserved
    ++ (if SpliceInsert.SpliceEventCancelIndicator cmd then [] else spliceBits cmd).

(** A component that [decode] can give: a tag of eight bits and either no
    splice time or one with a time of 33 bits, the latter only when the
    command is not immediate. *)
Definition componentDecodable (immediate : bool) (c : SpliceInsert.SpliceInsertComponent)
  : Prop :=
  0 <= SpliceInsert.Tag c < 2 ^ 8
  /\ match SpliceInsert.SpliceTime' c with
     | None => True
     | Some (SpliceInsert.mkSpliceTime (Some p)) => immediate = false /\ 0 <= p < 2 ^ 33
     | Some (SpliceInsert.mkSpliceTime None) => False
     end.

(** A splice_insert that [decode] can give: not cancelled, every number
    within the width of its field, either a program (without components, and
    without a time when the command is immediate) or fewer than 256
    components. *)
Definition spliceInsertDecodable (cmd : SpliceInsert.SpliceInsert) : Prop :=
  SpliceInsert.SpliceEventCancelIndicator cmd = false
  /\ 0 <= SpliceInsert.SpliceEventID cmd < 2 ^ 32
  /\ 0 <= SpliceInsert.UniqueProgramID cmd < 2 ^ 16
  /\ 0 <= SpliceInsert.AvailNum cmd < 2 ^ 8
  /\ 0 <= SpliceInsert.AvailsExpected cmd < 2 ^ 8
  /\ match SpliceInsert.Program cmd with
     | Some (SpliceInsert.mkSpliceTime pts) =>
         SpliceInsert.Components cmd = []
         /\ match pts with
            | Some p => SpliceInsert.SpliceImmediateFlag cmd = false /\ 0 <= p < 2 ^ 33
            | None => True
            end
     | None =>
         (length (SpliceInsert.Components cmd) < 256)%nat
         /\ Forall (componentDecodable (SpliceInsert.SpliceImmediateFlag cmd))
              (SpliceInsert.Components cmd)
     end
  /\ match SpliceInsert.BreakDuration' cmd with
     | Some bd => 0 <= SpliceInsert.Duration bd < 2 ^ 33
     | None => True
     end.

(** ** audio_descriptor ([audio_descriptor.go]) *)

Module AudioDescriptor.

(** [type AudioChannel struct] *)
Record AudioChannel := mkAudioChannel {
  ComponentTag : Z;
  ISOCode : list byte;
  BitStreamMode : Z;
  NumChannels : Z;
  FullSrvcAudio : bool
}.

(** [type AudioDescriptor struct] *)
Record AudioDescriptor := mkAudioDescriptor {
  AudioChannels : list AudioChannel
}.

(** The loop of [decode] over [audioCount] channels; [String(3)] takes the
    next three bytes. *)
Fixpoint decodeChannels (audioCount : nat) (r : iobit.Reader)
  : list AudioChannel * iobit.Reader :=
  match audioCount with
  | O => ([], r)
  | S k =>
      let '(componentTag, r) := iobit.Uint32 8 r in
      let '(isoCode, r) := iobit.Bytes 3 r in
      let '(bitStreamMode, r) := iobit.Uint32 3 r in
      let '(numChannels, r) := iobit.Uint32 4 r in
      let '(fullSrvcAudio, r) := iobit.Bit r in
      let '(rest, r) := decodeChannels k r in
      (mkAudioChannel componentTag isoCode bitStreamMode numChannels fullSrvcAudio
         :: rest, r)
  end.

(** [decode] updates this descriptor from binary. *)
Definition decode (b : list byte) : AudioDescriptor * option wrapped :=
  let r := iobit.NewReader b in
  let r := iobit.Skip 8 r in
  let r := iobit.Skip 8 r in
  let r := iobit.Skip 32 r in
  let '(audioCount, r) := iobit.Uint32 4 r in
  let r := iobit.Skip 4 r in
  let '(channels, r) := decodeChannels (Z.to_nat audioCount) r in
  let sd := mkAudioDescriptor channels in
  match readerError r with
  | Some err => (sd, Some (str "audio_descriptor", err))
  | None => (sd, None)
  end.

End AudioDescriptor.

(** The audio_count of an audio descriptor on the wire: the high four bits
    of its seventh byte (nothing when the descriptor is shorter). *)
Definition audioCountOf (b : list byte) : Z :=
  match b !! 6%nat with
  | Some c => Z_of_byte c / 16
  | None => 0
  end.

(** ** [ASCIIValue] ([segmentation_upid.go]) *)

(** [ASCIIValue] : the value bytes, each byte that is not valid UTF-8 on its
    own replaced by a dot; [None] when [valueBytes] panics. *)
Definition ASCIIValue (upid : Upid.SegmentationUPID) : option (list byte) :=
  vb ← Upid.valueBytes upid;
  Some (flat_map (fun b => if utf8.Valid [b] then [b] else str ".") vb).

(** * Properties *)

(** ** PID collections *)

Lemma isIn16_spec (l : list Z) (v : Z) : PIDs.isIn16 l v = true <-> v ∈ l.
Proof.
  induction l as [|a l IH]; simpl.
  - split; [discriminate | intros H; inversion H].
  - destruct (Z.eqb_spec a v) as [->|Hne].
    + split; [intros _; left | reflexivity].
    + rewrite IH. split; [intros H; by right | intros H].
      inversion H; subst; [congruence | done].
Qed.

Lemma isIn16_false (l : list Z) (v : Z) : PIDs.isIn16 l v = false <-> v ∉ l.
Proof.
  rewrite <- isIn16_spec. destruct (PIDs.isIn16 l v); split; congruence.
Qed.

Lemma NoDup_snoc_fresh (l : list Z) (v : Z) : NoDup l -> v ∉ l -> NoDup (l ++ [v]).
Proof.
  intros Hl Hv. apply NoDup_app. split; [done|]. split.
  - intros x Hx Hx'. apply list_elem_of_singleton in Hx'. by subst.
  - apply NoDup_singleton.
Qed.

(** Loop invariant of [delSCTE35PID]: the first [n] cells hold the kept
    elements of the prefix already visited, the cells from [i] on are intact. *)
Lemma delLoop_filter (pid : Z) (l : list Z) :
  forall k i arr n,
    (i + k = length l)%nat ->
    length arr = length l ->
    (n <= i)%nat ->
    take n arr = filter (fun v => v ≠ pid) (take i l) ->
    drop i arr = drop i l ->
    let '(arr', n') := PIDs.delLoop pid k i arr n in
    take n' arr' = filter (fun v => v ≠ pid) l.
Proof.
  induction k as [|k IH]; intros i arr n Hik Hlen Hni Htake Hdrop; simpl.
  - rewrite Htake. rewrite take_ge by lia. done.
  - assert (Hi : (i < length l)%nat) by lia.
    destruct (lookup_lt_is_Some_2 l i Hi) as [val Hval].
    assert (Harr : arr !! i = Some val).
    { rewrite <- (Nat.add_0_r i) at 1. rewrite <- lookup_drop, Hdrop, lookup_drop.
      by rewrite Nat.add_0_r. }
    rewrite Harr.
    destruct (Z.eqb_spec val pid) as [->|Hne]; simpl.
    + apply IH; try lia; try done.
      * rewrite (take_S_r l i pid Hval), filter_app, Htake.
        rewrite filter_cons_False by (intros H; by apply H).
        by rewrite filter_nil, app_nil_r.
      * rewrite (drop_S arr pid i Harr) in Hdrop.
        rewrite (drop_S l pid i Hval) in Hdrop. congruence.
    + apply IH; try lia.
      * by rewrite length_insert.
      * rewrite (take_S_r l i val Hval), filter_app, <- Htake.
        rewrite filter_cons_True by done. rewrite filter_nil.
        assert (Hn : (n < length arr)%nat) by lia.
        rewrite (take_S_r (<[n:=val]> arr) n val).
        -- by rewrite take_insert_ge by lia.
        -- by apply list_lookup_insert_eq.
      * rewrite drop_insert_lt by lia.
        rewrite (drop_S arr val i Harr) in Hdrop.
        rewrite (drop_S l val i Hval) in Hdrop. congruence.
Qed.

Lemma delSCTE35PID_filter (p : PIDs.t) (pid : Z) :
  PIDs.SCTE35PIDs (PIDs.delSCTE35PID p pid)
  = filter (fun v => v ≠ pid) (PIDs.SCTE35PIDs p).
Proof.
  unfold PIDs.delSCTE35PID.
  pose proof (delLoop_filter pid (PIDs.SCTE35PIDs p)
                (length (PIDs.SCTE35PIDs p)) 0%nat (PIDs.SCTE35PIDs p) 0%nat) as H.
  destruct (PIDs.delLoop pid _ 0 _ 0) as [arr n]. simpl.
  apply H; try done; lia.
Qed.

Lemma delSCTE35PID_others (p : PIDs.t) (pid : Z) :
  PIDs.PMTPIDs (PIDs.delSCTE35PID p pid) = PIDs.PMTPIDs p
  /\ PIDs.PCRPIDs (PIDs.delSCTE35PID p pid) = PIDs.PCRPIDs p.
Proof.
  unfold PIDs.delSCTE35PID.
  by destruct (PIDs.delLoop pid _ 0 _ 0) as [arr n].
Qed.

Lemma reachable_NoDup (p : PIDs.t) :
  PIDs.reachable p ->
  NoDup (PIDs.PMTPIDs p) /\ NoDup (PIDs.PCRPIDs p) /\ NoDup (PIDs.SCTE35PIDs p).
Proof.
  induction 1 as [|p pid _ (H1 & H2 & H3)|p pid _ (H1 & H2 & H3)
                  |p pid _ (H1 & H2 & H3)|p pid _ (H1 & H2 & H3)].
  - repeat split; apply NoDup_nil_2.
  - unfold PIDs.addPMTPID, PIDs.isPMTPID.
    destruct (PIDs.isIn16 (PIDs.PMTPIDs p) pid) eqn:E; simpl; [done|].
    repeat split; try done. apply NoDup_snoc_fresh; [done|]. by apply isIn16_false.
  - unfold PIDs.addPCRPID, PIDs.isPCRPID.
    destruct (PIDs.isIn16 (PIDs.PCRPIDs p) pid) eqn:E; simpl; [done|].
    repeat split; try done. apply NoDup_snoc_fresh; [done|]. by apply isIn16_false.
  - unfold PIDs.addSCTE35PID, PIDs.isSCTE35PID.
    destruct (PIDs.isIn16 (PIDs.SCTE35PIDs p) pid) eqn:E; simpl; [done|].
    repeat split; try done. apply NoDup_snoc_fresh; [done|]. by apply isIn16_false.
  - destruct (delSCTE35PID_others p pid) as [-> ->].
    rewrite delSCTE35PID_filter. repeat split; try done. by apply NoDup_filter.
Qed.

Lemma isIn16_snoc_self (l : list Z) (v : Z) : PIDs.isIn16 (l ++ [v]) v = true.
Proof. apply isIn16_spec, elem_of_app. right. by apply list_elem_of_singleton. Qed.

(** C10. The PID collections of the demultiplexer never hold a PID twice:
    in every state reached through the methods of [PIDs] the three slices are
    duplicate-free; each add appends the PID exactly when it is not yet a
    member and is idempotent; [delSCTE35PID] leaves exactly the other PIDs,
    in their original relative order (it is the order-preserving filter). *)
Theorem C10_pid_collections_no_duplicates (p : PIDs.t) (pid : Z)
  (Hreach : PIDs.reachable p) :
  (NoDup (PIDs.PMTPIDs p) /\ NoDup (PIDs.PCRPIDs p) /\ NoDup (PIDs.SCTE35PIDs p))
  /\ (PIDs.addPMTPID p pid =
        if PIDs.isIn16 (PIDs.PMTPIDs p) pid then p
        else PIDs.mk (PIDs.PMTPIDs p ++ [pid]) (PIDs.PCRPIDs p) (PIDs.SCTE35PIDs p))
  /\ (PIDs.addPCRPID p pid =
        if PIDs.isIn16 (PIDs.PCRPIDs p) pid then p
        else PIDs.mk (PIDs.PMTPIDs p) (PIDs.PCRPIDs p ++ [pid]) (PIDs.SCTE35PIDs p))
  /\ (PIDs.addSCTE35PID p pid =
        if PIDs.isIn16 (PIDs.SCTE35PIDs p) pid then p
        else PIDs.mk (PIDs.PMTPIDs p) (PIDs.PCRPIDs p) (PIDs.SCTE35PIDs p ++ [pid]))
  /\ PIDs.addPMTPID (PIDs.addPMTPID p pid) pid = PIDs.addPMTPID p pid
  /\ PIDs.addPCRPID (PIDs.addPCRPID p pid) pid = PIDs.addPCRPID p pid
  /\ PIDs.addSCTE35PID (PIDs.addSCTE35PID p pid) pid = PIDs.addSCTE35PID p pid
  /\ PIDs.SCTE35PIDs (PIDs.delSCTE35PID p pid)
     = filter (fun v => v ≠ pid) (PIDs.SCTE35PIDs p)
  /\ (pid ∉ PIDs.SCTE35PIDs (PIDs.delSCTE35PID p pid))
  /\ PIDs.PMTPIDs (PIDs.delSCTE35PID p pid) = PIDs.PMTPIDs p
  /\ PIDs.PCRPIDs (PIDs.delSCTE35PID p pid) = PIDs.PCRPIDs p
  /\ (NoDup (PIDs.SCTE35PIDs (PIDs.delSCTE35PID p pid))).
Proof.
  pose proof (reachable_NoDup p Hreach) as (N1 & N2 & N3).
  split; [done|].
  unfold PIDs.addPMTPID, PIDs.addPCRPID, PIDs.addSCTE35PID,
    PIDs.isPMTPID, PIDs.isPCRPID, PIDs.isSCTE35PID.
  repeat split.
  - by destruct (PIDs.isIn16 (PIDs.PMTPIDs p) pid).
  - by destruct (PIDs.isIn16 (PIDs.PCRPIDs p) pid).
  - by destruct (PIDs.isIn16 (PIDs.SCTE35PIDs p) pid).
  - destruct (PIDs.isIn16 (PIDs.PMTPIDs p) pid) eqn:E; simpl.
    + by rewrite E.
    + by rewrite isIn16_snoc_self.
  - destruct (PIDs.isIn16 (PIDs.PCRPIDs p) pid) eqn:E; simpl.
    + by rewrite E.
    + by rewrite isIn16_snoc_self.
  - destruct (PIDs.isIn16 (PIDs.SCTE35PIDs p) pid) eqn:E; simpl.
    + by rewrite E.
    + by rewrite isIn16_snoc_self.
  - apply delSCTE35PID_filter.
  - rewrite delSCTE35PID_filter. intros H%list_elem_of_filter. by destruct H.
  - apply delSCTE35PID_others.
  - apply delSCTE35PID_others.
  - rewrite delSCTE35PID_filter. by apply NoDup_filter.
Qed.

Lemma C10_pid_collections_witness :
  PIDs.reachable pids_example
  /\ PIDs.SCTE35PIDs (PIDs.delSCTE35PID pids_example 258) = [259].
Proof.
  assert (Hr : PIDs.reachable pids_example) by (repeat constructor).
  split; [exact Hr|].
  pose proof (C10_pid_collections_no_duplicates pids_example 258 Hr) as H.
  destruct H as (_ & _ & _ & _ & _ & _ & _ & Hdel & _).
  rewrite Hdel. reflexivity.
Defined.

(** ** Bits and bytes *)

Lemma bits_of_Z_length (n : nat) (v : Z) : length (bits_of_Z n v) = n.
Proof. induction n as [|n IH]; simpl; [done | by rewrite IH]. Qed.

Lemma Z_of_byte_range (b : byte) : 0 <= Z_of_byte b < 256.
Proof. unfold Z_of_byte. pose proof (Byte.to_N_bounded b). lia. Qed.

Lemma byte_of_Z_of_byte (b : byte) : byte_of_Z (Z_of_byte b) = b.
Proof.
  unfold byte_of_Z. rewrite Z.mod_small by apply Z_of_byte_range.
  unfold Z_of_byte. rewrite N2Z.id, Byte.of_to_N. done.
Qed.

Lemma Z_of_byte_of_Z (z : Z) : Z_of_byte (byte_of_Z z) = z mod 256.
Proof.
  unfold byte_of_Z, Z_of_byte.
  assert (H : 0 <= z mod 256 < 256) by (apply Z.mod_pos_bound; lia).
  destruct (Byte.of_N (Z.to_N (z mod 256))) as [b|] eqn:E.
  - apply Byte.to_of_N in E. rewrite E. lia.
  - apply Byte.of_N_None_iff in E. lia.
Qed.

(** Splits a list whose length is known to start with eight cells. *)
Ltac eight_cells bs H :=
  destruct bs as [|?b7 [|?b6 [|?b5 [|?b4 [|?b3 [|?b2 [|?b1 [|?b0 bs]]]]]]]];
  simpl in H; try lia.

Lemma bytes_of_bits_length (k : nat) :
  forall bs, length bs = (8 * k)%nat -> length (bytes_of_bits bs) = k.
Proof.
  induction k as [|k IH]; intros bs H.
  - destruct bs; [done | simpl in H; lia].
  - eight_cells bs H. simpl. f_equal. apply IH. lia.
Qed.

Lemma bytes_of_bits_app (k : nat) :
  forall a b, length a = (8 * k)%nat ->
    bytes_of_bits (a ++ b) = bytes_of_bits a ++ bytes_of_bits b.
Proof.
  induction k as [|k IH]; intros a b H.
  - destruct a; [done | simpl in H; lia].
  - eight_cells a H. simpl. f_equal. apply IH. lia.
Qed.

Lemma Z_of_bits_snoc (bs : list bool) (b : bool) :
  Z_of_bits (bs ++ [b]) = 2 * Z_of_bits bs + Z.b2z b.
Proof. unfold Z_of_bits. by rewrite fold_left_app. Qed.

Lemma Z_of_bits_fold (bs : list bool) (acc : Z) :
  fold_left (fun acc b => 2 * acc + Z.b2z b) bs acc
  = acc * 2 ^ Z.of_nat (length bs) + Z_of_bits bs.
Proof.
  revert acc. induction bs as [|b bs IH]; intros acc.
  - simpl. unfold Z_of_bits. simpl. lia.
  - unfold Z_of_bits. simpl fold_left. rewrite IH, (IH (2 * 0 + Z.b2z b)).
    rewrite length_cons, Nat2Z.inj_succ, Z.pow_succ_r by lia. lia.
Qed.

Lemma Z_of_bits_cons (b : bool) (bs : list bool) :
  Z_of_bits (b :: bs) = Z.b2z b * 2 ^ Z.of_nat (length bs) + Z_of_bits bs.
Proof.
  unfold Z_of_bits at 1. simpl fold_left. rewrite Z_of_bits_fold. lia.
Qed.

Lemma Z_of_bits_app (a b : list bool) :
  Z_of_bits (a ++ b) = Z_of_bits a * 2 ^ Z.of_nat (length b) + Z_of_bits b.
Proof.
  unfold Z_of_bits at 1. rewrite fold_left_app.
  fold (Z_of_bits a). apply Z_of_bits_fold.
Qed.

Lemma Z_of_bits_range (bs : list bool) : 0 <= Z_of_bits bs < 2 ^ Z.of_nat (length bs).
Proof.
  induction bs as [|b bs IH].
  - unfold Z_of_bits. simpl. lia.
  - rewrite Z_of_bits_cons, length_cons, Nat2Z.inj_succ, Z.pow_succ_r by lia.
    destruct b; simpl Z.b2z; lia.
Qed.

Lemma Z_of_bits_of_Z (n : nat) (v : Z) : Z_of_bits (bits_of_Z n v) = v mod 2 ^ Z.of_nat n.
Proof.
  induction n as [|n IH].
  - unfold Z_of_bits. simpl. by rewrite Z.mod_1_r.
  - simpl bits_of_Z. rewrite Z_of_bits_cons, IH, bits_of_Z_length.
    rewrite Nat2Z.inj_succ.
    rewrite <- (Z.land_ones v (Z.succ (Z.of_nat n))) by lia.
    rewrite <- (Z.land_ones v (Z.of_nat n)) by lia.
    apply Z.bits_inj'. intros i Hi.
    rewrite Z.land_spec.
    destruct (Z.testbit v (Z.of_nat n)) eqn:E; simpl Z.b2z.
    + rewrite Z.mul_1_l.
      rewrite Z.add_nocarry_lxor.
      * rewrite Z.lxor_spec, Z.pow2_bits_eqb, Z.land_spec by lia.
        destruct (Z.eqb_spec (Z.of_nat n) i) as [<-|Hne].
        -- rewrite E, Z.ones_spec_high, Z.ones_spec_low by lia. done.
        -- destruct (Z.lt_ge_cases i (Z.of_nat n)).
           ++ rewrite !Z.ones_spec_low by lia. simpl. done.
           ++ rewrite !Z.ones_spec_high by lia. by rewrite andb_false_r.
      * apply Z.bits_inj'. intros j Hj.
        rewrite Z.land_spec, Z.pow2_bits_eqb, Z.land_spec, Z.bits_0 by lia.
        destruct (Z.eqb_spec (Z.of_nat n) j) as [<-|Hne]; [|done].
        rewrite Z.ones_spec_high by lia. by rewrite andb_false_r.
    + rewrite Z.mul_0_l, Z.add_0_l, Z.land_spec.
      destruct (Z.eqb_spec (Z.of_nat n) i) as [<-|Hne].
      * rewrite E. done.
      * destruct (Z.lt_ge_cases i (Z.of_nat n)).
        -- rewrite !Z.ones_spec_low by lia. done.
        -- rewrite !Z.ones_spec_high by lia. done.
Qed.

Lemma bits_of_Z_mod (n : nat) (v : Z) : bits_of_Z n (v mod 2 ^ Z.of_nat n) = bits_of_Z n v.
Proof.
  assert (H : forall k, (k <= n)%nat ->
            bits_of_Z k (v mod 2 ^ Z.of_nat n) = bits_of_Z k v).
  { induction k as [|k IH]; intros Hk; simpl; [done|].
    rewrite IH by lia. f_equal. apply Z.mod_pow2_bits_low. lia. }
  by apply H.
Qed.

Lemma bits_of_Z_of_bits (bs : list bool) : bits_of_Z (length bs) (Z_of_bits bs) = bs.
Proof.
  induction bs as [|b bs IH]; [done|].
  simpl bits_of_Z. rewrite Z_of_bits_cons.
  pose proof (Z_of_bits_range bs) as Hr.
  f_equal.
  - destruct b; simpl Z.b2z.
    + apply Z.testbit_true; [lia|].
      rewrite Z.add_comm, Z.div_add, Z.div_small by lia. done.
    + apply Z.testbit_false; [lia|].
      rewrite Z.mul_0_l, Z.add_0_l, Z.div_small by lia. done.
  - rewrite <- bits_of_Z_mod.
    replace ((Z.b2z b * 2 ^ Z.of_nat (length bs) + Z_of_bits bs)
               mod 2 ^ Z.of_nat (length bs)) with (Z_of_bits bs); [exact IH|].
    rewrite Z.add_comm, Z.mod_add by lia. symmetry. apply Z.mod_small. lia.
Qed.

Lemma bits_of_byte_length (b : byte) : length (bits_of_byte b) = 8%nat.
Proof. apply bits_of_Z_length. Qed.

Lemma bits_of_bytes_length (l : list byte) : length (bits_of_bytes l) = (8 * length l)%nat.
Proof.
  induction l as [|b l IH]; [done|].
  change (bits_of_bytes (b :: l)) with (bits_of_byte b ++ bits_of_bytes l).
  rewrite length_app, IH, bits_of_byte_length. simpl length. lia.
Qed.

Lemma bits_of_bytes_app (a b : list byte) :
  bits_of_bytes (a ++ b) = bits_of_bytes a ++ bits_of_bytes b.
Proof. unfold bits_of_bytes. apply flat_map_app. Qed.

Lemma byte_of_bits_of_byte (b : byte) : byte_of_Z (Z_of_bits (bits_of_byte b)) = b.
Proof.
  unfold bits_of_byte. rewrite Z_of_bits_of_Z.
  change (2 ^ Z.of_nat 8) with 256.
  rewrite Z.mod_small by apply Z_of_byte_range. apply byte_of_Z_of_byte.
Qed.

Lemma bytes_of_bits_of_bytes (l : list byte) : bytes_of_bits (bits_of_bytes l) = l.
Proof.
  induction l as [|b l IH]; [done|].
  change (bits_of_bytes (b :: l)) with (bits_of_byte b ++ bits_of_bytes l).
  rewrite (bytes_of_bits_app 1) by apply bits_of_byte_length.
  rewrite IH. f_equal.
  pose proof (byte_of_bits_of_byte b) as Hb.
  pose proof (bits_of_byte_length b) as Hl.
  destruct (bits_of_byte b) as [|b7 [|b6 [|b5 [|b4 [|b3 [|b2 [|b1 [|b0 [|]]]]]]]]];
    simpl in Hl; try lia.
  simpl. by rewrite Hb.
Qed.

Lemma bits_of_bytes_of_bits (k : nat) :
  forall bs, length bs = (8 * k)%nat -> bits_of_bytes (bytes_of_bits bs) = bs.
Proof.
  induction k as [|k IH]; intros bs H.
  - destruct bs; [done | simpl in H; lia].
  - eight_cells bs H.
    change (bytes_of_bits (b7 :: b6 :: b5 :: b4 :: b3 :: b2 :: b1 :: b0 :: bs))
      with (byte_of_Z (Z_of_bits [b7; b6; b5; b4; b3; b2; b1; b0]) :: bytes_of_bits bs).
    change (bits_of_bytes (?x :: ?l)) with (bits_of_byte x ++ bits_of_bytes l).
    rewrite IH by lia.
    unfold bits_of_byte. rewrite Z_of_byte_of_Z.
    change 256 with (2 ^ Z.of_nat 8). rewrite bits_of_Z_mod.
    change 8%nat with (length [b7; b6; b5; b4; b3; b2; b1; b0]).
    by rewrite bits_of_Z_of_bits.
Qed.

Lemma be_bytes_length (n : nat) (v : Z) : length (be_bytes n v) = n.
Proof. apply bytes_of_bits_length, bits_of_Z_length. Qed.

(** ** Decimal and hexadecimal text *)

Lemma digit_isDigit (d : Z) : 0 <= d < 10 ->
  strconv.isDigit (strconv.digit d) = true /\ Z_of_byte (strconv.digit d) - 48 = d.
Proof.
  intros H. unfold strconv.isDigit, strconv.digit.
  rewrite Z_of_byte_of_Z, Z.mod_small by lia. split; lia.
Qed.

(** The digits written by [formatAux] read back as the number, and they are
    put in front of what was accumulated. *)
Lemma formatAux_digits (fuel : nat) :
  forall n acc, 0 <= n < 10 ^ Z.of_nat fuel -> (0 < fuel)%nat ->
    exists ds, strconv.formatAux fuel n acc = ds ++ acc
      /\ ds <> []
      /\ Forall (fun c => strconv.isDigit c = true) ds
      /\ forall a rest, strconv.digits a (ds ++ rest)
                        = strconv.digits (a * 10 ^ Z.of_nat (length ds) + n) rest.
Proof.
  induction fuel as [|f IH]; intros n acc Hn Hf; [lia|].
  simpl strconv.formatAux.
  assert (Hd : 0 <= n mod 10 < 10) by (apply Z.mod_pos_bound; lia).
  destruct (digit_isDigit (n mod 10) Hd) as [Hd1 Hd2].
  destruct (Z.eqb_spec (n / 10) 0) as [Hz|Hnz].
  - exists [strconv.digit (n mod 10)]. repeat split; [done| |].
    + by constructor.
    + intros a rest. simpl. rewrite Hd1, Hd2.
      f_equal. pose proof (Z.div_mod n 10). lia.
  - assert (Hf' : (0 < f)%nat).
    { destruct f; [|lia]. simpl in Hn. rewrite Z.div_small in Hnz; lia. }
    assert (Hn' : 0 <= n / 10 < 10 ^ Z.of_nat f).
    { split; [apply Z.div_pos; lia|].
      apply Z.div_lt_upper_bound; [lia|].
      rewrite Nat2Z.inj_succ, Z.pow_succ_r in Hn; lia. }
    destruct (IH (n / 10) (strconv.digit (n mod 10) :: acc) Hn' Hf')
      as (ds & Heq & Hne & Hall & Hval).
    exists (ds ++ [strconv.digit (n mod 10)]). repeat split.
    + rewrite Heq, <- app_assoc. done.
    + destruct ds; done.
    + apply Forall_app. split; [done | by constructor].
    + intros a rest. rewrite <- app_assoc, Hval. simpl.
      rewrite Hd1, Hd2. f_equal.
      rewrite length_app, Nat2Z.inj_add, Z.pow_add_r by lia. simpl length.
      pose proof (Z.div_mod n 10). change (10 ^ Z.of_nat 1) with 10. lia.
Qed.

Lemma FormatUint_digits (n : Z) : 0 <= n < 2 ^ 64 ->
  strconv.FormatUint n <> []
  /\ Forall (fun c => strconv.isDigit c = true) (strconv.FormatUint n)
  /\ strconv.digits 0 (strconv.FormatUint n) = Some n.
Proof.
  intros Hn. unfold strconv.FormatUint.
  assert (H20 : 0 <= n < 10 ^ Z.of_nat 20) by (simpl; lia).
  destruct (formatAux_digits 20 n [] H20 ltac:(lia)) as (ds & Heq & Hne & Hall & Hval).
  rewrite Heq, app_nil_r. split; [done|]. split; [done|].
  rewrite <- (app_nil_r ds), Hval. simpl. f_equal; lia.
Qed.

Lemma isDigit_not_sign (c : byte) : strconv.isDigit c = true ->
  Byte.eqb c "-"%byte = false /\ Byte.eqb c "+"%byte = false.
Proof. destruct c; vm_compute; intros; done. Qed.

(** [Atoi] reads back what [FormatUint] (the verb [%d]) prints. *)
Lemma Atoi_FormatUint (n : Z) : 0 <= n < 2 ^ 63 ->
  strconv.Atoi (strconv.FormatUint n) = Some n.
Proof.
  intros Hn. destruct (FormatUint_digits n) as (Hne & Hall & Hval); [lia|].
  unfold strconv.Atoi.
  destruct (strconv.FormatUint n) as [|c rest] eqn:E; [done|].
  apply Forall_cons in Hall as [Hc _].
  destruct (isDigit_not_sign c Hc) as [-> ->].
  unfold strconv.unsigned. rewrite Hval.
  destruct (Z.ltb_spec n (2 ^ 63)); [done | lia].
Qed.

Lemma hex_pair_decode (b : byte) :
  hex.fromHexChar (hex.upper (Z_of_byte b / 16)) = Some (Z_of_byte b / 16)
  /\ hex.fromHexChar (hex.upper (Z_of_byte b mod 16)) = Some (Z_of_byte b mod 16)
  /\ byte_of_Z (16 * (Z_of_byte b / 16) + Z_of_byte b mod 16) = b.
Proof. destruct b; vm_compute; done. Qed.

Lemma hex_DecodeString_EncodeUpper (l : list byte) :
  hex.DecodeString (hex.EncodeUpper l) = (l, true).
Proof.
  induction l as [|b l IH]; [done|].
  change (hex.EncodeUpper (b :: l))
    with (hex.upper (Z_of_byte b / 16) :: hex.upper (Z_of_byte b mod 16)
            :: hex.EncodeUpper l).
  destruct (hex_pair_decode b) as (H1 & H2 & H3).
  simpl hex.DecodeString. rewrite H1, H2, IH, H3. done.
Qed.

Lemma hex_upper_plain (b : byte) :
  plainChar (hex.upper (Z_of_byte b / 16))
  /\ plainChar (hex.upper (Z_of_byte b mod 16)).
Proof. destruct b; vm_compute; done. Qed.

Lemma EncodeUpper_plain (l : list byte) : Forall plainChar (hex.EncodeUpper l).
Proof.
  induction l as [|b l IH]; [constructor|].
  destruct (hex_upper_plain b) as [H1 H2].
  change (hex.EncodeUpper (b :: l))
    with (hex.upper (Z_of_byte b / 16) :: hex.upper (Z_of_byte b mod 16)
            :: hex.EncodeUpper l).
  constructor; [exact H1|]. constructor; [exact H2 | exact IH].
Qed.

Lemma EncodeUpper_app (a b : list byte) :
  hex.EncodeUpper (a ++ b) = hex.EncodeUpper a ++ hex.EncodeUpper b.
Proof. unfold hex.EncodeUpper. apply flat_map_app. Qed.

Lemma isDigit_plain (c : byte) : strconv.isDigit c = true -> plainChar c.
Proof. destruct c; vm_compute; intros; done. Qed.

(** ** Splitting into fields *)

Lemma fieldsFrom_run (f : byte -> bool) (s : list byte) :
  forall cur rest, Forall (fun c => f c = false) s ->
    strings.fieldsFrom f (s ++ rest) cur = strings.fieldsFrom f rest (cur ++ s).
Proof.
  induction s as [|c s IH]; intros cur rest Hs; simpl.
  - by rewrite app_nil_r.
  - apply Forall_cons in Hs as [Hc Hs]. rewrite Hc, IH by done.
    by rewrite <- app_assoc.
Qed.

Lemma RemoveAll_app (a b : list byte) (c : byte) :
  strings.RemoveAll (a ++ b) c = strings.RemoveAll a c ++ strings.RemoveAll b c.
Proof. unfold strings.RemoveAll. apply List.filter_app. Qed.

Lemma RemoveAll_plain (l : list byte) :
  Forall plainChar l -> strings.RemoveAll l "-"%byte = l.
Proof.
  induction 1 as [|c l (_ & Hc & _) _ IH]; [done|].
  unfold strings.RemoveAll in *. simpl. rewrite Hc. simpl. by rewrite IH.
Qed.

(** ** EIDR: canonical text and its compression *)

Lemma fields_canonical (D G : list byte) :
  D <> [] -> G <> [] ->
  Forall (fun c => Upid.isSeparator c = false) D ->
  Forall (fun c => Upid.isSeparator c = false) G ->
  strings.FieldsFunc (str "10." ++ D ++ str "/" ++ G) Upid.isSeparator
  = [str "10"; D; G].
Proof.
  intros HD HG HDs HGs.
  unfold strings.FieldsFunc.
  change (str "10." ++ D ++ str "/" ++ G)
    with ("1"%byte :: "0"%byte :: "."%byte :: D ++ "/"%byte :: G).
  cbn [strings.fieldsFrom]. 
  change (Upid.isSeparator "1") with false.
  change (Upid.isSeparator "0") with false.
  change (Upid.isSeparator ".") with true.
  cbn iota. cbn [app].
  rewrite fieldsFrom_run by done. cbn [app strings.fieldsFrom].
  change (Upid.isSeparator "/") with true. cbn iota.
  destruct D as [|d D]; [done|].
  rewrite <- (app_nil_r G) at 1. rewrite fieldsFrom_run by done.
  cbn [app strings.fieldsFrom]. destruct G; done.
Qed.

Lemma be_value_two (b0 b1 : byte) : 0 <= be_value [b0; b1] < 65536.
Proof.
  unfold be_value. pose proof (Z_of_bits_range (bits_of_bytes [b0; b1])) as H.
  rewrite bits_of_bytes_length in H. simpl length in H.
  change (2 ^ Z.of_nat (8 * 2)) with 65536 in H. done.
Qed.

Lemma compress_canonical (b : list byte) :
  length b = 12%nat ->
  Upid.compressEIDR (canonicalEIDR b) = b \/ strings.Contains b "/"%byte = true.
Proof.
  intros Hlen.
  destruct (strings.Contains b "/"%byte) eqn:Hc; [by right | left].
  unfold canonicalEIDR. rewrite Hc.
  do 12 (destruct b as [|? b]; [simpl in Hlen; lia|]).
  destruct b; [|simpl in Hlen; lia]. clear Hlen Hc.
  cbn [length Nat.eqb negb slice take drop Nat.sub].
  set (i := be_value [b0; b1]).
  pose proof (be_value_two b0 b1) as Hi. fold i in Hi.
  destruct (FormatUint_digits i) as (HDne & HDd & _); [lia|].
  set (G := hex.EncodeUpper [b2; b3] ++ str "-" ++ hex.EncodeUpper [b4; b5] ++ str "-" ++
           hex.EncodeUpper [b6; b7] ++ str "-" ++ hex.EncodeUpper [b8; b9] ++ str "-" ++
           hex.EncodeUpper [b10; b11]).
  assert (Hns : forall l, Forall (fun c => Upid.isSeparator c = false) (hex.EncodeUpper l)).
  { intros l. eapply Forall_impl; [apply EncodeUpper_plain|]. by intros c (H & _). }
  assert (HGp : Forall (fun c => Upid.isSeparator c = false) G).
  { unfold G. rewrite !Forall_app. repeat split; try apply Hns; by repeat constructor. }
  assert (HGne : G <> []).
  { unfold G. destruct (hex.EncodeUpper [b2; b3]) eqn:E; [done|done]. }
  assert (HG : strings.RemoveAll G "-"%byte
               = hex.EncodeUpper [b2; b3; b4; b5; b6; b7; b8; b9; b10; b11]).
  { unfold G. rewrite !RemoveAll_app.
    rewrite !(RemoveAll_plain (hex.EncodeUpper _)) by apply EncodeUpper_plain.
    change (strings.RemoveAll (str "-") "-"%byte) with (@nil byte).
    cbn [app]. rewrite <- !EncodeUpper_app. done. }
  unfold Upid.compressEIDR.
  rewrite fields_canonical; try done.
  2:{ eapply Forall_impl; [exact HDd|]. intros c Hc. by destruct (isDigit_plain c Hc). }
  rewrite Atoi_FormatUint by lia.
  rewrite HG, hex_DecodeString_EncodeUpper.
  unfold iobit.buffer, iobit.Write, iobit.PutUint, iobit.NewWriter.
  cbn [iobit.cap iobit.out app].
  unfold uint32, wrap. rewrite Z.mod_small by lia.
  unfold i, be_value.
  change 16%nat with (length (bits_of_bytes [b0; b1])) at 1 2.
  rewrite bits_of_Z_of_bits.
  unfold iobit.padding. rewrite bits_of_bytes_length.
  cbn [length Nat.mul Nat.add Nat.modulo Nat.divmod Nat.sub fst snd repeat app].
  rewrite <- bits_of_bytes_app, bytes_of_bits_of_bytes. reflexivity.
Qed.

Lemma NewSegmentationUPID_EIDR (b : list byte) :
  Upid.NewSegmentationUPID SegmentationUPIDTypeEIDR b
  = Upid.mkUPID SegmentationUPIDTypeEIDR None (str "text") (canonicalEIDR b).
Proof. reflexivity. Qed.

Lemma compressEIDR_cases (s : list byte) :
  (compressible s = false -> Upid.compressEIDR s = s)
  /\ (compressible s = true -> length (Upid.compressEIDR s) = 12%nat).
Proof.
  unfold compressible, Upid.compressEIDR.
  destruct (strings.FieldsFunc s Upid.isSeparator) as [|p0 [|p1 [|p2 [|p3 ps]]]];
    try (split; [done | discriminate]).
  destruct (strconv.Atoi p1) as [i|]; [|split; [done | discriminate]].
  destruct (hex.DecodeString (strings.RemoveAll p2 "-"%byte)) as [h [|]];
    [|split; [done | discriminate]].
  split; [discriminate | intros _].
  unfold iobit.buffer. rewrite length_take, length_app, repeat_length.
  cbn [iobit.cap iobit.Write iobit.PutUint iobit.NewWriter]. lia.
Qed.

(** C6 (as amended). A 12-byte EIDR value without a slash decodes to the
    canonical text (the decimal of the first two bytes after the prefix, a
    slash, five hyphen-separated groups of two bytes in upper-case
    hexadecimal) and that text encodes to the same 12 bytes; a value with a
    slash is decoded as it is; on encoding, a text is passed through unchanged
    when it is not of the three-field canonical shape, and compressed to 12
    bytes when it is. *)
Theorem C6_eidr_canonical_roundtrip (b : list byte) :
  (length b = 12%nat -> strings.Contains b "/"%byte = false ->
     Upid.Value (Upid.NewSegmentationUPID SegmentationUPIDTypeEIDR b)
     = str "10." ++ strconv.FormatUint (be_value (slice 0 2 b)) ++ str "/"
         ++ hex.EncodeUpper (slice 2 4 b) ++ str "-"
         ++ hex.EncodeUpper (slice 4 6 b) ++ str "-"
         ++ hex.EncodeUpper (slice 6 8 b) ++ str "-"
         ++ hex.EncodeUpper (slice 8 10 b) ++ str "-"
         ++ hex.EncodeUpper (slice 10 12 b)
     /\ Upid.valueBytes (Upid.NewSegmentationUPID SegmentationUPIDTypeEIDR b)
        = Some b)
  /\ (strings.Contains b "/"%byte = true ->
      Upid.Value (Upid.NewSegmentationUPID SegmentationUPIDTypeEIDR b) = b)
  /\ (strings.Contains b "/"%byte = true -> compressible b = false ->
      Upid.valueBytes (Upid.NewSegmentationUPID SegmentationUPIDTypeEIDR b)
      = Some b)
  /\ (strings.Contains b "/"%byte = true -> compressible b = true ->
      exists c, Upid.valueBytes (Upid.NewSegmentationUPID SegmentationUPIDTypeEIDR b)
                = Some c /\ length c = 12%nat).
Proof.
  rewrite NewSegmentationUPID_EIDR. cbn [Upid.Value].
  change (Upid.valueBytes (Upid.mkUPID SegmentationUPIDTypeEIDR None (str "text")
                             (canonicalEIDR b)))
    with (Some (Upid.compressEIDR (canonicalEIDR b))).
  split; [intros Hl Hc; split | split; [intros Hc | split]].
  - unfold canonicalEIDR. rewrite Hc, Hl. done.
  - destruct (compress_canonical b Hl) as [->|Hc']; [done | congruence].
  - unfold canonicalEIDR. by rewrite Hc.
  - intros Hc Hn. unfold canonicalEIDR. rewrite Hc.
    f_equal. by apply compressEIDR_cases.
  - intros Hc Hn. unfold canonicalEIDR. rewrite Hc.
    eexists. split; [done|]. by apply compressEIDR_cases.
Qed.

Lemma C6_eidr_witness :
  (length eidr_raw = 12%nat /\ strings.Contains eidr_raw "/"%byte = false)
  /\ Upid.valueBytes (Upid.NewSegmentationUPID SegmentationUPIDTypeEIDR eidr_raw)
     = Some eidr_raw
  /\ (strings.Contains eidr_text "/"%byte = true
      /\ Upid.Value (Upid.NewSegmentationUPID SegmentationUPIDTypeEIDR eidr_text)
         = eidr_text).
Proof.
  split; [split; reflexivity|]. split.
  - destruct (C6_eidr_canonical_roundtrip eidr_raw) as (H & _).
    apply H; reflexivity.
  - split; [reflexivity|].
    destruct (C6_eidr_canonical_roundtrip eidr_text) as (_ & H & _).
    apply H; reflexivity.
Defined.

(** C6, as stated, fails: a value that already is canonical text (it has a
    slash) is decoded unchanged, but encoding that text compresses it to 12
    bytes instead of passing it through. *)
Lemma C6_eidr_text_not_passed_through :
  strings.Contains eidr_text "/"%byte = true
  /\ Upid.Value (Upid.NewSegmentationUPID SegmentationUPIDTypeEIDR eidr_text)
     = eidr_text
  /\ Upid.valueBytes (Upid.NewSegmentationUPID SegmentationUPIDTypeEIDR eidr_text)
     = Some eidr_raw
  /\ Upid.valueBytes (Upid.NewSegmentationUPID SegmentationUPIDTypeEIDR eidr_text)
     <> Some eidr_text.
Proof. repeat split; try reflexivity. vm_compute. discriminate. Qed.

(** ** UTF-8 validity of decoded UPID values *)

Lemma Valid_ascii (l : list byte) : Forall isASCII l -> utf8.Valid l = true.
Proof.
  induction 1 as [|c l Hc _ IH]; [done|].
  unfold isASCII in Hc. cbn [utf8.Valid].
  destruct (Z.ltb_spec (Z_of_byte c) 128); [exact IH | lia].
Qed.

Lemma Valid_replacement (l : list byte) :
  utf8.Valid (UpidASCII.replacementChar ++ l) = utf8.Valid l.
Proof. reflexivity. Qed.

Lemma DecodeASCII_valid (b : list byte) : utf8.Valid (UpidASCII.DecodeASCII b) = true.
Proof.
  induction b as [|c b IH]; [done|].
  change (UpidASCII.DecodeASCII (c :: b))
    with ((if Z_of_byte c <? 128 then [c] else UpidASCII.replacementChar)
            ++ UpidASCII.DecodeASCII b).
  destruct (Z.ltb_spec (Z_of_byte c) 128) as [Hc|Hc].
  - cbn [app utf8.Valid].
    destruct (Z.ltb_spec (Z_of_byte c) 128); [exact IH | lia].
  - by rewrite Valid_replacement.
Qed.

Lemma base64_char_ascii (v : Z) : isASCII (base64.char v).
Proof.
  unfold base64.char.
  assert (H : Forall isASCII base64.alphabet).
  { unfold isASCII. vm_compute. repeat constructor. }
  destruct (nth_in_or_default (Z.to_nat v) base64.alphabet "A"%byte) as [Hin| ->].
  - rewrite Forall_forall in H. apply H. by apply list_elem_of_In.
  - unfold isASCII. vm_compute. done.
Qed.

Lemma base64_EncodeToString_ascii (l : list byte) :
  Forall isASCII (base64.EncodeToString l).
Proof.
  assert (Hpad : isASCII "="%byte) by (unfold isASCII; vm_compute; done).
  assert (H : forall n l, (length l <= n)%nat -> Forall isASCII (base64.EncodeToString l)).
  { induction n as [|n IH]; intros [|a [|b [|c rest]]] Hl; simpl in Hl; try lia;
      cbn [base64.EncodeToString]; repeat (constructor; try apply base64_char_ascii);
      try done.
    apply IH. lia. }
  by apply (H (length l)).
Qed.

Lemma plain_ascii (l : list byte) : Forall plainChar l -> Forall isASCII l.
Proof. intros H. eapply Forall_impl; [exact H|]. by intros c (_ & _ & Hc). Qed.

Lemma digits_ascii (l : list byte) :
  Forall (fun c => strconv.isDigit c = true) l -> Forall isASCII l.
Proof.
  intros H. apply plain_ascii. eapply Forall_impl; [exact H|]. apply isDigit_plain.
Qed.

Lemma uint64_range (x : Z) : 0 <= uint64 x < 2 ^ 64.
Proof. unfold uint64, wrap. apply Z.mod_pos_bound. lia. Qed.

Lemma canonicalEIDR_valid (b : list byte) :
  strings.Contains b "/"%byte = false -> utf8.Valid (canonicalEIDR b) = true.
Proof.
  intros Hc. unfold canonicalEIDR. rewrite Hc.
  destruct (negb (length b =? 12)%nat); [done|].
  apply Valid_ascii.
  assert (Hstr : forall c, isASCII c -> Forall isASCII [c]) by (by repeat constructor).
  assert (Hb : 0 <= be_value (slice 0 2 b) < 2 ^ 64).
  { unfold be_value. pose proof (Z_of_bits_range (bits_of_bytes (slice 0 2 b))) as H.
    rewrite bits_of_bytes_length in H.
    assert (Hl : (length (slice 0 2 b) <= 2)%nat).
    { unfold slice. rewrite length_take. lia. }
    assert (2 ^ Z.of_nat (8 * length (slice 0 2 b)) <= 2 ^ 64); [|lia].
    apply Z.pow_le_mono_r; lia. }
  destruct (FormatUint_digits _ Hb) as (_ & Hd & _).
  rewrite !Forall_app. repeat split;
    try (apply plain_ascii, EncodeUpper_plain);
    try (by apply digits_ascii);
    unfold isASCII; vm_compute; repeat constructor.
Qed.

(** Outside the pass-through of EIDR text, every decoded UPID value is valid
    UTF-8. *)
Lemma NewSegmentationUPID_valid_utf8 (upidType : Z) (buf : list byte) :
  upidType <> SegmentationUPIDTypeEIDR
  \/ strings.Contains buf "/"%byte = false
  \/ utf8.Valid buf = true ->
  utf8.Valid (UpidASCII.Value (UpidASCII.NewSegmentationUPID upidType buf)) = true.
Proof.
  intros H. unfold UpidASCII.NewSegmentationUPID.
  change (iobit.LeftBytes (iobit.NewReader buf)) with buf.
  destruct (Z.eqb_spec upidType SegmentationUPIDTypeEIDR) as [->|Hne].
  - cbn [UpidASCII.Value].
    destruct (strings.Contains buf "/"%byte) eqn:Hc.
    + destruct H as [H|[H|H]]; [done | done |].
      unfold canonicalEIDR. by rewrite Hc.
    + by apply canonicalEIDR_valid.
  - destruct ((upidType =? SegmentationUPIDTypeISAN)
              || (upidType =? SegmentationUPIDTypeISANDeprecated)).
    { apply Valid_ascii, base64_EncodeToString_ascii. }
    destruct (upidType =? SegmentationUPIDTypeMPU).
    { apply Valid_ascii, base64_EncodeToString_ascii. }
    destruct (upidType =? SegmentationUPIDTypeTI).
    { apply Valid_ascii, digits_ascii. cbn [UpidASCII.Value iobit.Uint64 fst].
      apply FormatUint_digits, uint64_range. }
    apply DecodeASCII_valid.
Qed.

(** C8. The claimed invariant is broken by the decoder: an EIDR value that
    has a slash is passed through byte for byte, so a byte above 0x7F in it
    ends up in [Value], which then is not valid UTF-8 (first part, the revision
    that decodes text through [DecodeASCII]); in the revision of
    [pkg/scte35/segmentation_upid.go] every text UPID is passed through
    (second part). *)
Theorem C8_upid_value_invalid_utf8 :
  utf8.Valid (UpidASCII.Value
                (UpidASCII.NewSegmentationUPID SegmentationUPIDTypeEIDR
                   [xff; "/"%byte])) = false
  /\ utf8.Valid (Upid.Value (Upid.NewSegmentationUPID 0x09 [xff])) = false.
Proof. split; reflexivity. Qed.

(** ** The segmentation descriptor on the wire *)


Lemma padding_aligned (bs : list bool) (k : nat) :
  length bs = (8 * k)%nat -> iobit.padding bs = [].
Proof.
  intros H. unfold iobit.padding. rewrite H.
  replace ((8 * k) mod 8)%nat with 0%nat; [done|].
  symmetry. rewrite Nat.mul_comm. apply Nat.Div0.mod_mul.
Qed.

Lemma putComponents_out (cs : list SegDesc.SegmentationDescriptorComponent) :
  forall w, exists X,
    iobit.out (SegDesc.putComponents w cs) = iobit.out w ++ X
    /\ length X = (48 * length cs)%nat
    /\ iobit.cap (SegDesc.putComponents w cs) = iobit.cap w.
Proof.
  induction cs as [|c cs IH]; intros w.
  - exists []. by rewrite app_nil_r.
  - cbn [SegDesc.putComponents].
    destruct (IH (iobit.PutUint 33 (SegDesc.PTSOffset c)
                    (iobit.PutUint 7 Reserved (iobit.PutUint 8 (SegDesc.Tag c) w))))
      as (X & HX & HXl & Hc).
    exists (bits_of_Z 8 (SegDesc.Tag c) ++ bits_of_Z 7 Reserved ++ bits_of_Z 33 (SegDesc.PTSOffset c) ++ X).
    split; [|split].
    + rewrite HX. cbn [iobit.out iobit.PutUint]. by rewrite <- !app_assoc.
    + rewrite !length_app, !bits_of_Z_length, HXl. simpl length. lia.
    + rewrite Hc. done.
Qed.

Lemma encodeFlags_out (sd : SegDesc.SegmentationDescriptor) (w : iobit.Writer) :
  exists X,
    iobit.out (SegDesc.encodeFlags sd w) = iobit.out w ++ X
    /\ Z.of_nat (length X)
       = 8 + (if SegDesc.ProgramSegmentationFlag sd then 0
              else 8 + 48 * Z.of_nat (length (SegDesc.Components sd)))
           + (if SegDesc.SegmentationDurationFlag sd then 40 else 0)
    /\ iobit.cap (SegDesc.encodeFlags sd w) = iobit.cap w.
Proof.
  unfold SegDesc.encodeFlags, SegDesc.SegmentationDurationFlag.
  set (w1 := match SegDesc.DeliveryRestrictions' sd with
             | Some dr => _ | None => _ end).
  assert (H1 : exists X1, iobit.out w1 = iobit.out w ++ X1 /\ length X1 = 8%nat
                          /\ iobit.cap w1 = iobit.cap w).
  { unfold w1. destruct (SegDesc.DeliveryRestrictions' sd) as [dr|];
      cbn [iobit.out iobit.PutUint iobit.PutBit iobit.cap];
      eexists; rewrite <- !app_assoc; (split; [reflexivity|]); done. }
  destruct H1 as (X1 & HX1 & HX1l & Hc1).
  set (w2 := if negb (SegDesc.ProgramSegmentationFlag sd) then _ else w1).
  assert (H2 : exists X2, iobit.out w2 = iobit.out w1 ++ X2
              /\ Z.of_nat (length X2) = (if SegDesc.ProgramSegmentationFlag sd then 0
                    else 8 + 48 * Z.of_nat (length (SegDesc.Components sd)))
              /\ iobit.cap w2 = iobit.cap w1).
  { unfold w2. destruct (SegDesc.ProgramSegmentationFlag sd); cbn [negb].
    - exists []. by rewrite app_nil_r.
    - destruct (putComponents_out (SegDesc.Components sd)
                  (iobit.PutUint 8 (uint32 (Z.of_nat (length (SegDesc.Components sd)))) w1))
        as (X & HX & HXl & Hc).
      exists (bits_of_Z 8 (uint32 (Z.of_nat (length (SegDesc.Components sd)))) ++ X).
      rewrite HX, Hc. cbn [iobit.out iobit.PutUint iobit.cap].
      rewrite <- app_assoc, length_app, bits_of_Z_length, HXl.
      split; [done|]. split; [lia | done]. }
  destruct H2 as (X2 & HX2 & HX2l & Hc2).
  destruct (SegDesc.SegmentationDuration sd) as [dur|].
  - exists (X1 ++ X2 ++ bits_of_Z 40 dur).
    cbn [iobit.out iobit.PutUint iobit.cap].
    rewrite HX2, HX1, <- !app_assoc, !length_app, bits_of_Z_length.
    split; [done|]. split; [lia | congruence].
  - exists (X1 ++ X2). rewrite HX2, HX1, <- !app_assoc, !length_app.
    split; [done|]. split; [lia | congruence].
Qed.

Lemma putUPID_out (w : iobit.Writer) (upid : Upid.SegmentationUPID) (vb : list byte) :
  aligned w -> Upid.valueBytes upid = Some vb ->
  exists w', SegDesc.putUPID w upid = Some w'
    /\ iobit.out w' = iobit.out w ++ bits_of_Z 8 (Upid.Type' upid)
                        ++ bits_of_Z 8 (uint32 (Z.of_nat (length vb)))
                        ++ bits_of_bytes vb
    /\ iobit.cap w' = iobit.cap w.
Proof.
  intros [k Hk] Hvb. unfold SegDesc.putUPID. rewrite Hvb. cbn [mbind option_bind].
  eexists. split; [reflexivity|]. split; [|reflexivity].
  cbn [iobit.out iobit.Write iobit.PutUint iobit.cap].
  rewrite (padding_aligned _ (k + 2)).
  - by rewrite <- !app_assoc.
  - rewrite !length_app, !bits_of_Z_length, Hk. lia.
Qed.

Lemma aligned_app (w w' : iobit.Writer) (X : list bool) (n : Z) :
  aligned w -> iobit.out w' = iobit.out w ++ X -> Z.of_nat (length X) = 8 * n ->
  aligned w'.
Proof.
  intros [k Hk] Hout HX. exists (k + Z.to_nat n)%nat.
  rewrite Hout, length_app, Hk. lia.
Qed.

Lemma putUPIDs_out (upids : list Upid.SegmentationUPID) :
  forall w vbs, aligned w -> valuesOf upids = Some vbs ->
    exists w' X, SegDesc.putUPIDs w upids = Some w'
      /\ iobit.out w' = iobit.out w ++ X
      /\ Z.of_nat (length X) = 8 * midSum vbs
      /\ iobit.cap w' = iobit.cap w.
Proof.
  induction upids as [|u upids IH]; intros w vbs Hw Hv.
  - injection Hv as <-. exists w, []. rewrite app_nil_r. done.
  - cbn [valuesOf] in Hv.
    destruct (Upid.valueBytes u) as [vb|] eqn:Hvb; [|done].
    destruct (valuesOf upids) as [vbs'|] eqn:Hvs; [|done].
    injection Hv as <-.
    destruct (putUPID_out w u vb Hw Hvb) as (w1 & Hp & Ho & Hc).
    assert (Hw1 : aligned w1).
    { eapply (aligned_app w w1 _ (2 + Z.of_nat (length vb))); [done | exact Ho |].
      rewrite !length_app, !bits_of_Z_length, bits_of_bytes_length. lia. }
    destruct (IH w1 vbs' Hw1 eq_refl) as (w' & X & Hp' & Ho' & HX & Hc').
    cbn [SegDesc.putUPIDs]. rewrite Hp. cbn [mbind option_bind].
    exists w', (bits_of_Z 8 (Upid.Type' u)
                 ++ bits_of_Z 8 (uint32 (Z.of_nat (length vb)))
                 ++ bits_of_bytes vb ++ X).
    split; [done|]. split; [|split].
    + rewrite Ho', Ho, <- !app_assoc. done.
    + rewrite !length_app, !bits_of_Z_length, bits_of_bytes_length.
      cbn [midSum]. lia.
    + congruence.
Qed.

Lemma midLength_spec (upids : list Upid.SegmentationUPID) :
  forall acc vbs, valuesOf upids = Some vbs ->
    SegDesc.midLength upids acc = Some (acc + 8 * midSum vbs).
Proof.
  induction upids as [|u upids IH]; intros acc vbs Hv.
  - injection Hv as <-. cbn. f_equal. lia.
  - cbn [valuesOf] in Hv.
    destruct (Upid.valueBytes u) as [vb|] eqn:Hvb; [|done].
    destruct (valuesOf upids) as [vbs'|] eqn:Hvs; [|done].
    injection Hv as <-.
    cbn [SegDesc.midLength]. rewrite Hvb. cbn [mbind option_bind].
    rewrite (IH _ vbs' eq_refl). f_equal. cbn [midSum]. lia.
Qed.

Lemma midLength_None (upids : list Upid.SegmentationUPID) :
  forall acc, valuesOf upids = None -> SegDesc.midLength upids acc = None.
Proof.
  induction upids as [|u upids IH]; intros acc Hv; [done|].
  cbn [valuesOf] in Hv. cbn [SegDesc.midLength].
  destruct (Upid.valueBytes u) as [vb|] eqn:Hvb; [|done].
  cbn [mbind option_bind] in *. apply IH.
  by destruct (valuesOf upids).
Qed.

Lemma SegmentationUpidLength_spec (sd : SegDesc.SegmentationDescriptor) :
  SegDesc.SegmentationUpidLength sd
  = option_map upidLengthOf (valuesOf (SegDesc.SegmentationUPIDs sd)).
Proof.
  unfold SegDesc.SegmentationUpidLength.
  destruct (SegDesc.SegmentationUPIDs sd) as [|u [|u' us]].
  - done.
  - cbn [valuesOf]. destruct (Upid.valueBytes u) as [vb|]; [|done].
    cbn [mbind option_bind option_map upidLengthOf]. f_equal.
    rewrite Z.add_0_l, Z.div_mul by lia. done.
  - destruct (valuesOf (u :: u' :: us)) as [vbs|] eqn:Hv.
    + rewrite (midLength_spec _ 0 vbs Hv). cbn [mbind option_bind option_map].
      f_equal. rewrite Z.add_0_l, Z.mul_comm, Z.div_mul by lia.
      cbn [valuesOf] in Hv.
      destruct (Upid.valueBytes u); [|done].
      destruct (Upid.valueBytes u'); [|done].
      destruct (valuesOf us); [|done]. injection Hv as <-. done.
    + rewrite midLength_None by done. done.
Qed.

Lemma midSum_nonneg (vbs : list (list byte)) : 0 <= midSum vbs.
Proof. induction vbs as [|vb vbs IH]; cbn [midSum]; lia. Qed.

Lemma encodeUPIDs_out (sd : SegDesc.SegmentationDescriptor) (w : iobit.Writer)
  (vbs : list (list byte)) :
  aligned w -> valuesOf (SegDesc.SegmentationUPIDs sd) = Some vbs ->
  exists w' X, SegDesc.encodeUPIDs sd w = Some w'
    /\ iobit.out w' = iobit.out w
                        ++ bits_of_Z 8 (outerType (SegDesc.SegmentationUPIDs sd))
                        ++ bits_of_Z 8 (uint32 (upidLengthOf vbs)) ++ X
    /\ Z.of_nat (length X) = 8 * upidLengthOf vbs
    /\ iobit.cap w' = iobit.cap w.
Proof.
  intros Hw Hv. unfold SegDesc.encodeUPIDs.
  pose proof (SegmentationUpidLength_spec sd) as HL. rewrite Hv in HL.
  destruct (SegDesc.SegmentationUPIDs sd) as [|u [|u' us]] eqn:Hu.
  - injection Hv as <-. eexists _, []. split; [reflexivity|].
    cbn [iobit.out iobit.PutUint iobit.cap outerType upidLengthOf].
    rewrite <- !app_assoc. done.
  - cbn [valuesOf] in Hv. destruct (Upid.valueBytes u) as [vb|] eqn:Hvb; [|done].
    injection Hv as <-.
    destruct (putUPID_out w u vb Hw Hvb) as (w' & Hp & Ho & Hc).
    exists w', (bits_of_bytes vb). rewrite Hp, Ho, bits_of_bytes_length.
    cbn [outerType upidLengthOf]. split; [done|]. split; [done|]. split; [lia | done].
  - rewrite HL. cbn [option_map mbind option_bind].
    set (w1 := iobit.PutUint 8 (uint32 (upidLengthOf vbs))
                 (iobit.PutUint 8 SegmentationUPIDTypeMID w)).
    assert (Hw1 : aligned w1).
    { eapply (aligned_app w w1 _ 2); [done | |].
      - unfold w1. cbn [iobit.out iobit.PutUint]. by rewrite <- app_assoc.
      - rewrite length_app, !bits_of_Z_length. lia. }
    destruct (putUPIDs_out (u :: u' :: us) w1 vbs Hw1 Hv) as (w' & X & Hp & Ho & HX & Hc).
    exists w', X. rewrite Hp, Ho. unfold w1.
    cbn [iobit.out iobit.PutUint iobit.cap outerType] in *.
    rewrite <- !app_assoc. split; [done|]. split; [done|]. split; [|done].
    rewrite HX. cbn [valuesOf] in Hv.
    destruct (Upid.valueBytes u); [|done].
    destruct (Upid.valueBytes u'); [|done].
    destruct (valuesOf us); [|done]. injection Hv as <-. done.
Qed.

Lemma encodeTail_out (sd : SegDesc.SegmentationDescriptor) (w : iobit.Writer) :
  iobit.out (SegDesc.encodeTail sd w) = iobit.out w ++ tailBits sd
  /\ iobit.cap (SegDesc.encodeTail sd w) = iobit.cap w.
Proof.
  unfold SegDesc.encodeTail, tailBits, optionalByte.
  destruct (SegDesc.SubSegmentNum sd), (SegDesc.SubSegmentsExpected sd);
    cbn [iobit.out iobit.PutUint iobit.cap]; rewrite <- ?app_assoc, ?app_nil_r; done.
Qed.

Lemma tailBits_length (sd : SegDesc.SegmentationDescriptor) :
  Z.of_nat (length (tailBits sd))
  = 24 + (match SegDesc.SubSegmentNum sd with Some _ => 8 | None => 0 end)
       + (match SegDesc.SubSegmentsExpected sd with Some _ => 8 | None => 0 end).
Proof.
  unfold tailBits, optionalByte. rewrite !length_app, !bits_of_Z_length.
  destruct (SegDesc.SubSegmentNum sd), (SegDesc.SubSegmentsExpected sd);
    rewrite ?bits_of_Z_length; simpl length; lia.
Qed.

Lemma encodeHead_out (sd : SegDesc.SegmentationDescriptor) (len : Z) :
  length (iobit.out (SegDesc.encodeHead sd len)) = 88%nat
  /\ iobit.cap (SegDesc.encodeHead sd len) = Z.to_nat (len + 2).
Proof.
  unfold SegDesc.encodeHead. cbn [iobit.out iobit.PutUint iobit.PutBit iobit.cap iobit.NewWriter].
  rewrite !length_app, !bits_of_Z_length. done.
Qed.

(** The layout of what [encode] writes for a descriptor that is not
    cancelled, and the fact that it fills the buffer exactly. *)
Lemma encodeWriter_layout (sd : SegDesc.SegmentationDescriptor) (vbs : list (list byte)) :
  SegDesc.SegmentationEventCancelIndicator sd = false ->
  valuesOf (SegDesc.SegmentationUPIDs sd) = Some vbs ->
  exists w pre X, SegDesc.encodeWriter sd = Some w
    /\ iobit.out w = pre ++ bits_of_Z 8 (outerType (SegDesc.SegmentationUPIDs sd))
                         ++ bits_of_Z 8 (uint32 (upidLengthOf vbs))
                         ++ X ++ tailBits sd
    /\ Z.of_nat (length pre) = 8 * upidOffset sd
    /\ Z.of_nat (length X) = 8 * upidLengthOf vbs
    /\ Z.of_nat (length (iobit.out w)) = 8 * Z.of_nat (iobit.cap w).
Proof.
  intros Hcancel Hv. unfold SegDesc.encodeWriter, SegDesc.length.
  rewrite Hcancel. cbn [negb].
  rewrite SegmentationUpidLength_spec, Hv. cbn [option_map mbind option_bind].
  set (len := (_ / 8)).
  destruct (encodeHead_out sd len) as [Hh Hhc].
  destruct (encodeFlags_out sd (SegDesc.encodeHead sd len)) as (F & HF & HFl & HFc).
  assert (Ha : aligned (SegDesc.encodeFlags sd (SegDesc.encodeHead sd len))).
  { exists (Z.to_nat (upidOffset sd)). rewrite HF, length_app, Hh.
    unfold upidOffset. revert HFl.
    destruct (SegDesc.ProgramSegmentationFlag sd), (SegDesc.SegmentationDurationFlag sd); lia. }
  destruct (encodeUPIDs_out sd _ vbs Ha Hv) as (w1 & X & Hp & Ho & HX & Hc).
  rewrite Hp. cbn [mbind option_bind].
  destruct (encodeTail_out sd w1) as [Ht Htc].
  exists (SegDesc.encodeTail sd w1), (iobit.out (SegDesc.encodeHead sd len) ++ F), X.
  split; [done|]. split; [|split; [|split; [done|]]].
  - rewrite Ht, Ho, HF, <- !app_assoc. done.
  - rewrite length_app, Hh. unfold upidOffset. revert HFl.
    destruct (SegDesc.ProgramSegmentationFlag sd), (SegDesc.SegmentationDurationFlag sd); lia.
  - rewrite Ht, Ho, HF, !length_app, Hh, !bits_of_Z_length, Htc, Hc, HFc, Hhc.
    pose proof (tailBits_length sd) as Htl.
    assert (Hlen : 8 * len = 88 + Z.of_nat (length F) + 16 + 8 * upidLengthOf vbs
                           + Z.of_nat (length (tailBits sd)) - 16).
    { unfold len. rewrite HFl, Htl. unfold SegDesc.SegmentationDurationFlag.
      assert (HL : 0 <= upidLengthOf vbs).
      { unfold upidLengthOf. destruct vbs as [|? [|? ?]]; try lia.
        apply midSum_nonneg. }
      destruct (SegDesc.ProgramSegmentationFlag sd), (SegDesc.SegmentationDuration sd),
        (SegDesc.SubSegmentNum sd), (SegDesc.SubSegmentsExpected sd); cbn [negb];
        Z.div_mod_to_equations; lia. }
    lia.
Qed.

Lemma Flush_exact (w : iobit.Writer) :
  Z.of_nat (length (iobit.out w)) = 8 * Z.of_nat (iobit.cap w) ->
  iobit.Flush w = (bytes_of_bits (iobit.out w), None).
Proof.
  intros H. unfold iobit.Flush, iobit.buffer.
  assert (Hl : length (bytes_of_bits (iobit.out w)) = iobit.cap w).
  { apply bytes_of_bits_length. lia. }
  rewrite <- Hl at 1. rewrite take_app_length.
  destruct (Nat.ltb_spec (8 * iobit.cap w) (length (iobit.out w))); [lia | done].
Qed.

Lemma byte_of_Z_mod (v : Z) : byte_of_Z (v mod 256) = byte_of_Z v.
Proof. unfold byte_of_Z. by rewrite Z.mod_mod. Qed.

Lemma byte_of_Z_uint32 (v : Z) : byte_of_Z (uint32 v) = byte_of_Z v.
Proof.
  unfold byte_of_Z, uint32, wrap.
  replace ((v mod 2 ^ 32) mod 256) with (v mod 256); [done|].
  change (2 ^ 32) with 4294967296. Z.div_mod_to_equations. lia.
Qed.

Lemma bytes_of_bits_byte (v : Z) (rest : list bool) :
  bytes_of_bits (bits_of_Z 8 v ++ rest) = byte_of_Z v :: bytes_of_bits rest.
Proof.
  rewrite (bytes_of_bits_app 1) by apply bits_of_Z_length. f_equal.
  pose proof (Z_of_bits_of_Z 8 v) as H.
  cbn [bits_of_Z] in *. cbn [bytes_of_bits]. rewrite H.
  change (2 ^ Z.of_nat 8) with 256. by rewrite byte_of_Z_mod.
Qed.

Lemma optionalByte_bytes (o : option Z) (rest : list bool) :
  bytes_of_bits (optionalByte o ++ rest) = optionalField o ++ bytes_of_bits rest.
Proof. destruct o as [v|]; [apply bytes_of_bits_byte | done]. Qed.

Lemma tailBits_bytes (sd : SegDesc.SegmentationDescriptor) :
  bytes_of_bits (tailBits sd)
  = [byte_of_Z (SegDesc.SegmentationTypeID sd); byte_of_Z (SegDesc.SegmentNum sd);
     byte_of_Z (SegDesc.SegmentsExpected sd)]
    ++ optionalField (SegDesc.SubSegmentNum sd)
    ++ optionalField (SegDesc.SubSegmentsExpected sd).
Proof.
  unfold tailBits. rewrite !bytes_of_bits_byte, optionalByte_bytes.
  rewrite <- (app_nil_r (optionalByte _)), optionalByte_bytes. cbn [bytes_of_bits].
  by rewrite app_nil_r.
Qed.

(** The buffer [encode] returns for a descriptor that is not cancelled. *)
Lemma encode_layout (sd : SegDesc.SegmentationDescriptor) (vbs : list (list byte)) :
  SegDesc.SegmentationEventCancelIndicator sd = false ->
  valuesOf (SegDesc.SegmentationUPIDs sd) = Some vbs ->
  exists pre values,
    SegDesc.encode sd
    = Some (pre ++ byte_of_Z (outerType (SegDesc.SegmentationUPIDs sd))
                :: byte_of_Z (upidLengthOf vbs)
                :: values ++ bytes_of_bits (tailBits sd), None)
    /\ Z.of_nat (length pre) = upidOffset sd
    /\ Z.of_nat (length values) = upidLengthOf vbs.
Proof.
  intros Hc Hv.
  destruct (encodeWriter_layout sd vbs Hc Hv) as (w & pre & X & Hw & Ho & Hpre & HX & Hlen).
  unfold SegDesc.encode. rewrite Hw. cbn [mbind option_bind].
  rewrite Flush_exact by done. rewrite Ho.
  pose proof (upidLengthOf vbs) as L.
  assert (HL : 0 <= upidLengthOf vbs).
  { unfold upidLengthOf. destruct vbs as [|? [|? ?]]; try lia. apply midSum_nonneg. }
  assert (Hoff : 0 <= upidOffset sd) by lia.
  rewrite (bytes_of_bits_app (Z.to_nat (upidOffset sd))) by lia.
  rewrite !bytes_of_bits_byte, byte_of_Z_uint32.
  rewrite (bytes_of_bits_app (Z.to_nat (upidLengthOf vbs))) by lia.
  exists (bytes_of_bits pre), (bytes_of_bits X). split; [done|].
  split.
  - rewrite (bytes_of_bits_length (Z.to_nat (upidOffset sd))); lia.
  - rewrite (bytes_of_bits_length (Z.to_nat (upidLengthOf vbs))); lia.
Qed.

Lemma valuesOf_single (u : Upid.SegmentationUPID) (vbs : list (list byte)) :
  valuesOf [u] = Some vbs -> exists vb, Upid.valueBytes u = Some vb /\ vbs = [vb].
Proof.
  cbn [valuesOf]. destruct (Upid.valueBytes u) as [vb|]; [|done].
  intros [= <-]. by exists vb.
Qed.

(** C5 (as amended). For a descriptor that is not cancelled, [encode] puts at
    the offset of segmentation_upid_type two bytes: zero and zero for an empty
    UPID list; for a single UPID the low eight bits of its type and of the
    length of its value; for several UPIDs the type MID and the low eight bits
    of the sum, over the UPIDs, of two plus the length of the value.  (Below
    256 the low eight bits are the number itself.) *)
Theorem C5_upid_type_and_length (sd : SegDesc.SegmentationDescriptor)
  (vbs : list (list byte))
  (Hcancel : SegDesc.SegmentationEventCancelIndicator sd = false)
  (Hvalues : valuesOf (SegDesc.SegmentationUPIDs sd) = Some vbs) :
  exists pre tb lb post,
    SegDesc.encode sd = Some (pre ++ tb :: lb :: post, None)
    /\ Z.of_nat (length pre) = upidOffset sd
    /\ match SegDesc.SegmentationUPIDs sd with
       | [] => tb = x00 /\ lb = x00
       | [upid] =>
           exists vb, Upid.valueBytes upid = Some vb
             /\ Z_of_byte tb = Upid.Type' upid mod 256
             /\ Z_of_byte lb = Z.of_nat (length vb) mod 256
       | _ =>
           tb = x0d /\ Z_of_byte lb = midSum vbs mod 256
       end.
Proof.
  destruct (encode_layout sd vbs Hcancel Hvalues) as (pre & values & He & Hpre & _).
  exists pre, (byte_of_Z (outerType (SegDesc.SegmentationUPIDs sd))),
    (byte_of_Z (upidLengthOf vbs)), (values ++ bytes_of_bits (tailBits sd)).
  split; [exact He|]. split; [exact Hpre|].
  destruct (SegDesc.SegmentationUPIDs sd) as [|u [|u' us]] eqn:Hu.
  - injection Hvalues as <-. done.
  - destruct (valuesOf_single u vbs Hvalues) as (vb & Hvb & ->).
    exists vb. cbn [outerType upidLengthOf]. by rewrite !Z_of_byte_of_Z.
  - cbn [outerType]. split; [done|]. rewrite Z_of_byte_of_Z.
    cbn [valuesOf] in Hvalues.
    destruct (Upid.valueBytes u); [|done].
    destruct (Upid.valueBytes u'); [|done].
    destruct (valuesOf us); [|done]. injection Hvalues as <-. done.
Qed.

Lemma C5_upid_type_and_length_witness :
  exists pre tb lb post,
    SegDesc.encode sd_ti_short = Some (pre ++ tb :: lb :: post, None)
    /\ Z.of_nat (length pre) = 12 /\ Z_of_byte tb = 8 /\ Z_of_byte lb = 8.
Proof.
  assert (Hv : valuesOf (SegDesc.SegmentationUPIDs sd_ti_short)
               = Some [[x00; x00; x00; x00; x2c; xa0; xa1; x8a]])
    by (vm_compute; reflexivity).
  destruct (C5_upid_type_and_length sd_ti_short _ eq_refl Hv)
    as (pre & tb & lb & post & He & Hpre & vb & Hvb & Ht & Hl).
  exists pre, tb, lb, post. split; [exact He|]. split; [exact Hpre|].
  assert (Hvb' : Upid.valueBytes upid_ti_short
                 = Some [x00; x00; x00; x00; x2c; xa0; xa1; x8a])
    by (vm_compute; reflexivity).
  change (Upid.valueBytes upid_ti_short = Some vb) in Hvb.
  rewrite Hvb' in Hvb. injection Hvb as <-. split; [exact Ht | exact Hl].
Defined.

(** C5, as stated, fails: the length of a 256-byte value does not fit the
    eight-bit segmentation_upid_length; the byte written at offset 13 is zero,
    not the length of the value. *)
Lemma C5_long_value_length_truncated :
  SegDesc.SegmentationEventCancelIndicator sd_long = false
  /\ SegDesc.SegmentationUPIDs sd_long = [upid_long]
  /\ (exists vb, Upid.valueBytes upid_long = Some vb /\ length vb = 256%nat)
  /\ (exists buf, SegDesc.encode sd_long = Some (buf, None)
                  /\ buf !! 12%nat = Some x0f /\ buf !! 13%nat = Some x00).
Proof.
  split; [reflexivity|]. split; [reflexivity|]. split.
  - eexists. split; reflexivity.
  - eexists. split; [vm_compute; reflexivity|]. split; reflexivity.
Qed.

Lemma be_value_be_bytes (n : nat) (v : Z) :
  be_value (be_bytes n v) = v mod 2 ^ Z.of_nat (8 * n).
Proof.
  unfold be_value, be_bytes.
  rewrite (bits_of_bytes_of_bits n) by apply bits_of_Z_length.
  apply Z_of_bits_of_Z.
Qed.

Lemma valueBytes_TI (upid : Upid.SegmentationUPID) :
  Upid.Type' upid = SegmentationUPIDTypeTI ->
  Upid.valueBytes upid
  = Some (match strconv.Atoi (Upid.Value upid) with
          | Some i => be_bytes 8 (uint64 i)
          | None => repeat x00 8
          end).
Proof. intros H. unfold Upid.valueBytes. rewrite H. reflexivity. Qed.

(** C9. A TI UPID always encodes to eight value bytes: the value of the
    decimal text, big-endian, when [Atoi] accepts the text, eight zero bytes
    otherwise; hence a descriptor whose single UPID is a TI read from a wire
    value of any length is encoded with segmentation_upid_length 8. *)
Theorem C9_ti_value_is_eight_bytes (upid : Upid.SegmentationUPID)
  (buf : list byte) (sd : SegDesc.SegmentationDescriptor)
  (Htype : Upid.Type' upid = SegmentationUPIDTypeTI)
  (Hcancel : SegDesc.SegmentationEventCancelIndicator sd = false)
  (Hupids : SegDesc.SegmentationUPIDs sd
            = [Upid.NewSegmentationUPID SegmentationUPIDTypeTI buf]) :
  (exists vb, Upid.valueBytes upid = Some vb
     /\ length vb = 8%nat
     /\ match strconv.Atoi (Upid.Value upid) with
        | Some i => vb = be_bytes 8 (uint64 i) /\ be_value vb = uint64 i
        | None => vb = repeat x00 8
        end)
  /\ SegDesc.SegmentationUpidLength sd = Some 8
  /\ (exists pre post,
        SegDesc.encode sd = Some (pre ++ x08 :: x08 :: post, None)
        /\ Z.of_nat (length pre) = upidOffset sd).
Proof.
  split; [|split].
  - rewrite (valueBytes_TI upid Htype). eexists. split; [reflexivity|].
    destruct (strconv.Atoi (Upid.Value upid)) as [i|].
    + split; [apply be_bytes_length|]. split; [done|].
      rewrite be_value_be_bytes. unfold uint64, wrap.
      change (2 ^ Z.of_nat (8 * 8)) with (2 ^ 64). by rewrite Z.mod_mod.
    + done.
  - rewrite SegmentationUpidLength_spec, Hupids. cbn [valuesOf].
    rewrite valueBytes_TI by reflexivity. cbn [mbind option_bind option_map upidLengthOf].
    f_equal. destruct (strconv.Atoi _); [by rewrite be_bytes_length | done].
  - set (u := Upid.NewSegmentationUPID SegmentationUPIDTypeTI buf) in *.
    assert (Hvb : exists vb, Upid.valueBytes u = Some vb /\ length vb = 8%nat).
    { rewrite valueBytes_TI by reflexivity. eexists. split; [reflexivity|].
      destruct (strconv.Atoi _); [apply be_bytes_length | done]. }
    destruct Hvb as (vb & Hvb & Hlen).
    assert (Hv : valuesOf (SegDesc.SegmentationUPIDs sd) = Some [vb]).
    { rewrite Hupids. cbn [valuesOf]. by rewrite Hvb. }
    destruct (encode_layout sd [vb] Hcancel Hv) as (pre & values & He & Hpre & _).
    exists pre, (values ++ bytes_of_bits (tailBits sd)).
    split; [|exact Hpre]. rewrite He, Hupids.
    cbn [outerType upidLengthOf]. rewrite Hlen. reflexivity.
Qed.

Lemma C9_ti_value_witness :
  Upid.valueBytes upid_ti_short = Some [x00; x00; x00; x00; x2c; xa0; xa1; x8a]
  /\ SegDesc.SegmentationUpidLength sd_ti_short = Some 8.
Proof.
  destruct (C9_ti_value_is_eight_bytes upid_ti_short [x2c; xa0; xa1; x8a]
              sd_ti_short eq_refl eq_refl eq_refl) as ((vb & Hvb & _ & _) & Hlen & _).
  split; [vm_compute; reflexivity | exact Hlen].
Defined.
Ltac split_pairs :=
  repeat match goal with
    | |- context [let '(_, _) := ?e in _] => destruct e
    end.

Lemma decodeHead_keeps (sd : SegDesc.SegmentationDescriptor) (b : list byte) :
  SegDesc.SubSegmentNum (fst (SegDesc.decodeHead sd b)) = SegDesc.SubSegmentNum sd
  /\ SegDesc.SubSegmentsExpected (fst (SegDesc.decodeHead sd b))
     = SegDesc.SubSegmentsExpected sd.
Proof. done. Qed.

Lemma decodeSegmentation_keeps (sd : SegDesc.SegmentationDescriptor) (r : iobit.Reader) :
  SegDesc.SubSegmentNum (fst (SegDesc.decodeSegmentation sd r)) = SegDesc.SubSegmentNum sd
  /\ SegDesc.SubSegmentsExpected (fst (SegDesc.decodeSegmentation sd r))
     = SegDesc.SubSegmentsExpected sd
  /\ SegDesc.SegmentationEventCancelIndicator (fst (SegDesc.decodeSegmentation sd r))
     = SegDesc.SegmentationEventCancelIndicator sd.
Proof. unfold SegDesc.decodeSegmentation. split_pairs. done. Qed.

Lemma encode_cancelled (sd : SegDesc.SegmentationDescriptor) :
  SegDesc.SegmentationEventCancelIndicator sd = true ->
  exists buf, SegDesc.encode sd = Some (buf, None) /\ length buf = 11%nat.
Proof.
  intros Hc. unfold SegDesc.encode, SegDesc.encodeWriter, SegDesc.length.
  rewrite Hc. cbn [negb mbind option_bind].
  change ((32 + 32 + 1 + 7) / 8) with 9.
  destruct (encodeHead_out sd 9) as [Hl Hcap].
  rewrite Flush_exact by (rewrite Hl, Hcap; done).
  eexists. split; [reflexivity|]. by apply bytes_of_bits_length.
Qed.

(** C4 (as amended). Decoding into a descriptor that has no sub-segment
    fields yet sets both of them exactly when the descriptor is not cancelled,
    segmentation_type_id is 0x34 or 0x36 and sixteen bits are left after
    segments_expected, and leaves both absent otherwise.  On encoding a
    descriptor that is not cancelled, each of the two bytes follows
    segments_expected exactly when its field is present; a cancelled
    descriptor is encoded without either byte. *)
Theorem C4_sub_segment_fields (sd : SegDesc.SegmentationDescriptor) (b : list byte)
  (Hnum : SegDesc.SubSegmentNum sd = None)
  (Hexp : SegDesc.SubSegmentsExpected sd = None) :
  let sd0 := fst (SegDesc.decodeHead sd b) in
  let r0 := snd (SegDesc.decodeHead sd b) in
  let sd1 := fst (SegDesc.decodeSegmentation sd0 r0) in
  let r1 := snd (SegDesc.decodeSegmentation sd0 r0) in
  let sd' := fst (SegDesc.decode sd b) in
  let present :=
    SegDesc.SegmentationEventCancelIndicator sd0 = false
    /\ (SegDesc.SegmentationTypeID sd1 = 0x34 \/ SegDesc.SegmentationTypeID sd1 = 0x36)
    /\ iobit.LeftBits r1 = 16%nat in
  (present ->
     SegDesc.SubSegmentNum sd' = Some (fst (iobit.Uint32 8 r1))
     /\ SegDesc.SubSegmentsExpected sd' = Some (fst (iobit.Uint32 8 (iobit.Skip 8 r1))))
  /\ (~ present ->
      SegDesc.SubSegmentNum sd' = None /\ SegDesc.SubSegmentsExpected sd' = None)
  /\ (forall sde vbs,
        SegDesc.SegmentationEventCancelIndicator sde = false ->
        valuesOf (SegDesc.SegmentationUPIDs sde) = Some vbs ->
        exists body,
          SegDesc.encode sde
          = Some (body ++ [byte_of_Z (SegDesc.SegmentationTypeID sde);
                           byte_of_Z (SegDesc.SegmentNum sde);
                           byte_of_Z (SegDesc.SegmentsExpected sde)]
                       ++ optionalField (SegDesc.SubSegmentNum sde)
                       ++ optionalField (SegDesc.SubSegmentsExpected sde), None)
          /\ Z.of_nat (length body) = upidOffset sde + 2 + upidLengthOf vbs)
  /\ (forall sde,
        SegDesc.SegmentationEventCancelIndicator sde = true ->
        exists buf, SegDesc.encode sde = Some (buf, None) /\ length buf = 11%nat).
Proof.
  intros sd0 r0 sd1 r1 sd' present.
  assert (Hdec : sd' = if negb (SegDesc.SegmentationEventCancelIndicator sd0)
                       then fst (SegDesc.decodeSubSegments sd1 r1) else sd0).
  { unfold sd', SegDesc.decode, sd1, r1, sd0, r0.
    destruct (SegDesc.decodeHead sd b) as [s0 q0]. cbn [fst snd].
    destruct (negb (SegDesc.SegmentationEventCancelIndicator s0)).
    - destruct (SegDesc.decodeSegmentation s0 q0) as [s1 q1]. cbn [fst snd].
      destruct (SegDesc.decodeSubSegments s1 q1) as [s2 q2].
      by destruct (readerError q2).
    - by destruct (readerError q0). }
  destruct (decodeHead_keeps sd b) as [K0n K0e].
  destruct (decodeSegmentation_keeps sd0 r0) as (K1n & K1e & K1c).
  fold sd0 in K0n, K0e. fold sd1 in K1n, K1e, K1c.
  assert (Habsent : SegDesc.SubSegmentNum sd1 = None
                    /\ SegDesc.SubSegmentsExpected sd1 = None
                    /\ SegDesc.SubSegmentNum sd0 = None
                    /\ SegDesc.SubSegmentsExpected sd0 = None).
  { repeat split; congruence. }
  destruct Habsent as (A1 & A2 & A3 & A4).
  split; [|split; [|split]].
  - intros (Hc & Ht & Hl). rewrite Hdec, Hc. cbn [negb].
    unfold SegDesc.decodeSubSegments.
    assert (Hty : (SegDesc.SegmentationTypeID sd1 =? SegmentationTypeProviderPOStart)
                  || (SegDesc.SegmentationTypeID sd1 =? SegmentationTypeDistributorPOStart)
                  = true).
    { destruct Ht as [-> | ->]; reflexivity. }
    rewrite Hty, Hl. cbn [Nat.eqb]. unfold iobit.Uint32.
    cbn [fst snd SegDesc.SubSegmentNum SegDesc.SubSegmentsExpected].
    split; reflexivity.
  - intros Hnot. rewrite Hdec.
    destruct (SegDesc.SegmentationEventCancelIndicator sd0) eqn:Hc; cbn [negb]; [done|].
    unfold SegDesc.decodeSubSegments.
    destruct ((SegDesc.SegmentationTypeID sd1 =? SegmentationTypeProviderPOStart)
              || (SegDesc.SegmentationTypeID sd1 =? SegmentationTypeDistributorPOStart))
      eqn:Hty; [|done].
    destruct (Nat.eqb_spec (iobit.LeftBits r1) 16) as [Hl|Hl]; [|done].
    exfalso. apply Hnot. split; [done|]. split; [|done].
    apply orb_true_iff in Hty as [H|H]; apply Z.eqb_eq in H; [by left | by right].
  - intros sde vbs Hc Hv.
    destruct (encode_layout sde vbs Hc Hv) as (pre & values & He & Hpre & Hval).
    exists (pre ++ byte_of_Z (outerType (SegDesc.SegmentationUPIDs sde))
                :: byte_of_Z (upidLengthOf vbs) :: values).
    split.
    + rewrite He, tailBits_bytes. f_equal. f_equal.
      rewrite <- !app_assoc. cbn [app]. done.
    + rewrite length_app. cbn [length]. lia.
  - apply encode_cancelled.
Qed.

Lemma C4_sub_segment_fields_witness :
  SegDesc.SubSegmentNum (fst (SegDesc.decode SegDesc.zero sd_wire_subsegments)) = Some 3
  /\ SegDesc.SubSegmentsExpected (fst (SegDesc.decode SegDesc.zero sd_wire_subsegments))
     = Some 4.
Proof.
  destruct (C4_sub_segment_fields SegDesc.zero sd_wire_subsegments eq_refl eq_refl)
    as (H & _).
  assert (Hp : SegDesc.SegmentationEventCancelIndicator
                 (fst (SegDesc.decodeHead SegDesc.zero sd_wire_subsegments)) = false
               /\ (SegDesc.SegmentationTypeID
                     (fst (SegDesc.decodeSegmentation
                             (fst (SegDesc.decodeHead SegDesc.zero sd_wire_subsegments))
                             (snd (SegDesc.decodeHead SegDesc.zero sd_wire_subsegments))))
                   = 0x34
                   \/ SegDesc.SegmentationTypeID
                        (fst (SegDesc.decodeSegmentation
                                (fst (SegDesc.decodeHead SegDesc.zero sd_wire_subsegments))
                                (snd (SegDesc.decodeHead SegDesc.zero sd_wire_subsegments))))
                      = 0x36)
               /\ iobit.LeftBits
                    (snd (SegDesc.decodeSegmentation
                            (fst (SegDesc.decodeHead SegDesc.zero sd_wire_subsegments))
                            (snd (SegDesc.decodeHead SegDesc.zero sd_wire_subsegments))))
                  = 16%nat).
  { split; [vm_compute; reflexivity|]. split; [left|]; vm_compute; reflexivity. }
  destruct (H Hp) as [H1 H2]. split.
  - rewrite H1. vm_compute. reflexivity.
  - rewrite H2. vm_compute. reflexivity.
Defined.

(** C4, as stated, fails on encode: a cancelled descriptor whose two
    sub-segment fields are present is encoded without either byte, to the very
    bytes of the descriptor without the fields. *)
Lemma C4_cancelled_fields_not_written :
  SegDesc.SubSegmentNum sd_cancelled = Some 1
  /\ SegDesc.SubSegmentsExpected sd_cancelled = Some 2
  /\ SegDesc.encode sd_cancelled
     = Some ([x02; x09; x43; x55; x45; x49; x00; x00; x00; x01; xff], None)
  /\ SegDesc.encode sd_cancelled = SegDesc.encode sd_cancelled_bare.
Proof. repeat split; vm_compute; reflexivity. Qed.

(** ** The demultiplexer: duplicate payloads *)

Lemma list_byte_eqb_refl (l : list byte) : list_byte_eqb l l = true.
Proof.
  induction l as [|b l IH]; [done|]. simpl.
  rewrite (Byte.byte_dec_lb eq_refl). exact IH.
Qed.

Lemma sameAsLast_same (st : Stream.t) (pay : list byte) (pid : Z) :
  Stream.last st !! pid = Some pay -> Stream.sameAsLast st pay pid = (true, st).
Proof.
  intros H. unfold Stream.sameAsLast. rewrite H. by rewrite list_byte_eqb_refl.
Qed.

Lemma sectionDone_setLast (st : Stream.t) (m : gmap Z (list byte))
  (pay : list byte) (pid seclen : Z) :
  Stream.sectionDone (Stream.setLast st m) pay pid seclen
  = (fst (Stream.sectionDone st pay pid seclen),
     Stream.setLast (snd (Stream.sectionDone st pay pid seclen)) m).
Proof.
  unfold Stream.sectionDone.
  by destruct (uint16 (Z.of_nat (length pay)) <? uint16 (seclen + 3)).
Qed.

(** C7 (as amended). The PAT and PMT handlers skip a payload that equals the
    payload recorded last for the PID: they return with the stream unchanged.
    The SCTE-35 handler neither reads nor writes the table of last payloads,
    so what it does with a payload does not depend on what was seen before on
    the PID. *)
Theorem C7_duplicate_payload_suppression (st : Stream.t) (pay : list byte)
  (pid : Z) (m : gmap Z (list byte)) :
  (Stream.last st !! pid = Some pay ->
     Stream.parsePAT st pay pid = Some st /\ Stream.parsePMT st pay pid = Some st)
  /\ Stream.parseScte35 (Stream.setLast st m) pay pid
     = (fun s => Stream.setLast s m) <$> Stream.parseScte35 st pay pid.
Proof.
  split.
  - intros H. unfold Stream.parsePAT, Stream.parsePMT.
    rewrite (sameAsLast_same st pay pid H). done.
  - unfold Stream.parseScte35.
    change (Stream.checkPartial (Stream.setLast st m) pay pid [xfc; "0"%byte])
      with (Stream.checkPartial st pay pid [xfc; "0"%byte]).
    set (p := Stream.checkPartial st pay pid [xfc; "0"%byte]).
    destruct (length p =? 0)%nat; [done|].
    destruct (Stream.at_ p 1) as [b1|]; [|done].
    destruct (Stream.at_ p 2) as [b2|]; [|done].
    cbn [mbind option_bind].
    rewrite sectionDone_setLast.
    destruct (Stream.sectionDone st p pid (Stream.parseLength b1 b2)) as [[|] st'];
      done.
Qed.

Lemma C7_duplicate_payload_witness :
  exists st, Stream.decodePackets Stream.init [pat_packet] = Some st
    /\ Stream.last st !! 0 = Some (drop 4 pat_packet)
    /\ Stream.parsePAT st (drop 4 pat_packet) 0 = Some st.
Proof.
  assert (H : exists st, Stream.decodePackets Stream.init [pat_packet] = Some st
                         /\ Stream.last st !! 0 = Some (drop 4 pat_packet)).
  { eexists. split; [vm_compute; reflexivity|]. vm_compute. reflexivity. }
  destruct H as (st & Hrun & Hlast).
  exists st. split; [exact Hrun|]. split; [exact Hlast|].
  destruct (C7_duplicate_payload_suppression st (drop 4 pat_packet) 0 ∅) as [H _].
  exact (proj1 (H Hlast)).
Defined.

(** C7, as stated, fails for SCTE-35 PIDs: the same packet twice in a row on
    a SCTE-35 PID has its section reassembled and handed to the decoder twice
    (packets 3 and 4), and no payload is recorded for that PID. *)
Lemma C7_repeated_section_parsed_twice :
  exists st, Stream.decodePackets Stream.init repeated_section_stream = Some st
    /\ PIDs.SCTE35PIDs (Stream.pids st) = [0x102]
    /\ Stream.printed st
       = [Stream.mkOutput 3 0x102 1 0 0 heartbeat_payload;
          Stream.mkOutput 4 0x102 1 0 0 heartbeat_payload]
    /\ take 20 heartbeat_payload = heartbeat
    /\ Stream.last st !! 0x102 = None.
Proof.
  eexists. split; [vm_compute; reflexivity|].
  repeat split; vm_compute; reflexivity.
Qed.

(** ** The section: errors of [Decode] *)

Section SectionDecode.

Context {C D : Type} `{SpliceCommand C} `{SpliceDescriptor D}.






End SectionDecode.





(** ** The section: what [Encode] writes *)

Lemma peek_in_range (n : nat) (r : iobit.Reader) :
  (iobit.idx r + n <= iobit.size r)%nat ->
  iobit.peek n r = take n (drop (iobit.idx r) (bits_of_bytes (iobit.src r))).
Proof.
  intros Hle. unfold iobit.peek. apply take_app_le.
  rewrite length_drop, bits_of_bytes_length. unfold iobit.size in Hle. lia.
Qed.

Lemma peek_length (n : nat) (r : iobit.Reader) : length (iobit.peek n r) = n.
Proof.
  unfold iobit.peek. rewrite length_take, length_app, repeat_length. lia.
Qed.

Lemma uint32_small (x : Z) : 0 <= x < 2 ^ 32 -> uint32 x = x.
Proof. intros Hx. unfold uint32, wrap. by apply Z.mod_small. Qed.


(** Writing back what was read gives the bits that were read. *)
Lemma readUint32_bits (off n : nat) (b : list byte) :
  (n <= 32)%nat -> (off + n <= 8 * length b)%nat ->
  bits_of_Z n (readUint32 off n b) = take n (drop off (bits_of_bytes b)).
Proof.
  intros Hn Hle. unfold readUint32, iobit.Uint32. cbn [fst].
  pose proof (Z_of_bits_range (iobit.peek n (iobit.mkReader b off))) as Hr.
  rewrite peek_length in Hr.
  assert (2 ^ Z.of_nat n <= 2 ^ 32) by (apply Z.pow_le_mono_r; lia).
  rewrite uint32_small by lia.
  rewrite <- (peek_length n (iobit.mkReader b off)) at 1.
  rewrite bits_of_Z_of_bits. by apply peek_in_range.
Qed.

Lemma readUint64_bits (off n : nat) (b : list byte) :
  (n <= 64)%nat -> (off + n <= 8 * length b)%nat ->
  bits_of_Z n (readUint64 off n b) = take n (drop off (bits_of_bytes b)).
Proof.
  intros Hn Hle. unfold readUint64, iobit.Uint64. cbn [fst].
  pose proof (Z_of_bits_range (iobit.peek n (iobit.mkReader b off))) as Hr.
  rewrite peek_length in Hr.
  assert (2 ^ Z.of_nat n <= 2 ^ 64) by (apply Z.pow_le_mono_r; lia).
  unfold uint64, wrap. rewrite Z.mod_small by lia.
  rewrite <- (peek_length n (iobit.mkReader b off)) at 1.
  rewrite bits_of_Z_of_bits. by apply peek_in_range.
Qed.


Lemma bits_of_bytes_take (n : nat) (l : list byte) :
  bits_of_bytes (take n l) = take (8 * n) (bits_of_bytes l).
Proof.
  revert l. induction n as [|n IH]; intros l; [done|].
  destruct l as [|x l]; [done|].
  change (bits_of_bytes (take (S n) (x :: l)))
    with (bits_of_byte x ++ bits_of_bytes (take n l)).
  change (bits_of_bytes (x :: l)) with (bits_of_byte x ++ bits_of_bytes l).
  rewrite IH. replace (8 * S n)%nat with (8 + 8 * n)%nat by lia.
  rewrite take_app_add' by (by rewrite bits_of_byte_length). done.
Qed.

Lemma bits_of_bytes_drop (n : nat) (l : list byte) :
  bits_of_bytes (drop n l) = drop (8 * n) (bits_of_bytes l).
Proof.
  revert l. induction n as [|n IH]; intros l; [done|].
  destruct l as [|x l]; [done|].
  change (bits_of_bytes (x :: l)) with (bits_of_byte x ++ bits_of_bytes l).
  replace (8 * S n)%nat with (8 + 8 * n)%nat by lia.
  rewrite drop_app_add' by (by rewrite bits_of_byte_length).
  apply IH.
Qed.





Section SectionEncode.

Context {C D : Type} `{SpliceCommand C} `{SpliceDescriptor D}.


End SectionEncode.

Section SectionRoundTrip.

Context {C D : Type} `{SpliceCommand C} `{SpliceDescriptor D}.




End SectionRoundTrip.




Section SectionLength.

Context {C D : Type} `{SpliceCommand C} `{SpliceDescriptor D}.


End SectionLength.

Section SectionStuffing.

Context {C D : Type} `{SpliceCommand C} `{SpliceDescriptor D}.



End SectionStuffing.







(** ** PID collections: lookup after add and delete *)

Lemma isIn16_snoc (l : list Z) (v q : Z) :
  PIDs.isIn16 (l ++ [v]) q = PIDs.isIn16 l q || (q =? v).
Proof.
  induction l as [|a l IH]; simpl.
  - rewrite Z.eqb_sym. by destruct (q =? v).
  - destruct (a =? q); [done | exact IH].
Qed.

Lemma isIn16_filter (l : list Z) (pid q : Z) :
  PIDs.isIn16 (filter (fun v => v ≠ pid) l) q = PIDs.isIn16 l q && negb (q =? pid).
Proof.
  induction l as [|a l IH]; [done|].
  destruct (decide (a = pid)) as [->|Hne].
  - rewrite filter_cons_False by (intros H; by apply H). rewrite IH. simpl.
    destruct (Z.eqb_spec pid q) as [->|Hq]; [|done].
    rewrite Z.eqb_refl. simpl. by rewrite andb_false_r.
  - rewrite filter_cons_True by done. simpl. rewrite IH.
    destruct (Z.eqb_spec a q) as [->|Hq]; [|done].
    destruct (Z.eqb_spec q pid); [contradiction | done].
Qed.

Lemma isSCTE35PID_add (p : PIDs.t) (pid q : Z) :
  PIDs.isSCTE35PID (PIDs.addSCTE35PID p pid) q = PIDs.isSCTE35PID p q || (q =? pid).
Proof.
  unfold PIDs.addSCTE35PID, PIDs.isSCTE35PID.
  destruct (PIDs.isIn16 (PIDs.SCTE35PIDs p) pid) eqn:E; simpl.
  - destruct (Z.eqb_spec q pid) as [->|]; [by rewrite E | by rewrite orb_false_r].
  - apply isIn16_snoc.
Qed.

Lemma isSCTE35PID_del (p : PIDs.t) (pid q : Z) :
  PIDs.isSCTE35PID (PIDs.delSCTE35PID p pid) q
  = PIDs.isSCTE35PID p q && negb (q =? pid).
Proof. unfold PIDs.isSCTE35PID. rewrite delSCTE35PID_filter. apply isIn16_filter. Qed.

(** X1. A PID is a member after an add exactly when it was one before or is the
    PID added, and an add to one collection leaves the other two alone. *)
Theorem pids_lookup_after_add (p : PIDs.t) (pid q : Z) :
  PIDs.isPMTPID (PIDs.addPMTPID p pid) q = PIDs.isPMTPID p q || (q =? pid)
  /\ PIDs.isPCRPID (PIDs.addPCRPID p pid) q = PIDs.isPCRPID p q || (q =? pid)
  /\ PIDs.isSCTE35PID (PIDs.addSCTE35PID p pid) q = PIDs.isSCTE35PID p q || (q =? pid)
  /\ PIDs.PCRPIDs (PIDs.addPMTPID p pid) = PIDs.PCRPIDs p
  /\ PIDs.SCTE35PIDs (PIDs.addPMTPID p pid) = PIDs.SCTE35PIDs p
  /\ PIDs.PMTPIDs (PIDs.addPCRPID p pid) = PIDs.PMTPIDs p
  /\ PIDs.SCTE35PIDs (PIDs.addPCRPID p pid) = PIDs.SCTE35PIDs p
  /\ PIDs.PMTPIDs (PIDs.addSCTE35PID p pid) = PIDs.PMTPIDs p
  /\ PIDs.PCRPIDs (PIDs.addSCTE35PID p pid) = PIDs.PCRPIDs p.
Proof.
  split; [|split; [|split; [apply isSCTE35PID_add|]]].
  - unfold PIDs.addPMTPID, PIDs.isPMTPID.
    destruct (PIDs.isIn16 (PIDs.PMTPIDs p) pid) eqn:E; simpl.
    + destruct (Z.eqb_spec q pid) as [->|]; [by rewrite E | by rewrite orb_false_r].
    + apply isIn16_snoc.
  - unfold PIDs.addPCRPID, PIDs.isPCRPID.
    destruct (PIDs.isIn16 (PIDs.PCRPIDs p) pid) eqn:E; simpl.
    + destruct (Z.eqb_spec q pid) as [->|]; [by rewrite E | by rewrite orb_false_r].
    + apply isIn16_snoc.
  - unfold PIDs.addPMTPID, PIDs.addPCRPID, PIDs.addSCTE35PID.
    destruct (PIDs.isPMTPID p pid), (PIDs.isPCRPID p pid), (PIDs.isSCTE35PID p pid);
      done.
Qed.

(** X2. After [delSCTE35PID] the PID is gone, whatever the slice held, and the
    membership of every other PID in the three collections is as before. *)
Theorem pids_lookup_after_del (p : PIDs.t) (pid q : Z) :
  PIDs.isSCTE35PID (PIDs.delSCTE35PID p pid) q
  = PIDs.isSCTE35PID p q && negb (q =? pid)
  /\ PIDs.isSCTE35PID (PIDs.delSCTE35PID p pid) pid = false
  /\ PIDs.isPMTPID (PIDs.delSCTE35PID p pid) q = PIDs.isPMTPID p q
  /\ PIDs.isPCRPID (PIDs.delSCTE35PID p pid) q = PIDs.isPCRPID p q.
Proof.
  split; [apply isSCTE35PID_del|]. split.
  - rewrite isSCTE35PID_del, Z.eqb_refl. apply andb_false_r.
  - unfold PIDs.isPMTPID, PIDs.isPCRPID.
    by destruct (delSCTE35PID_others p pid) as [-> ->].
Qed.

(** X3. Deleting a PID that was just added to a collection that did not hold it
    gives the collection back. *)
Theorem pids_del_after_add (p : PIDs.t) (pid : Z) :
  PIDs.isSCTE35PID p pid = false ->
  PIDs.delSCTE35PID (PIDs.addSCTE35PID p pid) pid = p.
Proof.
  intros Hno.
  assert (Hfilter : forall l : list Z, pid ∉ l -> filter (fun v => v ≠ pid) l = l).
  { induction l as [|a l IH]; [done|]. intros Hin.
    rewrite filter_cons_True by (intros ->; apply Hin; left).
    f_equal. apply IH. intros H. apply Hin. by right. }
  pose proof (delSCTE35PID_filter (PIDs.addSCTE35PID p pid) pid) as Hs.
  destruct (delSCTE35PID_others (PIDs.addSCTE35PID p pid) pid) as [Hm Hc].
  destruct (PIDs.delSCTE35PID (PIDs.addSCTE35PID p pid) pid) as [m c s].
  cbn [PIDs.PMTPIDs PIDs.PCRPIDs PIDs.SCTE35PIDs] in *. subst m c s.
  unfold PIDs.addSCTE35PID. rewrite Hno. cbn [negb PIDs.PMTPIDs PIDs.PCRPIDs PIDs.SCTE35PIDs].
  rewrite filter_app, Hfilter by (by apply isIn16_false).
  rewrite filter_cons_False by (intros H; by apply H).
  rewrite filter_nil, app_nil_r. by destruct p.
Qed.

Lemma pids_del_after_add_witness :
  PIDs.isSCTE35PID pids_example 260 = false
  /\ PIDs.delSCTE35PID (PIDs.addSCTE35PID pids_example 260) 260 = pids_example.
Proof.
  assert (H : PIDs.isSCTE35PID pids_example 260 = false) by reflexivity.
  exact (conj H (pids_del_after_add pids_example 260 H)).
Defined.

(** ** The demultiplexer: header fields *)

Lemma lor_shiftl_byte (a b : Z) :
  0 <= a -> 0 <= b < 256 -> Z.lor (Z.shiftl a 8) b = a * 256 + b.
Proof.
  intros Ha Hb. rewrite Z.shiftl_mul_pow2 by lia. change (2 ^ 8) with 256.
  rewrite <- Z.lxor_lor, <- Z.add_nocarry_lxor; [done | |].
  all: apply Z.bits_inj'; intros n Hn; rewrite Z.land_spec, Z.bits_0.
  all: destruct (Z.lt_ge_cases n 8) as [Hlt|Hge].
  all: try (replace (a * 256) with (a * 2 ^ 8) by lia;
            rewrite Z.mul_pow2_bits_low by lia; done).
  all: rewrite (Z.bits_above_log2 b n), andb_false_r; [done | lia |].
  all: destruct (Z.eq_dec b 0) as [->|Hnz]; [simpl; lia|].
  all: apply Z.log2_lt_pow2; [lia|].
  all: apply Z.lt_le_trans with (2 ^ 8); [lia | apply Z.pow_le_mono_r; lia].
Qed.

Lemma land_low_bits (a : Z) (n : Z) : 0 <= n -> Z.land a (2 ^ n - 1) = a mod 2 ^ n.
Proof.
  intros Hn. replace (2 ^ n - 1) with (Z.ones n) by (rewrite Z.ones_equiv; lia).
  by apply Z.land_ones.
Qed.

Lemma parseLength_bytes (b1 b2 : Z) :
  0 <= b1 < 256 -> 0 <= b2 < 256 ->
  Stream.parseLength b1 b2 = b1 mod 16 * 256 + b2.
Proof.
  intros H1 H2. pose proof (Z.mod_pos_bound b1 16 ltac:(lia)) as M16.
  unfold Stream.parseLength, uint16, wrap.
  change 15 with (2 ^ 4 - 1). rewrite land_low_bits by lia. change (2 ^ 4) with 16.
  change (2 ^ 16) with 65536.
  rewrite (Z.mod_small (b1 mod 16)), (Z.mod_small b2) by lia.
  apply lor_shiftl_byte; lia.
Qed.

Lemma parsePID_bytes (b1 b2 : Z) :
  0 <= b1 < 256 -> 0 <= b2 < 256 ->
  Stream.parsePID b1 b2 = b1 mod 32 * 256 + b2.
Proof.
  intros H1 H2. pose proof (Z.mod_pos_bound b1 32 ltac:(lia)) as M32.
  unfold Stream.parsePID, uint16, wrap.
  change 31 with (2 ^ 5 - 1). rewrite land_low_bits by lia. change (2 ^ 5) with 32.
  change (2 ^ 16) with 65536.
  rewrite (Z.mod_small (b1 mod 32)), (Z.mod_small b2) by lia.
  apply lor_shiftl_byte; lia.
Qed.

(** X4. The two header bytes hold a 12-bit length, a 13-bit PID or a 16-bit
    program number, most significant byte first; the bits above them in the
    first byte are dropped. *)
Theorem header_fields_of_bytes (b1 b2 : Z) :
  0 <= b1 < 256 -> 0 <= b2 < 256 ->
  Stream.parseLength b1 b2 = b1 mod 16 * 256 + b2
  /\ Stream.parsePID b1 b2 = b1 mod 32 * 256 + b2
  /\ Stream.parseProgram b1 b2 = b1 * 256 + b2
  /\ 0 <= Stream.parseLength b1 b2 < 4096
  /\ 0 <= Stream.parsePID b1 b2 < 8192.
Proof.
  intros H1 H2.
  pose proof (Z.mod_pos_bound b1 16 ltac:(lia)) as M16.
  pose proof (Z.mod_pos_bound b1 32 ltac:(lia)) as M32.
  pose proof (parseLength_bytes b1 b2 H1 H2) as HL.
  pose proof (parsePID_bytes b1 b2 H1 H2) as HP.
  split; [exact HL|]. split; [exact HP|]. split.
  - unfold Stream.parseProgram, uint16, wrap. change (2 ^ 16) with 65536.
    rewrite (Z.mod_small b1), (Z.mod_small b2) by lia.
    rewrite (Z.mod_small (Z.shiftl b1 8))
      by (rewrite Z.shiftl_mul_pow2 by lia; change (2 ^ 8) with 256; lia).
    apply lor_shiftl_byte; lia.
  - rewrite HL, HP. lia.
Qed.

Lemma header_fields_witness :
  Stream.parsePID 0xE1 0x02 = 0x102 /\ Stream.parseLength 0xB0 0x0D = 13.
Proof.
  destruct (header_fields_of_bytes 0xE1 0x02 ltac:(lia) ltac:(lia)) as (_ & HP & _).
  destruct (header_fields_of_bytes 0xB0 0x0D ltac:(lia) ltac:(lia)) as (HL & _).
  rewrite HP, HL. split; reflexivity.
Defined.

(** ** The demultiplexer: payloads and sections *)

Lemma hasPrefix_spec (sep l : list byte) :
  Stream.hasPrefix sep l = true <-> sep `prefix_of` l.
Proof.
  revert l. induction sep as [|s sep IH]; intros l; simpl.
  - split; [intros _; apply prefix_nil | done].
  - destruct l as [|x l].
    + split; [discriminate | intros [k Hk]; discriminate].
    + rewrite andb_true_iff, IH. split.
      * intros [Hs Hp]. apply Byte.byte_dec_bl in Hs. subst. by apply prefix_cons.
      * intros [k Hk]. injection Hk as -> ->. split.
        -- by apply Byte.byte_dec_lb.
        -- by exists k.
Qed.

Lemma splitByIndex_occurrence (payload sep : list byte) :
  (forall a c, payload = a ++ sep ++ c ->
     exists a', payload = a' ++ Stream.splitByIndex payload sep
       /\ (length a' <= length a)%nat
       /\ sep `prefix_of` Stream.splitByIndex payload sep)
  /\ ((forall a c, payload <> a ++ sep ++ c) -> Stream.splitByIndex payload sep = []).
Proof.
  induction payload as [|x payload [IH1 IH2]].
  - split.
    + intros a c H. symmetry in H.
      apply app_eq_nil in H as [-> H]. apply app_eq_nil in H as [-> ->].
      exists []. simpl. repeat split; [lia | apply prefix_nil].
    + intros _. simpl. by destruct (Stream.hasPrefix sep []).
  - simpl. destruct (Stream.hasPrefix sep (x :: payload)) eqn:Hp.
    + apply hasPrefix_spec in Hp. split.
      * intros a c _. exists []. simpl. repeat split; [lia | done].
      * intros Hno. destruct Hp as [k Hk]. exfalso. apply (Hno [] k). by rewrite Hk.
    + split.
      * intros a c H. destruct a as [|y a].
        -- exfalso. assert (Stream.hasPrefix sep (x :: payload) = true); [|congruence].
           apply hasPrefix_spec. exists c. by rewrite H.
        -- injection H as -> H. destruct (IH1 a c H) as (a' & Ha' & Hlen & Hpre).
           exists (y :: a'). simpl. repeat split; [by f_equal | lia | done].
      * intros Hno. apply IH2. intros a c H. apply (Hno (x :: a) c). by rewrite H.
Qed.

(** X5. [splitByIndex] returns the payload from the first place where the
    separator occurs, and nothing when it does not occur. *)
Theorem splitByIndex_first_occurrence (payload sep : list byte) :
  (forall a c, payload = a ++ sep ++ c ->
     exists a', payload = a' ++ Stream.splitByIndex payload sep
       /\ (length a' <= length a)%nat
       /\ sep `prefix_of` Stream.splitByIndex payload sep)
  /\ ((forall a c, payload <> a ++ sep ++ c) -> Stream.splitByIndex payload sep = []).
Proof. apply splitByIndex_occurrence. Qed.

Lemma splitByIndex_witness :
  exists a', [x01; x00; x00; x02] = a' ++ Stream.splitByIndex [x01; x00; x00; x02] [x00; x00]
    /\ (length a' <= 1)%nat
    /\ [x00; x00] `prefix_of` Stream.splitByIndex [x01; x00; x00; x02] [x00; x00].
Proof.
  exact (proj1 (splitByIndex_first_occurrence [x01; x00; x00; x02] [x00; x00])
           [x01] [x02] eq_refl).
Defined.

Lemma at_in_range (b : list byte) (i : Z) :
  0 <= i < Z.of_nat (length b) ->
  exists v, Stream.at_ b i = Some v /\ 0 <= v < 256.
Proof.
  intros Hi. unfold Stream.at_.
  destruct (lookup_lt_is_Some_2 b (Z.to_nat i)) as [x Hx]; [lia|].
  exists (Z_of_byte x). rewrite Hx. split; [done | apply Z_of_byte_range].
Qed.

Lemma at_out_of_range (b : list byte) (i : Z) :
  Z.of_nat (length b) <= i -> Stream.at_ b i = None.
Proof.
  intros Hi. unfold Stream.at_. rewrite lookup_ge_None_2; [done | lia].
Qed.

Lemma parsePayload_of_packet (pkt : list byte) :
  length pkt = 188%nat ->
  exists pay, Stream.parsePayload pkt = Some pay
    /\ pay `suffix_of` pkt /\ (length pay <= 184)%nat.
Proof.
  intros Hlen. unfold Stream.parsePayload.
  destruct (at_in_range pkt 3) as (b3 & -> & _); [lia|].
  destruct (at_in_range pkt 4) as (b4 & Hb4 & Hr4); [lia|].
  cbn [mbind option_bind].
  assert (Hfrom : forall head, 4 <= head ->
    exists pay,
      Stream.from pkt (if Stream.packetSize <? head then Stream.packetSize else head)
      = Some pay /\ pay `suffix_of` pkt /\ (length pay <= 184)%nat).
  { intros head Hh. unfold Stream.from, Stream.packetSize.
    destruct (Z.ltb_spec 188 head).
    - destruct (Z.leb_spec 188 (Z.of_nat (length pkt))); [|lia].
      eexists. split; [reflexivity|]. split; [apply suffix_drop|].
      rewrite length_drop. lia.
    - destruct (Z.leb_spec head (Z.of_nat (length pkt))); [|lia].
      eexists. split; [reflexivity|]. split; [apply suffix_drop|].
      rewrite length_drop. lia. }
  destruct (Z.land (Z.shiftr b3 5) 1 =? 1).
  - rewrite Hb4. cbn [mbind option_bind]. apply Hfrom. lia.
  - cbn [mbind option_bind]. apply Hfrom. lia.
Qed.

Lemma adaptation_flag (c : byte) :
  (Z.land (Z.shiftr (Z_of_byte c) 5) 1 =? 1) = Z.testbit (Z_of_byte c) 5.
Proof. by destruct c. Qed.

Lemma parsePayload_exact (pkt : list byte) (b3 b4 : byte) :
  length pkt = 188%nat ->
  pkt !! 3%nat = Some b3 -> pkt !! 4%nat = Some b4 ->
  Stream.parsePayload pkt
  = Some (drop (if Z.testbit (Z_of_byte b3) 5
                then Nat.min 188 (5 + Z.to_nat (Z_of_byte b4))
                else 4) pkt).
Proof.
  intros Hlen H3 H4. unfold Stream.parsePayload, Stream.at_.
  change (Z.to_nat 3) with 3%nat. change (Z.to_nat 4) with 4%nat.
  rewrite H3, H4. cbn [fmap option_fmap option_map mbind option_bind].
  rewrite adaptation_flag. pose proof (Z_of_byte_range b4) as Hr.
  unfold Stream.from, Stream.packetSize.
  destruct (Z.testbit (Z_of_byte b3) 5); cbn [mbind option_bind].
  - destruct (Z.ltb_spec 188 (4 + (Z_of_byte b4 + 1))).
    + destruct (Z.leb_spec 188 (Z.of_nat (length pkt))); [|lia].
      do 2 f_equal. lia.
    + destruct (Z.leb_spec (4 + (Z_of_byte b4 + 1)) (Z.of_nat (length pkt))); [|lia].
      do 2 f_equal. lia.
  - change (188 <? 4) with false. cbv iota.
    destruct (Z.leb_spec 4 (Z.of_nat (length pkt))); [done | lia].
Qed.

(** X6. The payload of a full packet is what follows the four bytes of the
    header, or, when bit 5 of the fourth byte announces an adaptation field,
    what follows the header, the length byte of the field and as many bytes
    as that byte says; a field that reaches the end of the packet or claims
    more than the packet holds leaves an empty payload.  The call never
    fails on a full packet. *)
Theorem parsePayload_full_packet (pkt : list byte) (b3 b4 : byte) :
  length pkt = 188%nat ->
  pkt !! 3%nat = Some b3 -> pkt !! 4%nat = Some b4 ->
  Stream.parsePayload pkt
  = Some (drop (if Z.testbit (Z_of_byte b3) 5
                then Nat.min 188 (5 + Z.to_nat (Z_of_byte b4))
                else 4) pkt)
  /\ (Z.testbit (Z_of_byte b3) 5 = true -> 183 <= Z_of_byte b4 ->
      Stream.parsePayload pkt = Some []).
Proof.
  intros Hlen H3 H4. split; [by apply parsePayload_exact|].
  intros Hf Hb. rewrite (parsePayload_exact pkt b3 b4 Hlen H3 H4), Hf.
  f_equal. apply drop_ge. lia.
Qed.

Lemma parsePayload_witness :
  let pkt := take 188 ([x47; x40; x00; x30; x07] ++ repeat xff 188) in
  length pkt = 188%nat
  /\ pkt !! 3%nat = Some x30 /\ pkt !! 4%nat = Some x07
  /\ Stream.parsePayload pkt = Some (drop 12 pkt).
Proof.
  intros pkt.
  assert (Hlen : length pkt = 188%nat) by (vm_compute; reflexivity).
  assert (H3 : pkt !! 3%nat = Some x30) by reflexivity.
  assert (H4 : pkt !! 4%nat = Some x07) by reflexivity.
  split; [exact Hlen|]. split; [exact H3|]. split; [exact H4|].
  exact (proj1 (parsePayload_full_packet pkt x30 x07 Hlen H3 H4)).
Defined.

(** ** The demultiplexer: what every step keeps *)

Lemma continues_refl (st : Stream.t) : continues st st.
Proof.
  unfold continues, printedSince. repeat split; try done.
  rewrite drop_all. constructor.
Qed.

Lemma continues_trans (a b c : Stream.t) :
  continues a b -> continues b c -> continues a c.
Proof.
  intros (Hn1 & Hr1 & Ha1 & [k1 Hp1] & Hf1) (Hn2 & Hr2 & Ha2 & [k2 Hp2] & Hf2).
  unfold continues, printedSince in *.
  split; [congruence|]. split; [tauto|]. split; [tauto|]. split.
  - exists (k1 ++ k2). rewrite Hp2, Hp1. by rewrite <- app_assoc.
  - rewrite Hp2, Hp1 in *. rewrite <- app_assoc, drop_app_length.
    rewrite drop_app_length in Hf1, Hf2.
    apply Forall_app. split; [done|]. by rewrite <- Hn1.
Qed.

(** A step that touches neither the counter, the PIDs, the PID-to-program
    table nor the output. *)
Lemma continues_frame (st st' : Stream.t) :
  Stream.pktNum st' = Stream.pktNum st ->
  Stream.pids st' = Stream.pids st ->
  Stream.pidToProgram st' = Stream.pidToProgram st ->
  Stream.printed st' = Stream.printed st ->
  continues st st'.
Proof.
  intros Hn Hp Hm Ho. unfold continues, printedSince, announced.
  rewrite Hn, Hp, Hm, Ho, drop_all. repeat split; try done; constructor.
Qed.

Lemma sameAsLast_continues (st : Stream.t) (pay : list byte) (pid : Z) :
  continues st (snd (Stream.sameAsLast st pay pid)).
Proof.
  unfold Stream.sameAsLast.
  destruct (Stream.last st !! pid) as [val|]; [destruct (list_byte_eqb pay val)|];
    by apply continues_frame.
Qed.

Lemma sectionDone_continues (st : Stream.t) (pay : list byte) (pid seclen : Z) :
  continues st (snd (Stream.sectionDone st pay pid seclen)).
Proof.
  unfold Stream.sectionDone.
  destruct (_ <? _); by apply continues_frame.
Qed.

Lemma setPids_continues (st : Stream.t) (p : PIDs.t) :
  (PIDs.reachable (Stream.pids st) -> PIDs.reachable p) ->
  (forall pid, PIDs.isSCTE35PID p pid = true ->
     PIDs.isSCTE35PID (Stream.pids st) pid = true) ->
  continues st (Stream.setPids st p).
Proof.
  intros Hr Hs. unfold continues, printedSince, announced.
  cbn [Stream.setPids Stream.pktNum Stream.pids Stream.pidToProgram Stream.printed].
  rewrite drop_all. repeat split; try done; try constructor.
  intros Ha pid Hpid. by apply Ha, Hs.
Qed.

Lemma addPMTPID_continues (st : Stream.t) (pid : Z) :
  continues st (Stream.setPids st (PIDs.addPMTPID (Stream.pids st) pid)).
Proof.
  apply setPids_continues; [by constructor|].
  intros q. unfold PIDs.isSCTE35PID, PIDs.addPMTPID.
  by destruct (PIDs.isPMTPID (Stream.pids st) pid).
Qed.

Lemma patLoop_continues (fuel : nat) :
  forall st pay idx end_ st',
    Stream.patLoop fuel st pay idx end_ = Some st' -> continues st st'.
Proof.
  induction fuel as [|f IH]; intros st pay idx end_ st'; simpl.
  - destruct (idx <? end_); [discriminate|]. intros [= <-]. apply continues_refl.
  - destruct (idx <? end_); [|intros [= <-]; apply continues_refl].
    destruct (Stream.at_ pay idx) as [b0|]; [|discriminate].
    destruct (Stream.at_ pay (uint16 (idx + 1))) as [b1|]; [|discriminate].
    cbn [mbind option_bind].
    destruct (0 <? Stream.parseProgram b0 b1).
    + destruct (Stream.at_ pay (uint16 (idx + 2))) as [b2|]; [|discriminate].
      destruct (Stream.at_ pay (uint16 (idx + 3))) as [b3|]; [|discriminate].
      cbn [mbind option_bind]. intros H. apply IH in H.
      eapply continues_trans; [|exact H].
      eapply continues_trans; [|apply addPMTPID_continues].
      destruct (negb _); [by apply continues_frame | apply continues_refl].
    + cbn [mbind option_bind]. apply IH.
Qed.

Lemma parsePAT_continues (st : Stream.t) (pay : list byte) (pid : Z) (st' : Stream.t) :
  Stream.parsePAT st pay pid = Some st' -> continues st st'.
Proof.
  unfold Stream.parsePAT.
  pose proof (sameAsLast_continues st pay pid) as H1.
  destruct (Stream.sameAsLast st pay pid) as [same st1]. cbn [snd] in H1.
  destruct same; [by intros [= <-]|].
  set (p := Stream.checkPartial st1 pay pid _).
  destruct (length p <? 1)%nat; [by intros [= <-]|].
  destruct (Stream.at_ p 2) as [b2|]; [|discriminate].
  destruct (Stream.at_ p 3) as [b3|]; [|discriminate].
  cbn [mbind option_bind].
  pose proof (sectionDone_continues st1 p pid (Stream.parseLength b2 b3)) as H2.
  destruct (Stream.sectionDone st1 p pid _) as [done_ st2]. cbn [snd] in H2.
  destruct done_.
  - intros H%patLoop_continues.
    exact (continues_trans _ _ _ H1 (continues_trans _ _ _ H2 H)).
  - intros [= <-]. exact (continues_trans _ _ _ H1 H2).
Qed.

(** One elementary stream of a PMT: the PID gets its program, and is held as
    a SCTE-35 PID when the stream type says so. *)
Lemma stream_entry_continues (st : Stream.t) (elpid prgm streamtype : Z) :
  continues st
    (Stream.verifyStreamType
       (Stream.setPidToProgram st (<[elpid := prgm]> (Stream.pidToProgram st)))
       elpid streamtype).
Proof.
  unfold Stream.verifyStreamType, continues, printedSince, announced.
  destruct ((streamtype =? 6) || (streamtype =? 134));
    cbn [Stream.setPids Stream.setPidToProgram Stream.pktNum Stream.pids
         Stream.pidToProgram Stream.printed];
    rewrite drop_all; repeat split; try done; try constructor.
  - done.
  - intros Ha pid. rewrite isSCTE35PID_add. intros [Hp|Hp]%orb_true_iff.
    + rewrite lookup_insert_is_Some. destruct (decide (elpid = pid)); [by left|].
      right. split; [done | by apply Ha].
    + apply Z.eqb_eq in Hp as ->. rewrite lookup_insert_is_Some. by left.
  - intros Ha pid Hp. rewrite lookup_insert_is_Some.
    destruct (decide (elpid = pid)); [by left|]. right. split; [done | by apply Ha].
Qed.

Lemma streamsLoop_continues (fuel : nat) :
  forall st pay idx endidx prgm st',
    Stream.streamsLoop fuel st pay idx endidx prgm = Some st' -> continues st st'.
Proof.
  induction fuel as [|f IH]; intros st pay idx endidx prgm st'; simpl.
  - destruct (idx <? endidx); [discriminate|]. intros [= <-]. apply continues_refl.
  - destruct (idx <? endidx); [|intros [= <-]; apply continues_refl].
    destruct (Stream.at_ pay idx) as [ty|]; [|discriminate].
    destruct (Stream.at_ pay (uint16 (idx + 1))) as [b1|]; [|discriminate].
    destruct (Stream.at_ pay (uint16 (idx + 2))) as [b2|]; [|discriminate].
    destruct (Stream.at_ pay (uint16 (idx + 3))) as [b3|]; [|discriminate].
    destruct (Stream.at_ pay (uint16 (idx + 4))) as [b4|]; [|discriminate].
    cbn [mbind option_bind]. intros H%IH.
    eapply continues_trans; [apply stream_entry_continues | exact H].
Qed.

Lemma parsePMT_continues (st : Stream.t) (pay : list byte) (pid : Z) (st' : Stream.t) :
  Stream.parsePMT st pay pid = Some st' -> continues st st'.
Proof.
  unfold Stream.parsePMT.
  pose proof (sameAsLast_continues st pay pid) as H1.
  destruct (Stream.sameAsLast st pay pid) as [same st1]. cbn [snd] in H1.
  destruct same; [by intros [= <-]|].
  set (p := Stream.checkPartial st1 pay pid _).
  destruct (length p <? 1)%nat; [by intros [= <-]|].
  destruct (Stream.at_ p 1) as [b1|]; [|discriminate].
  destruct (Stream.at_ p 2) as [b2|]; [|discriminate].
  cbn [mbind option_bind].
  pose proof (sectionDone_continues st1 p pid (Stream.parseLength b1 b2)) as H2.
  destruct (Stream.sectionDone st1 p pid _) as [done_ st2]. cbn [snd] in H2.
  destruct done_; [|intros [= <-]; exact (continues_trans _ _ _ H1 H2)].
  destruct (Stream.at_ p 3) as [b3|]; [|discriminate].
  destruct (Stream.at_ p 4) as [b4|]; [|discriminate].
  destruct (Stream.at_ p 8) as [b8|]; [|discriminate].
  destruct (Stream.at_ p 9) as [b9|]; [|discriminate].
  destruct (Stream.at_ p 10) as [b10|]; [|discriminate].
  destruct (Stream.at_ p 11) as [b11|]; [|discriminate].
  cbn [mbind option_bind]. unfold Stream.parseStreams.
  intros H%streamsLoop_continues.
  refine (continues_trans _ _ _ H1 (continues_trans _ _ _ H2 (continues_trans _ _ _ _ H))).
  apply setPids_continues; [by constructor|].
  intros q. unfold PIDs.isSCTE35PID, PIDs.addPCRPID.
  by destruct (PIDs.isPCRPID (Stream.pids st2) _).
Qed.

Lemma parsePCR_continues (st : Stream.t) (pkt : list byte) (pid : Z) (st' : Stream.t) :
  Stream.parsePCR st pkt pid = Some st' -> continues st st'.
Proof.
  unfold Stream.parsePCR.
  destruct (Stream.at_ pkt 3) as [b3|]; [|discriminate]. cbn [mbind option_bind].
  destruct (_ =? 1); [|intros [= <-]; apply continues_refl].
  destruct (Stream.at_ pkt 5) as [b5|]; [|discriminate]. cbn [mbind option_bind].
  destruct (_ =? 1); [|intros [= <-]; apply continues_refl].
  destruct (Stream.at_ pkt 6) as [b6|]; [|discriminate].
  destruct (Stream.at_ pkt 7) as [b7|]; [|discriminate].
  destruct (Stream.at_ pkt 8) as [b8|]; [|discriminate].
  destruct (Stream.at_ pkt 9) as [b9|]; [|discriminate].
  destruct (Stream.at_ pkt 10) as [b10|]; [|discriminate].
  cbn [mbind option_bind]. intros [= <-]. by apply continues_frame.
Qed.

Lemma parsePTS_continues (st : Stream.t) (pkt : list byte) (pid : Z) (st' : Stream.t) :
  Stream.parsePTS st pkt pid = Some st' -> continues st st'.
Proof.
  unfold Stream.parsePTS.
  destruct (Stream.parsePUSI pkt) as [[|]|]; cbn [mbind option_bind];
    [|intros [= <-]; apply continues_refl|discriminate].
  destruct (Stream.pidToProgram st !! pid); [|intros [= <-]; apply continues_refl].
  destruct (Stream.at_ pkt 13) as [b13|]; [|discriminate].
  destruct (Stream.at_ pkt 14) as [b14|]; [|discriminate].
  destruct (Stream.at_ pkt 15) as [b15|]; [|discriminate].
  destruct (Stream.at_ pkt 16) as [b16|]; [|discriminate].
  destruct (Stream.at_ pkt 17) as [b17|]; [|discriminate].
  cbn [mbind option_bind]. intros [= <-]. by apply continues_frame.
Qed.

Lemma parseScte35_continues (st : Stream.t) (pay : list byte) (pid : Z) (st' : Stream.t) :
  Stream.parseScte35 st pay pid = Some st' -> continues st st'.
Proof.
  unfold Stream.parseScte35.
  set (p := Stream.checkPartial st pay pid _).
  destruct (length p =? 0)%nat.
  - intros [= <-]. apply setPids_continues; [by constructor|].
    intros q. rewrite isSCTE35PID_del. by intros [H _]%andb_true_iff.
  - destruct (Stream.at_ p 1) as [b1|]; [|discriminate].
    destruct (Stream.at_ p 2) as [b2|]; [|discriminate].
    cbn [mbind option_bind].
    pose proof (sectionDone_continues st p pid (Stream.parseLength b1 b2)) as H2.
    destruct (Stream.sectionDone st p pid _) as [done_ st2]. cbn [snd] in H2.
    destruct done_; intros [= <-]; [|exact H2].
    eapply continues_trans; [exact H2|].
    unfold Stream.makeSpliceInfoSection, continues, printedSince, announced.
    cbn [Stream.print Stream.pktNum Stream.pids Stream.pidToProgram Stream.printed
         Stream.PacketNumber].
    repeat split; try done.
    + by apply prefix_app_r.
    + rewrite drop_app_length. by repeat constructor.
Qed.

Lemma parse_continues (st : Stream.t) (pkt : list byte) (st' : Stream.t) :
  Stream.parse st pkt = Some st' -> continues st st'.
Proof.
  unfold Stream.parse.
  destruct (Stream.at_ pkt 1) as [b1|]; [|discriminate].
  destruct (Stream.at_ pkt 2) as [b2|]; [|discriminate].
  cbn [mbind option_bind].
  destruct (Stream.parsePayload pkt) as [pay|]; [|discriminate].
  cbn [mbind option_bind].
  set (pid := Stream.parsePID b1 b2).
  assert (H1 : forall s1, (if pid =? 0 then Stream.parsePAT st pay pid else Some st) = Some s1 ->
                          continues st s1).
  { intros s1. destruct (pid =? 0); [apply parsePAT_continues|].
    intros [= <-]. apply continues_refl. }
  destruct (if pid =? 0 then _ else _) as [s1|]; [|discriminate].
  specialize (H1 s1 eq_refl). cbn [mbind option_bind].
  assert (H2 : forall s2, (if PIDs.isPMTPID (Stream.pids s1) pid
                           then Stream.parsePMT s1 pay pid else Some s1) = Some s2 ->
                          continues s1 s2).
  { intros s2. destruct (PIDs.isPMTPID _ _); [apply parsePMT_continues|].
    intros [= <-]. apply continues_refl. }
  destruct (if PIDs.isPMTPID _ _ then _ else _) as [s2|]; [|discriminate].
  specialize (H2 s2 eq_refl). cbn [mbind option_bind].
  assert (H3 : forall s3, (if PIDs.isPCRPID (Stream.pids s2) pid
                           then Stream.parsePCR s2 pkt pid
                           else Stream.parsePTS s2 pkt pid) = Some s3 ->
                          continues s2 s3).
  { intros s3. destruct (PIDs.isPCRPID _ _);
      [apply parsePCR_continues | apply parsePTS_continues]. }
  destruct (if PIDs.isPCRPID _ _ then _ else _) as [s3|]; [|discriminate].
  specialize (H3 s3 eq_refl). cbn [mbind option_bind].
  intros H4.
  assert (continues s3 st').
  { destruct (PIDs.isSCTE35PID _ _); [by apply parseScte35_continues in H4|].
    injection H4 as <-. apply continues_refl. }
  eauto using continues_trans.
Qed.

Lemma decodePackets_continues (pkts : list (list byte)) :
  forall st st',
    Stream.decodePackets st pkts = Some st' ->
    Stream.pktNum st' = Stream.pktNum st + Z.of_nat (length pkts)
    /\ (PIDs.reachable (Stream.pids st) -> PIDs.reachable (Stream.pids st'))
    /\ (announced st -> announced st')
    /\ Stream.printed st `prefix_of` Stream.printed st'
    /\ Forall (fun o => Stream.pktNum st < Stream.PacketNumber o <= Stream.pktNum st')
         (printedSince st st').
Proof.
  induction pkts as [|pkt pkts IH]; intros st st'; simpl.
  - intros [= <-]. unfold printedSince. rewrite drop_all.
    repeat split; try done; try constructor. lia.
  - set (st0 := Stream.mkStream (Stream.pktNum st + 1) _ _ _ _ _ _ _ _).
    destruct (Stream.parse st0 pkt) as [st1|] eqn:Hp; [|discriminate].
    cbn [mbind option_bind]. intros H.
    apply parse_continues in Hp as (Hn1 & Hr1 & Ha1 & [k1 Hp1] & Hf1).
    apply IH in H as (Hn2 & Hr2 & Ha2 & [k2 Hp2] & Hf2).
    unfold printedSince in *.
    change (Stream.pktNum st0) with (Stream.pktNum st + 1) in *.
    change (Stream.printed st0) with (Stream.printed st) in *.
    change (Stream.pids st0) with (Stream.pids st) in *.
    split; [lia|]. split; [tauto|]. split; [exact (fun a => Ha2 (Ha1 a))|]. split.
    + exists (k1 ++ k2). rewrite Hp2, Hp1. by rewrite <- app_assoc.
    + rewrite Hp2, Hp1 in *. rewrite <- app_assoc, drop_app_length.
      rewrite drop_app_length in Hf1, Hf2. apply Forall_app. split.
      * eapply Forall_impl; [exact Hf1|]. simpl. intros o Ho. lia.
      * eapply Forall_impl; [exact Hf2|]. simpl. intros o Ho. lia.
Qed.

Lemma announced_init : announced Stream.init.
Proof. intros pid H. discriminate H. Qed.

(** X7. At any time of a scan the three PID collections of the stream hold no
    PID twice. *)
Theorem stream_pids_no_duplicates (pkts : list (list byte)) (st : Stream.t) :
  Stream.decodePackets Stream.init pkts = Some st ->
  NoDup (PIDs.PMTPIDs (Stream.pids st))
  /\ NoDup (PIDs.PCRPIDs (Stream.pids st))
  /\ NoDup (PIDs.SCTE35PIDs (Stream.pids st)).
Proof.
  intros H. apply decodePackets_continues in H as (_ & Hr & _).
  apply reachable_NoDup, Hr. constructor.
Qed.

Lemma stream_pids_witness :
  exists st, Stream.decodePackets Stream.init repeated_section_stream = Some st
    /\ NoDup (PIDs.SCTE35PIDs (Stream.pids st)).
Proof.
  exists (default Stream.init (Stream.decodePackets Stream.init repeated_section_stream)).
  assert (H : Stream.decodePackets Stream.init repeated_section_stream
              = Some (default Stream.init
                        (Stream.decodePackets Stream.init repeated_section_stream)))
    by (vm_compute; reflexivity).
  split; [exact H|]. exact (proj2 (proj2 (stream_pids_no_duplicates _ _ H))).
Defined.

(** X8. Every PID that the stream holds as a SCTE-35 PID has a program: a PID
    becomes a SCTE-35 PID only in the PMT entry that records its program, and
    the table of programs never loses an entry. *)
Theorem stream_scte35_pids_have_program (pkts : list (list byte)) (st : Stream.t) (pid : Z) :
  Stream.decodePackets Stream.init pkts = Some st ->
  PIDs.isSCTE35PID (Stream.pids st) pid = true ->
  is_Some (Stream.pidToProgram st !! pid).
Proof.
  intros H. apply decodePackets_continues in H as (_ & _ & Ha & _).
  apply Ha, announced_init.
Qed.

Lemma stream_scte35_pids_witness :
  exists st, Stream.decodePackets Stream.init [pat_packet; pmt_packet 0x102] = Some st
    /\ PIDs.isSCTE35PID (Stream.pids st) 0x102 = true
    /\ is_Some (Stream.pidToProgram st !! 0x102).
Proof.
  exists (default Stream.init
            (Stream.decodePackets Stream.init [pat_packet; pmt_packet 0x102])).
  assert (H : Stream.decodePackets Stream.init [pat_packet; pmt_packet 0x102]
              = Some (default Stream.init
                        (Stream.decodePackets Stream.init [pat_packet; pmt_packet 0x102])))
    by (vm_compute; reflexivity).
  assert (Hp : PIDs.isSCTE35PID
                 (Stream.pids (default Stream.init
                   (Stream.decodePackets Stream.init [pat_packet; pmt_packet 0x102])))
                 0x102 = true) by (vm_compute; reflexivity).
  split; [exact H|]. split; [exact Hp|].
  exact (stream_scte35_pids_have_program _ _ _ H Hp).
Defined.

(** X9. The packet counter counts the packets, and every record printed carries
    the number of the packet that completed its section, between one and the
    number of packets scanned. *)
Theorem stream_packet_numbers (pkts : list (list byte)) (st : Stream.t) :
  Stream.decodePackets Stream.init pkts = Some st ->
  Stream.pktNum st = Z.of_nat (length pkts)
  /\ Forall (fun o => 1 <= Stream.PacketNumber o <= Z.of_nat (length pkts))
       (Stream.printed st).
Proof.
  intros H. apply decodePackets_continues in H as (Hn & _ & _ & _ & Hf).
  unfold printedSince in Hf. cbn in Hn, Hf. rewrite drop_0 in Hf.
  split; [lia|]. eapply Forall_impl; [exact Hf|]. simpl. intros o Ho. lia.
Qed.

Lemma stream_packet_numbers_witness :
  exists st, Stream.decodePackets Stream.init repeated_section_stream = Some st
    /\ Stream.pktNum st = 4
    /\ Forall (fun o => 1 <= Stream.PacketNumber o <= 4) (Stream.printed st).
Proof.
  exists (default Stream.init (Stream.decodePackets Stream.init repeated_section_stream)).
  assert (H : Stream.decodePackets Stream.init repeated_section_stream
              = Some (default Stream.init
                        (Stream.decodePackets Stream.init repeated_section_stream)))
    by (vm_compute; reflexivity).
  split; [exact H|]. exact (stream_packet_numbers _ _ H).
Defined.

(** ** The demultiplexer: a stream without a PAT *)

Lemma parse_idle (n : Z) (pkt : list byte) :
  length pkt = 188%nat -> packetPID pkt <> 0 ->
  Stream.parse (idle n) pkt = Some (idle n).
Proof.
  intros Hlen Hpid. unfold Stream.parse, packetPID in *.
  destruct (at_in_range pkt 1) as (b1 & Hb1 & _); [lia|].
  destruct (at_in_range pkt 2) as (b2 & Hb2 & _); [lia|].
  rewrite Hb1, Hb2 in *. cbn [default mbind option_bind] in *.
  destruct (parsePayload_of_packet pkt Hlen) as (pay & -> & _).
  cbn [mbind option_bind].
  destruct (Z.eqb_spec (Stream.parsePID b1 b2) 0) as [|_]; [contradiction|].
  cbn [mbind option_bind idle Stream.pids PIDs.isPMTPID PIDs.isPCRPID
       PIDs.isSCTE35PID PIDs.zero PIDs.PMTPIDs PIDs.PCRPIDs PIDs.SCTE35PIDs
       PIDs.isIn16].
  unfold Stream.parsePTS, Stream.parsePUSI. rewrite Hb1. cbn [mbind option_bind].
  destruct (at_in_range pkt 6) as (b6 & Hb6 & _); [lia|]. rewrite Hb6.
  cbn [mbind option_bind].
  destruct (_ =? 1); [destruct (_ =? 1)|]; reflexivity.
Qed.

(** X10. Without a packet on PID 0 the stream learns nothing and prints nothing:
    after any number of full packets it only has counted them. *)
Theorem stream_without_pat_stays_idle (pkts : list (list byte)) :
  Forall (fun pkt => length pkt = 188%nat /\ packetPID pkt <> 0) pkts ->
  Stream.decodePackets Stream.init pkts = Some (idle (Z.of_nat (length pkts))).
Proof.
  change Stream.init with (idle 0).
  assert (H : forall n, Forall (fun pkt => length pkt = 188%nat /\ packetPID pkt <> 0) pkts ->
                Stream.decodePackets (idle n) pkts = Some (idle (n + Z.of_nat (length pkts)))).
  { induction pkts as [|pkt pkts IH]; intros n Hall.
    - simpl. by rewrite Z.add_0_r.
    - inversion Hall as [|? ? [Hlen Hpid] Hrest]; subst.
      cbn [Stream.decodePackets].
      change (Stream.mkStream (Stream.pktNum (idle n) + 1) _ _ _ _ _ _ _ _)
        with (idle (n + 1)).
      rewrite parse_idle by done. cbn [mbind option_bind].
      rewrite IH by done. f_equal. f_equal. rewrite length_cons. lia. }
  intros Hall. by rewrite (H 0 Hall).
Qed.

Lemma stream_without_pat_witness :
  Stream.decodePackets Stream.init [pmt_packet 0x102; scte35_packet 0x102]
  = Some (idle 2).
Proof.
  apply (stream_without_pat_stays_idle [pmt_packet 0x102; scte35_packet 0x102]).
  repeat constructor; vm_compute; try reflexivity; discriminate.
Defined.

(** ** The demultiplexer: a section in two packets *)

Lemma splitByIndex_prefix (sep payload : list byte) :
  sep `prefix_of` payload -> Stream.splitByIndex payload sep = payload.
Proof.
  intros Hp. apply hasPrefix_spec in Hp.
  destruct payload as [|x l]; simpl; rewrite Hp; [by destruct sep | done].
Qed.

(** After the two bytes that mark a section ([0xFC] and the character 0),
    the length that [parseScte35] reads is the third byte alone. *)
Lemma scte35_section_length (len : Z) :
  0 <= len < 256 -> Stream.parseLength 0x30 len = len.
Proof. intros H. rewrite parseLength_bytes by lia. reflexivity. Qed.

Lemma section_start_bytes (len : byte) (rest : list byte) :
  Stream.at_ (xfc :: "0"%byte :: len :: rest) 1 = Some 0x30
  /\ Stream.at_ (xfc :: "0"%byte :: len :: rest) 2 = Some (Z_of_byte len).
Proof. split; reflexivity. Qed.

(** X11. A section that starts in one packet and is completed by the next packet
    of the PID: the first part is kept and nothing is printed; with the
    second part the whole is printed once, as one piece, and the part kept is
    dropped. *)
Theorem scte35_section_in_two_packets (st st' : Stream.t) (pid : Z)
  (first second : list byte) (len : byte) :
  [xfc; "0"%byte] `prefix_of` first ->
  first !! 2%nat = Some len ->
  Z.of_nat (length first) < Z_of_byte len + 3 <= Z.of_nat (length (first ++ second)) ->
  Z.of_nat (length (first ++ second)) < 65536 ->
  Stream.partial st !! pid = None ->
  Stream.partial st' !! pid = Some first ->
  Stream.parseScte35 st first pid
  = Some (Stream.setPartial st (<[pid := first]> (Stream.partial st)))
  /\ Stream.parseScte35 st' second pid
     = Some (Stream.makeSpliceInfoSection
               (Stream.setPartial st' (delete pid (Stream.partial st')))
               pid (first ++ second)).
Proof.
  intros Hpre Hlen Hsize Hmax Hnone Hsome.
  pose proof (Z_of_byte_range len) as Hr.
  destruct Hpre as [rest ->]. cbn in Hlen.
  destruct rest as [|l0 rest]; [discriminate|]. injection Hlen as ->.
  cbn [app] in *.
  split.
  - unfold Stream.parseScte35, Stream.checkPartial. rewrite Hnone.
    rewrite splitByIndex_prefix by (by exists (len :: rest)).
    destruct (section_start_bytes len rest) as [-> ->].
    cbn [length Nat.eqb mbind option_bind].
    rewrite scte35_section_length by done.
    unfold Stream.sectionDone, uint16, wrap. change (2 ^ 16) with 65536.
    rewrite !Z.mod_small by (rewrite ?length_app in *; lia).
    destruct (Z.ltb_spec (Z.of_nat (length (xfc :: "0"%byte :: len :: rest)))
                (Z_of_byte len + 3)); [done | lia].
  - unfold Stream.parseScte35, Stream.checkPartial. rewrite Hsome. cbn [app].
    rewrite splitByIndex_prefix by (by exists (len :: rest ++ second)).
    destruct (section_start_bytes len (rest ++ second)) as [-> ->].
    cbn [length Nat.eqb mbind option_bind].
    rewrite scte35_section_length by done.
    unfold Stream.sectionDone, uint16, wrap. change (2 ^ 16) with 65536.
    rewrite !Z.mod_small by lia.
    destruct (Z.ltb_spec (Z.of_nat (length (xfc :: "0"%byte :: len :: rest ++ second)))
                (Z_of_byte len + 3)); [lia | done].
Qed.

Lemma scte35_section_in_two_packets_witness :
  let st' := Stream.setPartial Stream.init
               (<[0x102 := take 10 heartbeat]> (Stream.partial Stream.init)) in
  Stream.parseScte35 Stream.init (take 10 heartbeat) 0x102 = Some st'
  /\ Stream.parseScte35 st' (drop 10 heartbeat) 0x102
     = Some (Stream.makeSpliceInfoSection
               (Stream.setPartial st' (delete 0x102 (Stream.partial st')))
               0x102 (take 10 heartbeat ++ drop 10 heartbeat)).
Proof.
  intros st'.
  apply (scte35_section_in_two_packets Stream.init st'
           0x102 (take 10 heartbeat) (drop 10 heartbeat) x11).
  - by exists (drop 2 (take 10 heartbeat)).
  - reflexivity.
  - vm_compute. split; [reflexivity | discriminate].
  - vm_compute. reflexivity.
  - reflexivity.
  - apply lookup_insert_eq.
Defined.

(** ** The demultiplexer: payloads without a section, or with a cut one *)

(** X12. A payload of a SCTE-35 PID in which the two bytes that mark a section
    ([0xFC] and the character 0) do not occur, with nothing kept for the
    PID, takes the PID out of the SCTE-35 PIDs; nothing else changes. *)
Theorem scte35_pid_dropped_without_marker (st : Stream.t) (pay : list byte) (pid : Z) :
  Stream.partial st !! pid = None ->
  (forall a c, pay <> a ++ [xfc; "0"%byte] ++ c) ->
  Stream.parseScte35 st pay pid
  = Some (Stream.setPids st (PIDs.delSCTE35PID (Stream.pids st) pid))
  /\ PIDs.isSCTE35PID (PIDs.delSCTE35PID (Stream.pids st) pid) pid = false.
Proof.
  intros Hnone Hno. split.
  - unfold Stream.parseScte35, Stream.checkPartial. rewrite Hnone.
    by rewrite (proj2 (splitByIndex_occurrence pay [xfc; "0"%byte]) Hno).
  - rewrite isSCTE35PID_del, Z.eqb_refl. apply andb_false_r.
Qed.

Lemma scte35_pid_dropped_witness :
  Stream.parseScte35 Stream.init [xfc; "1"%byte; x00] 0x102
  = Some (Stream.setPids Stream.init (PIDs.delSCTE35PID (Stream.pids Stream.init) 0x102))
  /\ PIDs.isSCTE35PID (PIDs.delSCTE35PID (Stream.pids Stream.init) 0x102) 0x102 = false.
Proof.
  apply scte35_pid_dropped_without_marker; [reflexivity|].
  intros a c H.
  destruct a as [|a0 [|a1 [|a2 a]]]; try discriminate H.
  injection H as _ _ H. by destruct a.
Defined.

(** X13. When the mark of a section is found only in the last two bytes of the
    data, [parseScte35] indexes past the end of the payload: the index
    expression [pay[2]] panics. *)
Theorem scte35_marker_at_end_panics (st : Stream.t) (pay a : list byte) (pid : Z) :
  Stream.partial st !! pid = None ->
  pay = a ++ [xfc; "0"%byte] ->
  (forall a' c', pay = a' ++ [xfc; "0"%byte] ++ c' -> c' = []) ->
  Stream.parseScte35 st pay pid = None.
Proof.
  intros Hnone Hpay Hlast.
  destruct (proj1 (splitByIndex_occurrence pay [xfc; "0"%byte]) a [])
    as (a' & Ha' & _ & [c Hc]); [by rewrite Hpay|].
  rewrite Hc in Ha'. rewrite (Hlast a' c Ha') in Hc.
  unfold Stream.parseScte35, Stream.checkPartial. rewrite Hnone, Hc. reflexivity.
Qed.

Lemma scte35_marker_at_end_witness :
  Stream.parseScte35 Stream.init [x00; xfc; "0"%byte] 0x102 = None.
Proof.
  apply (scte35_marker_at_end_panics Stream.init [x00; xfc; "0"%byte] [x00]);
    [reflexivity | reflexivity |].
  intros a' c' H.
  destruct a' as [|a0 [|a1 [|a2 a']]]; simplify_eq/=; try done.
  by destruct a'.
Defined.

(** ** Reading what was written *)

Lemma leftToRead_new (b : list byte) : leftToRead (iobit.NewReader b) (bits_of_bytes b).
Proof. split; [cbn; lia | reflexivity]. Qed.

Lemma leftToRead_length (r : iobit.Reader) (l : list bool) :
  leftToRead r l -> (iobit.idx r + length l = iobit.size r)%nat.
Proof.
  intros [Hle <-]. unfold remaining, iobit.size in *.
  rewrite length_drop, bits_of_bytes_length. lia.
Qed.

Lemma leftToRead_Skip (r : iobit.Reader) (pre rest : list bool) :
  leftToRead r (pre ++ rest) -> leftToRead (iobit.Skip (length pre) r) rest.
Proof.
  intros H. pose proof (leftToRead_length r _ H) as Hl. destruct H as [Hle Hr].
  rewrite length_app in Hl. split.
  - unfold iobit.size, iobit.Skip in *. cbn [iobit.idx iobit.src] in *. lia.
  - unfold remaining in *. cbn [iobit.Skip iobit.idx iobit.src].
    by rewrite <- drop_drop, Hr, drop_app_length.
Qed.

Lemma leftToRead_peek (r : iobit.Reader) (n : nat) (pre rest : list bool) :
  leftToRead r (pre ++ rest) -> length pre = n -> iobit.peek n r = pre.
Proof.
  intros [_ Hr] <-. unfold iobit.peek. fold (remaining r). rewrite Hr.
  by rewrite <- app_assoc, take_app_length.
Qed.

Lemma leftToRead_Uint32 (r : iobit.Reader) (n : nat) (v : Z) (rest : list bool) :
  leftToRead r (bits_of_Z n v ++ rest) -> (n <= 32)%nat ->
  iobit.Uint32 n r = (v mod 2 ^ Z.of_nat n, iobit.Skip n r)
  /\ leftToRead (iobit.Skip n r) rest.
Proof.
  intros H Hn. split.
  - unfold iobit.Uint32.
    rewrite (leftToRead_peek r n _ _ H) by apply bits_of_Z_length.
    rewrite Z_of_bits_of_Z. f_equal. apply uint32_small.
    pose proof (Z.mod_pos_bound v (2 ^ Z.of_nat n) ltac:(lia)).
    assert (2 ^ Z.of_nat n <= 2 ^ 32) by (apply Z.pow_le_mono_r; lia). lia.
  - rewrite <- (bits_of_Z_length n v) at 1. by apply leftToRead_Skip.
Qed.

Lemma leftToRead_Uint64 (r : iobit.Reader) (n : nat) (v : Z) (rest : list bool) :
  leftToRead r (bits_of_Z n v ++ rest) -> (n <= 64)%nat ->
  iobit.Uint64 n r = (v mod 2 ^ Z.of_nat n, iobit.Skip n r)
  /\ leftToRead (iobit.Skip n r) rest.
Proof.
  intros H Hn. split.
  - unfold iobit.Uint64.
    rewrite (leftToRead_peek r n _ _ H) by apply bits_of_Z_length.
    rewrite Z_of_bits_of_Z. f_equal. unfold uint64, wrap. apply Z.mod_small.
    pose proof (Z.mod_pos_bound v (2 ^ Z.of_nat n) ltac:(lia)).
    assert (2 ^ Z.of_nat n <= 2 ^ 64) by (apply Z.pow_le_mono_r; lia). lia.
  - rewrite <- (bits_of_Z_length n v) at 1. by apply leftToRead_Skip.
Qed.

Lemma leftToRead_Bit (r : iobit.Reader) (x : bool) (rest : list bool) :
  leftToRead r (x :: rest) ->
  iobit.Bit r = (x, iobit.Skip 1 r) /\ leftToRead (iobit.Skip 1 r) rest.
Proof.
  intros H. split.
  - unfold iobit.Bit. by rewrite (leftToRead_peek r 1 [x] rest H).
  - exact (leftToRead_Skip r [x] rest H).
Qed.

Lemma leftToRead_done (r : iobit.Reader) : leftToRead r [] -> readerError r = None.
Proof.
  intros H. pose proof (leftToRead_length r _ H) as Hl. simpl in Hl.
  unfold readerError, iobit.overflowed, iobit.LeftBits.
  destruct (Nat.ltb_spec (iobit.size r) (iobit.idx r)); [lia|].
  destruct (Nat.ltb_spec 0 (iobit.size r - iobit.idx r)); [lia | done].
Qed.

(** The bits of what [Flush] returns for a writer that has filled its
    buffer exactly. *)
Lemma Flush_bits (w : iobit.Writer) :
  Z.of_nat (length (iobit.out w)) = 8 * Z.of_nat (iobit.cap w) ->
  iobit.Flush w = (bytes_of_bits (iobit.out w), None)
  /\ bits_of_bytes (bytes_of_bits (iobit.out w)) = iobit.out w.
Proof.
  intros H. split; [by apply Flush_exact|].
  apply (bits_of_bytes_of_bits (iobit.cap w)). lia.
Qed.

(** ** time_descriptor *)

(** Moves a reader over the bits in front, which take [n] places. *)
Ltac skip_bits H n :=
  match type of H with
  | leftToRead ?r (?pre ++ ?rest) =>
      let H' := fresh in
      assert (H' : leftToRead (iobit.Skip n r) rest)
        by exact (leftToRead_Skip r pre rest H);
      clear H; rename H' into H
  end.

(** Reads a number with [Uint32] or [Uint64], or a bit, and rewrites the goal
    with what was read. *)
Ltac read32 H :=
  match type of H with
  | leftToRead ?r (bits_of_Z ?n ?v ++ ?rest) =>
      let E := fresh "E" in
      let H' := fresh "H" in
      destruct (leftToRead_Uint32 r n v rest H ltac:(lia)) as [E H'];
      rewrite E; clear E H; rename H' into H
  end.

Ltac read64 H :=
  match type of H with
  | leftToRead ?r (bits_of_Z ?n ?v ++ ?rest) =>
      let E := fresh "E" in
      let H' := fresh "H" in
      destruct (leftToRead_Uint64 r n v rest H ltac:(lia)) as [E H'];
      rewrite E; clear E H; rename H' into H
  end.

Lemma TimeDescriptor_encode_bits (sd : TimeDescriptor.TimeDescriptor) :
  exists b, TimeDescriptor.encode sd = (b, None)
    /\ length b = 18%nat
    /\ bits_of_bytes b
       = bits_of_Z 8 TimeDescriptor.TimeDescriptorTag ++ bits_of_Z 8 16
           ++ bits_of_Z 32 CUEIdentifier
           ++ bits_of_Z 48 (TimeDescriptor.TAISeconds sd)
           ++ bits_of_Z 32 (TimeDescriptor.TAINS sd)
           ++ bits_of_Z 16 (TimeDescriptor.UTCOffset sd) ++ [].
Proof.
  unfold TimeDescriptor.encode.
  set (w := iobit.PutUint 16 _ _).
  assert (Hlen : Z.of_nat (length (iobit.out w)) = 8 * Z.of_nat (iobit.cap w))
    by reflexivity.
  destruct (Flush_bits w Hlen) as [-> Hbits].
  eexists. split; [reflexivity|]. split.
  - apply (bytes_of_bits_length 18). reflexivity.
  - rewrite Hbits. subst w. cbn [iobit.out iobit.PutUint iobit.NewWriter].
    rewrite <- !app_assoc, app_nil_r. reflexivity.
Qed.

(** X14. A time_descriptor whose fields fit their widths is encoded in eighteen
    bytes without error, and decoding them gives the descriptor back. *)
Theorem time_descriptor_roundtrip (sd : TimeDescriptor.TimeDescriptor) :
  0 <= TimeDescriptor.TAISeconds sd < 2 ^ 48 ->
  0 <= TimeDescriptor.TAINS sd < 2 ^ 32 ->
  0 <= TimeDescriptor.UTCOffset sd < 2 ^ 16 ->
  exists b, TimeDescriptor.encode sd = (b, None)
    /\ length b = 18%nat
    /\ TimeDescriptor.decode b = (sd, None).
Proof.
  intros H48 H32 H16.
  destruct (TimeDescriptor_encode_bits sd) as (b & Henc & Hlen & Hbits).
  exists b. split; [exact Henc|]. split; [exact Hlen|].
  unfold TimeDescriptor.decode.
  pose proof (leftToRead_new b) as Hr. rewrite Hbits in Hr.
  skip_bits Hr 8%nat. skip_bits Hr 8%nat. skip_bits Hr 32%nat.
  read64 Hr. read32 Hr. read32 Hr.
  rewrite (leftToRead_done _ Hr).
  change (Z.of_nat 48) with 48. change (Z.of_nat 32) with 32. change (Z.of_nat 16) with 16.
  rewrite !Z.mod_small by done. by destruct sd.
Qed.

Lemma time_descriptor_roundtrip_witness :
  exists b, TimeDescriptor.encode (TimeDescriptor.mkTimeDescriptor 1600000000 500 37)
            = (b, None)
    /\ length b = 18%nat
    /\ TimeDescriptor.decode b
       = (TimeDescriptor.mkTimeDescriptor 1600000000 500 37, None).
Proof.
  apply time_descriptor_roundtrip; cbn; lia.
Defined.

(** X15. [decode] accepts eighteen bytes and nothing else: fewer make the reader
    run past its end, more are left unread. *)
Theorem time_descriptor_decode_errors (b : list byte) :
  snd (TimeDescriptor.decode b)
  = if (length b <? 18)%nat then Some ErrBufferOverflow
    else if (18 <? length b)%nat then Some ErrBufferUnderflow
    else None.
Proof.
  unfold TimeDescriptor.decode, iobit.Uint64, iobit.Uint32.
  cbn [snd iobit.Skip iobit.NewReader iobit.idx iobit.src].
  unfold readerError, iobit.overflowed, iobit.LeftBits, iobit.size.
  change (iobit.src (iobit.Skip 16 _)) with b.
  change (iobit.idx (iobit.Skip 16 _)) with 144%nat.
  destruct (Nat.ltb_spec (length b) 18), (Nat.ltb_spec 18 (length b)),
    (Nat.ltb_spec (8 * length b) 144),
    (Nat.ltb_spec 0 (8 * length b - 144));
    try reflexivity; lia.
Qed.

(** X16. Eighteen bytes that begin with the tag, the length and the identifier of
    a time_descriptor are what [encode] makes of the descriptor decoded from
    them. *)
Theorem time_descriptor_decode_encode (b : list byte) :
  length b = 18%nat ->
  take 6 b = [x03; x10; "C"%byte; "U"%byte; "E"%byte; "I"%byte] ->
  TimeDescriptor.encode (fst (TimeDescriptor.decode b)) = (b, None).
Proof.
  intros Hlen Hhead.
  destruct (TimeDescriptor_encode_bits (fst (TimeDescriptor.decode b)))
    as (b' & -> & Hlen' & Hbits).
  f_equal. rewrite <- (bytes_of_bits_of_bytes b'), <- (bytes_of_bits_of_bytes b).
  f_equal. rewrite Hbits.
  change (TimeDescriptor.TAISeconds (fst (TimeDescriptor.decode b)))
    with (readUint64 48 48 b).
  change (TimeDescriptor.TAINS (fst (TimeDescriptor.decode b)))
    with (readUint32 96 32 b).
  change (TimeDescriptor.UTCOffset (fst (TimeDescriptor.decode b)))
    with (readUint32 128 16 b).
  rewrite readUint64_bits, !readUint32_bits by lia.
  change (bits_of_Z 8 TimeDescriptor.TimeDescriptorTag ++ bits_of_Z 8 16
            ++ bits_of_Z 32 CUEIdentifier ++ ?x)
    with (bits_of_bytes [x03; x10; "C"%byte; "U"%byte; "E"%byte; "I"%byte] ++ x).
  rewrite <- Hhead, bits_of_bytes_take, app_nil_r.
  change (8 * 6)%nat with 48%nat. rewrite !app_assoc.
  rewrite (take_take_drop (bits_of_bytes b) 48 48). change (48 + 48)%nat with 96%nat.
  rewrite (take_take_drop (bits_of_bytes b) 96 32). change (96 + 32)%nat with 128%nat.
  rewrite (take_take_drop (bits_of_bytes b) 128 16).
  apply take_ge. rewrite bits_of_bytes_length. lia.
Qed.

Lemma time_descriptor_decode_encode_witness :
  TimeDescriptor.encode
    (fst (TimeDescriptor.decode
            ([x03; x10; "C"%byte; "U"%byte; "E"%byte; "I"%byte] ++ repeat x01 12)))
  = ([x03; x10; "C"%byte; "U"%byte; "E"%byte; "I"%byte] ++ repeat x01 12, None).
Proof. apply time_descriptor_decode_encode; reflexivity. Defined.

(** ** splice_insert: what [encode] writes *)

Lemma putTime_out (t : option SpliceInsert.SpliceTime) (flag : bool) (w : iobit.Writer) :
  flag = match timeOf t with Some _ => true | None => false end ->
  iobit.out (SpliceInsert.putTime flag (SpliceInsert.ptsOf t) w)
  = iobit.out w ++ timeBits (timeOf t)
  /\ iobit.cap (SpliceInsert.putTime flag (SpliceInsert.ptsOf t) w) = iobit.cap w.
Proof.
  intros ->. unfold SpliceInsert.putTime, timeBits.
  destruct t as [[[p|]]|]; cbn [timeOf SpliceInsert.ptsOf SpliceInsert.PTSTime default
    iobit.out iobit.cap iobit.PutUint iobit.PutBit]; by rewrite <- ?app_assoc.
Qed.

Lemma programTimeSpecifiedFlag_timeOf (t : option SpliceInsert.SpliceTime) :
  SpliceInsert.programTimeSpecifiedFlag t
  = match timeOf t with Some _ => true | None => false end.
Proof. by destruct t as [[[p|]]|]. Qed.

Lemma componentTimeSpecifiedFlag_timeOf (c : SpliceInsert.SpliceInsertComponent) :
  SpliceInsert.componentTimeSpecifiedFlag c
  = match timeOf (SpliceInsert.SpliceTime' c) with Some _ => true | None => false end.
Proof. unfold SpliceInsert.componentTimeSpecifiedFlag. by destruct c as [tag [[[p|]]|]]. Qed.

Lemma putComponents_bits (immediate : bool) (cs : list SpliceInsert.SpliceInsertComponent) :
  forall w,
    iobit.out (SpliceInsert.putComponents immediate cs w)
    = iobit.out w ++ flat_map (componentBits immediate) cs
    /\ iobit.cap (SpliceInsert.putComponents immediate cs w) = iobit.cap w.
Proof.
  induction cs as [|c cs IH]; intros w; cbn [SpliceInsert.putComponents flat_map].
  - by rewrite app_nil_r.
  - destruct immediate; cbn [negb].
    + destruct (IH (iobit.PutUint 8 (SpliceInsert.Tag c) w)) as [-> ->].
      unfold componentBits. cbn [iobit.out iobit.cap iobit.PutUint].
      by rewrite app_nil_r, <- app_assoc.
    + destruct (putTime_out (SpliceInsert.SpliceTime' c)
                  (SpliceInsert.componentTimeSpecifiedFlag c)
                  (iobit.PutUint 8 (SpliceInsert.Tag c) w)
                  (componentTimeSpecifiedFlag_timeOf c)) as [Ho Hc].
      destruct (IH (SpliceInsert.putTime (SpliceInsert.componentTimeSpecifiedFlag c)
                      (SpliceInsert.ptsOf (SpliceInsert.SpliceTime' c))
                      (iobit.PutUint 8 (SpliceInsert.Tag c) w))) as [-> ->].
      rewrite Ho, Hc. unfold componentBits. cbn [iobit.out iobit.cap iobit.PutUint].
      by rewrite <- !app_assoc.
Qed.

(** [encode] flushes a writer that holds the bits of the command and has
    the capacity that [length] gives. *)
Lemma SpliceInsert_encode_writer (cmd : SpliceInsert.SpliceInsert) :
  exists w, SpliceInsert.encode cmd = iobit.Flush w
    /\ iobit.out w = spliceInsertBits cmd
    /\ iobit.cap w = Z.to_nat (SpliceInsert.length cmd).
Proof.
  unfold SpliceInsert.encode. eexists. split; [reflexivity|].
  unfold spliceInsertBits, spliceBits.
  destruct (SpliceInsert.SpliceEventCancelIndicator cmd); cbn [negb].
  - cbn [iobit.out iobit.cap iobit.PutUint iobit.PutBit iobit.NewWriter app].
    by rewrite app_nil_r, <- !app_assoc.
  - destruct (SpliceInsert.programSpliceFlag cmd) eqn:Hp; cbn [negb andb].
    + destruct (SpliceInsert.SpliceImmediateFlag cmd) eqn:Hi; cbn [negb andb].
      * destruct (SpliceInsert.BreakDuration' cmd) as [bd|];
          cbn [iobit.out iobit.cap iobit.PutUint iobit.PutBit iobit.NewWriter app];
          rewrite <- ?app_assoc; done.
      * match goal with
        | |- context [SpliceInsert.putTime ?f ?p ?w] =>
            destruct (putTime_out (SpliceInsert.Program cmd) f w
                        (programTimeSpecifiedFlag_timeOf _)) as [Ho Hc]
        end.
        destruct (SpliceInsert.BreakDuration' cmd) as [bd|];
          cbn [iobit.out iobit.cap iobit.PutUint iobit.PutBit];
          rewrite Ho, Hc;
          cbn [iobit.out iobit.cap iobit.PutUint iobit.PutBit iobit.NewWriter app];
          rewrite <- ?app_assoc; done.
    + match goal with
      | |- context [SpliceInsert.putComponents ?i ?cs ?w] =>
          destruct (putComponents_bits i cs w) as [Ho Hc]
      end.
      destruct (SpliceInsert.BreakDuration' cmd) as [bd|];
        cbn [iobit.out iobit.cap iobit.PutUint iobit.PutBit];
        rewrite Ho, Hc;
        cbn [iobit.out iobit.cap iobit.PutUint iobit.PutBit iobit.NewWriter app];
        rewrite <- ?app_assoc; done.
Qed.

Lemma timeBits_length (pts : option Z) :
  Z.of_nat (length (timeBits pts)) = match pts with Some _ => 40 | None => 8 end.
Proof. by destruct pts. Qed.

Lemma componentBits_length (immediate : bool) (c : SpliceInsert.SpliceInsertComponent) :
  Z.of_nat (length (componentBits immediate c))
  = 8 + (if immediate then 0
         else if SpliceInsert.componentTimeSpecifiedFlag c then 40 else 8).
Proof.
  unfold componentBits. rewrite length_app, Nat2Z.inj_add.
  rewrite componentTimeSpecifiedFlag_timeOf.
  destruct immediate; [done|]. rewrite timeBits_length.
  by destruct (timeOf _).
Qed.

(** The loop of [length] over the components counts their bits. *)
Lemma length_components (immediate : bool) (cs : list SpliceInsert.SpliceInsertComponent) :
  forall acc,
    fold_left
      (fun length c =>
         let length := length + 8 in
         if negb immediate then
           if SpliceInsert.componentTimeSpecifiedFlag c
           then length + 1 + 6 + 33 else length + 1 + 7
         else length)
      cs acc
    = acc + Z.of_nat (length (flat_map (componentBits immediate) cs)).
Proof.
  induction cs as [|c cs IH]; intros acc; cbn [fold_left flat_map].
  - simpl. lia.
  - rewrite IH, length_app, Nat2Z.inj_add, componentBits_length.
    destruct immediate; cbn [negb]; [lia|].
    destruct (SpliceInsert.componentTimeSpecifiedFlag c); lia.
Qed.

Lemma flat_map_componentBits_bytes (immediate : bool)
  (cs : list SpliceInsert.SpliceInsertComponent) :
  exists k, Z.of_nat (length (flat_map (componentBits immediate) cs)) = 8 * k /\ 0 <= k.
Proof.
  induction cs as [|c cs (k & Hk & Hk0)]; [by exists 0|].
  cbn [flat_map]. rewrite length_app, Nat2Z.inj_add, componentBits_length, Hk.
  destruct immediate; [exists (1 + k); lia|].
  destruct (SpliceInsert.componentTimeSpecifiedFlag c);
    [exists (6 + k) | exists (2 + k)]; lia.
Qed.

(** [length] is the number of bytes that the bits of the command fill. *)
Lemma spliceInsertBits_length (cmd : SpliceInsert.SpliceInsert) :
  Z.of_nat (length (spliceInsertBits cmd)) = 8 * SpliceInsert.length cmd
  /\ 0 <= SpliceInsert.length cmd.
Proof.
  unfold SpliceInsert.length, spliceInsertBits, spliceBits.
  destruct (flat_map_componentBits_bytes (SpliceInsert.SpliceImmediateFlag cmd)
              (SpliceInsert.Components cmd)) as (k & Hk & Hk0).
  rewrite length_components.
  rewrite !length_app, !Nat2Z.inj_add, !bits_of_Z_length.
  destruct (SpliceInsert.SpliceEventCancelIndicator cmd); cbn [negb length];
    [split; [reflexivity | done]|].
  rewrite !length_app, !Nat2Z.inj_add, !bits_of_Z_length.
  rewrite programTimeSpecifiedFlag_timeOf.
  unfold SpliceInsert.durationFlag.
  destruct (SpliceInsert.programSpliceFlag cmd), (SpliceInsert.SpliceImmediateFlag cmd),
    (timeOf (SpliceInsert.Program cmd)), (SpliceInsert.BreakDuration' cmd);
    cbn [negb andb length app timeBits];
    rewrite ?length_app, ?Nat2Z.inj_add, ?bits_of_Z_length, ?Hk;
    cbn [length];
    split; Z.div_mod_to_equations; lia.
Qed.

Lemma SpliceInsert_encode_bits (cmd : SpliceInsert.SpliceInsert) :
  exists b, SpliceInsert.encode cmd = (b, None)
    /\ Z.of_nat (length b) = SpliceInsert.length cmd
    /\ bits_of_bytes b = spliceInsertBits cmd.
Proof.
  destruct (SpliceInsert_encode_writer cmd) as (w & -> & Hout & Hcap).
  destruct (spliceInsertBits_length cmd) as [Hlen Hpos].
  assert (Hfill : Z.of_nat (length (iobit.out w)) = 8 * Z.of_nat (iobit.cap w))
    by (rewrite Hout, Hcap, Hlen; lia).
  destruct (Flush_bits w Hfill) as [-> Hbits].
  eexists. split; [reflexivity|]. split; [|by rewrite Hbits].
  rewrite (bytes_of_bits_length (iobit.cap w)) by lia. lia.
Qed.

(** X17. [encode] never overflows its buffer: whatever the command holds,
    [length] is exactly the number of bytes that [encode] writes, and the
    bytes are the fields in the order of the wire format. *)
Theorem splice_insert_encode_fills_buffer (cmd : SpliceInsert.SpliceInsert) :
  exists b, SpliceInsert.encode cmd = (b, None)
    /\ Z.of_nat (length b) = SpliceInsert.length cmd
    /\ bits_of_bytes b = spliceInsertBits cmd.
Proof. apply SpliceInsert_encode_bits. Qed.

(** ** splice_insert: reading it back *)

Ltac readbit H :=
  match type of H with
  | leftToRead ?r (?x :: ?rest) =>
      let E := fresh "E" in
      let H' := fresh "H" in
      destruct (leftToRead_Bit r x rest H) as [E H'];
      rewrite E; clear E H; rename H' into H
  end.

Lemma decodeTime_read (r : iobit.Reader) (pts : option Z) (rest : list bool) :
  leftToRead r (timeBits pts ++ rest) ->
  match pts with Some p => 0 <= p < 2 ^ 33 | None => True end ->
  exists r', SpliceInsert.decodeTime r = (pts, r') /\ leftToRead r' rest.
Proof.
  intros H Hp. unfold SpliceInsert.decodeTime, timeBits in *.
  destruct pts as [p|]; rewrite <- ?app_assoc in H; cbn [app] in H.
  - readbit H. skip_bits H 6%nat. read64 H.
    eexists. split; [|exact H].
    change (Z.of_nat 33) with 33. by rewrite Z.mod_small.
  - readbit H. skip_bits H 7%nat. by eexists.
Qed.

Lemma decodeComponents_read (immediate : bool)
  (cs : list SpliceInsert.SpliceInsertComponent) (rest : list bool) :
  forall r,
    leftToRead r (flat_map (componentBits immediate) cs ++ rest) ->
    Forall (componentDecodable immediate) cs ->
    exists r', SpliceInsert.decodeComponents (length cs) immediate r = (cs, r')
      /\ leftToRead r' rest.
Proof.
  induction cs as [|c cs IH]; intros r H Hall.
  - by exists r.
  - inversion Hall as [|? ? [Htag Htime] Hrest]; subst.
    cbn [flat_map length SpliceInsert.decodeComponents] in *.
    unfold componentBits in H at 1. rewrite <- !app_assoc in H.
    read32 H. change (Z.of_nat 8) with 8. rewrite Z.mod_small by done.
    destruct c as [tag t]. cbn [SpliceInsert.Tag SpliceInsert.SpliceTime'] in *.
    destruct immediate; cbn [negb].
    + cbn [app] in H. destruct (IH _ H Hrest) as (r' & -> & Hr').
      exists r'. split; [|done].
      destruct t as [[[p|]]|]; [by destruct Htime | done | done].
    + assert (Hp : match timeOf t with Some p => 0 <= p < 2 ^ 33 | None => True end).
      { destruct t as [[[p|]]|]; cbn [timeOf]; tauto. }
      destruct (decodeTime_read _ _ _ H Hp) as (r1 & -> & Hr1).
      destruct (IH _ Hr1 Hrest) as (r' & -> & Hr').
      exists r'. split; [|done].
      destruct t as [[[p|]]|]; [done | done | done].
Qed.

Lemma SpliceInsert_decode_tail (bd bdv : option SpliceInsert.BreakDuration)
  (upid an ae : Z) (r : iobit.Reader) :
  match bd with
  | Some bd => 0 <= SpliceInsert.Duration bd < 2 ^ 33
  | None => True
  end ->
  0 <= upid < 2 ^ 16 -> 0 <= an < 2 ^ 8 -> 0 <= ae < 2 ^ 8 ->
  leftToRead r (match bd with
     | Some bd =>
         [SpliceInsert.AutoReturn bd] ++ bits_of_Z 6 Reserved
           ++ bits_of_Z 33 (SpliceInsert.Duration bd)
     | None => []
     end ++ bits_of_Z 16 upid ++ bits_of_Z 8 an ++ bits_of_Z 8 ae) ->
  exists r1 r2,
    (if match bd with Some _ => true | None => false end
     then
       let '(autoReturn, r) := iobit.Bit r in
       let r := iobit.Skip 6 r in
       let '(duration, r) := iobit.Uint64 33 r in
       (Some (SpliceInsert.mkBreakDuration autoReturn duration), r)
     else (bdv, r)) = (match bd with Some _ => bd | None => bdv end, r1)
    /\ iobit.Uint32 16 r1 = (upid, r2)
    /\ iobit.Uint32 8 r2 = (an, iobit.Skip 8 r2)
    /\ iobit.Uint32 8 (iobit.Skip 8 r2) = (ae, iobit.Skip 8 (iobit.Skip 8 r2))
    /\ readerError (iobit.Skip 8 (iobit.Skip 8 r2)) = None.
Proof.
  intros Hbd Hu Ha He Hr.
  assert (Hrest : forall r1,
    leftToRead r1 (bits_of_Z 16 upid ++ bits_of_Z 8 an ++ bits_of_Z 8 ae) ->
    exists r2, iobit.Uint32 16 r1 = (upid, r2)
      /\ iobit.Uint32 8 r2 = (an, iobit.Skip 8 r2)
      /\ iobit.Uint32 8 (iobit.Skip 8 r2) = (ae, iobit.Skip 8 (iobit.Skip 8 r2))
      /\ readerError (iobit.Skip 8 (iobit.Skip 8 r2)) = None).
  { intros r1 H0.
    destruct (leftToRead_Uint32 _ _ _ _ H0 ltac:(lia)) as [E1 H1].
    destruct (leftToRead_Uint32 _ _ _ _ H1 ltac:(lia)) as [E2 H2].
    rewrite <- (app_nil_r (bits_of_Z 8 ae)) in H2.
    destruct (leftToRead_Uint32 _ _ _ _ H2 ltac:(lia)) as [E3 H3].
    exists (iobit.Skip 16 r1). rewrite E1, E2, E3.
    change (Z.of_nat 16) with 16. change (Z.of_nat 8) with 8.
    rewrite !Z.mod_small by done.
    repeat split. by apply leftToRead_done. }
  destruct bd as [[ar d]|].
  - cbn [SpliceInsert.AutoReturn SpliceInsert.Duration] in *.
    rewrite <- !app_assoc in Hr. cbn [app] in Hr.
    readbit Hr. skip_bits Hr 6%nat. read64 Hr.
    change (Z.of_nat 33) with 33. rewrite (Z.mod_small d) by done.
    destruct (Hrest _ Hr) as (r2 & ?). by do 2 eexists.
  - cbn [app] in Hr. destruct (Hrest _ Hr) as (r2 & ?). by do 2 eexists.
Qed.

Lemma SpliceInsert_decode_bits (cmd : SpliceInsert.SpliceInsert) (b : list byte) :
  spliceInsertDecodable cmd ->
  bits_of_bytes b = spliceInsertBits cmd ->
  SpliceInsert.decode SpliceInsert.zero b = (cmd, None).
Proof.
  intros (Hc & Hid & Hu & Ha & He & Hprog & Hbd) Hb.
  pose proof (leftToRead_new b) as H. rewrite Hb in H. clear Hb.
  destruct cmd as [prog cs bd id cancel imm oon upid an ae].
  unfold spliceInsertBits, spliceBits, SpliceInsert.programSpliceFlag,
    SpliceInsert.durationFlag in H.
  cbn [SpliceInsert.SpliceEventCancelIndicator SpliceInsert.SpliceEventID
       SpliceInsert.UniqueProgramID SpliceInsert.AvailNum SpliceInsert.AvailsExpected
       SpliceInsert.Program SpliceInsert.Components SpliceInsert.BreakDuration'
       SpliceInsert.SpliceImmediateFlag SpliceInsert.OutOfNetworkIndicator] in *.
  subst cancel. cbn [app] in H.
  unfold SpliceInsert.decode.
  read32 H. readbit H. skip_bits H 7%nat. cbn [negb].
  do 4 readbit H. skip_bits H 4%nat.
  change (Z.of_nat 32) with 32. rewrite (Z.mod_small id) by done.
  pose proof (fun r => SpliceInsert_decode_tail bd None upid an ae r Hbd Hu Ha He)
    as Htail.
  cbv zeta in Htail.
  change (SpliceInsert.BreakDuration' SpliceInsert.zero)
    with (@None SpliceInsert.BreakDuration).
  change (SpliceInsert.Components SpliceInsert.zero)
    with (@nil SpliceInsert.SpliceInsertComponent).
  change (SpliceInsert.Program SpliceInsert.zero)
    with (@None SpliceInsert.SpliceTime).
  destruct prog as [[pts]|].
  - destruct Hprog as [-> Hpts]. cbn [andb] in H.
    destruct imm; cbn [negb app] in H |- *.
    + destruct (Htail _ H) as (r1 & r2 & -> & -> & -> & -> & ->).
      destruct pts as [p|]; [by destruct Hpts|].
      by destruct bd.
    + assert (Hp : match pts with Some p => 0 <= p < 2 ^ 33 | None => True end).
      { destruct pts; tauto. }
      assert (Ht : timeOf (Some (SpliceInsert.mkSpliceTime pts)) = pts) by by destruct pts.
      rewrite Ht in H.
      destruct (decodeTime_read _ _ _ H Hp) as (r0 & -> & Hr0).
      destruct (Htail _ Hr0) as (r1 & r2 & -> & -> & -> & -> & ->).
      by destruct bd.
  - destruct Hprog as [Hlen Hall]. cbn [andb app] in H.
    rewrite <- app_assoc in H.
    read32 H. change (Z.of_nat 8) with 8.
    rewrite uint32_small by lia. rewrite Z.mod_small by lia. rewrite Nat2Z.id.
    destruct (decodeComponents_read _ _ _ _ H Hall) as (r0 & -> & Hr0).
    destruct (Htail _ Hr0) as (r1 & r2 & -> & -> & -> & -> & ->).
    by destruct bd.
Qed.

(** X18. A splice_insert that is not cancelled and keeps to the widths of its
    fields is read back from its own encoding as it was. *)
Theorem splice_insert_roundtrip (cmd : SpliceInsert.SpliceInsert) :
  spliceInsertDecodable cmd ->
  exists b, SpliceInsert.encode cmd = (b, None)
    /\ SpliceInsert.decode SpliceInsert.zero b = (cmd, None).
Proof.
  intros Hwf. destruct (SpliceInsert_encode_bits cmd) as (b & Henc & _ & Hbits).
  exists b. split; [done|]. by apply SpliceInsert_decode_bits.
Qed.

(** *** How far [decode] reads *)

Lemma decodeTime_reader (r : iobit.Reader) :
  iobit.src (snd (SpliceInsert.decodeTime r)) = iobit.src r
  /\ (iobit.idx r <= iobit.idx (snd (SpliceInsert.decodeTime r)))%nat.
Proof.
  unfold SpliceInsert.decodeTime, iobit.Bit, iobit.Uint64.
  destruct (match iobit.peek 1 r with b :: _ => b | [] => false end);
    cbn [snd iobit.Skip iobit.src iobit.idx]; split; [done | lia | done | lia].
Qed.

Lemma decodeComponents_reader (n : nat) (immediate : bool) :
  forall r,
    iobit.src (snd (SpliceInsert.decodeComponents n immediate r)) = iobit.src r
    /\ (iobit.idx r <= iobit.idx (snd (SpliceInsert.decodeComponents n immediate r)))%nat.
Proof.
  induction n as [|n IH]; intros r; [by cbn|].
  cbn [SpliceInsert.decodeComponents]. unfold iobit.Uint32.
  destruct immediate; cbn [negb].
  - destruct (IH (iobit.Skip 8 r)) as [Hs Hi].
    destruct (SpliceInsert.decodeComponents n true (iobit.Skip 8 r)) as [cs r'].
    cbn [snd iobit.Skip iobit.src iobit.idx] in *. split; [done | lia].
  - destruct (decodeTime_reader (iobit.Skip 8 r)) as [Hs0 Hi0].
    destruct (SpliceInsert.decodeTime (iobit.Skip 8 r)) as [pts r0].
    destruct (IH r0) as [Hs Hi].
    destruct (SpliceInsert.decodeComponents n false r0) as [cs r'].
    cbn [snd iobit.Skip iobit.src iobit.idx] in *. split; [congruence | lia].
Qed.

Lemma SpliceInsert_decode_reader (cmd : SpliceInsert.SpliceInsert) (b : list byte) :
  exists r,
    snd (SpliceInsert.decode cmd b)
    = match readerError r with
      | Some err => Some (str "splice_insert", err)
      | None => None
      end
    /\ iobit.src r = b /\ (72 <= iobit.idx r)%nat.
Proof.
  unfold SpliceInsert.decode, iobit.Uint32, iobit.Uint64, iobit.Bit.
  set (r0 := iobit.NewReader b).
  destruct (match iobit.peek 1 (iobit.Skip 32 r0) with b :: _ => b | [] => false end);
    cbn [negb].
  - match goal with |- context [readerError ?r] => exists r end.
      split; [by destruct (readerError _)|]. split; [done | cbn; lia].
  - set (r1 := iobit.Skip 7 (iobit.Skip 1 (iobit.Skip 32 r0))).
    set (r2 := iobit.Skip 4 (iobit.Skip 1 (iobit.Skip 1 (iobit.Skip 1 (iobit.Skip 1 r1))))).
    assert (H2 : iobit.src r2 = b /\ (48 <= iobit.idx r2)%nat) by (split; [done | cbn; lia]).
    destruct H2 as [Hb2 Hi2]. clearbody r2.
    set (pc := if match iobit.peek 1 (iobit.Skip 1 r1) with b :: _ => b | [] => false end
               then _ else _).
    assert (Hpc : iobit.src (snd pc) = b /\ (48 <= iobit.idx (snd pc))%nat).
    { subst pc. destruct (match iobit.peek 1 (iobit.Skip 1 r1) with b :: _ => b | [] => false end).
      - destruct (negb _).
        + destruct (decodeTime_reader r2) as [Hs Hi].
          destruct (SpliceInsert.decodeTime r2) as [pts r']. cbn [snd] in *.
          split; [congruence | lia].
        + done.
      - destruct (decodeComponents_reader
                    (Z.to_nat (uint32 (Z_of_bits (iobit.peek 8 r2))))
                    (match iobit.peek 1 (iobit.Skip 1 (iobit.Skip 1 (iobit.Skip 1 r1)))
                     with b :: _ => b | [] => false end)
                    (iobit.Skip 8 r2)) as [Hs Hi].
        destruct (SpliceInsert.decodeComponents _ _ _) as [cs r'].
        cbn [snd iobit.Skip iobit.src iobit.idx] in *. split; [congruence | lia]. }
    destruct pc as [[program components] r3]. cbn [snd] in Hpc.
    destruct (match iobit.peek 1 (iobit.Skip 1 (iobit.Skip 1 r1)) with b :: _ => b | [] => false end).
    + match goal with |- context [readerError ?r] => exists r end.
      split; [by destruct (readerError _)|].
      cbn [iobit.Skip iobit.src iobit.idx]. split; [tauto | lia].
    + match goal with |- context [readerError ?r] => exists r end.
      split; [by destruct (readerError _)|].
      cbn [iobit.Skip iobit.src iobit.idx]. split; [tauto | lia].
Qed.

Lemma SpliceInsert_decode_short (cmd : SpliceInsert.SpliceInsert) (b : list byte) :
  (length b < 9)%nat ->
  snd (SpliceInsert.decode cmd b) = Some (str "splice_insert", ErrBufferOverflow).
Proof.
  intros Hb. destruct (SpliceInsert_decode_reader cmd b) as (r & -> & Hs & Hi).
  unfold readerError, iobit.overflowed, iobit.size. rewrite Hs.
  by destruct (Nat.ltb_spec (8 * length b) (iobit.idx r)); [|lia].
Qed.

(** X19. [decode] reads at least nine bytes: of anything shorter it reports
    that the buffer overflowed, whatever the bytes are. *)
Theorem splice_insert_short_input (cmd : SpliceInsert.SpliceInsert) (b : list byte) :
  (length b < 9)%nat ->
  snd (SpliceInsert.decode cmd b) = Some (str "splice_insert", ErrBufferOverflow).
Proof. apply SpliceInsert_decode_short. Qed.

(** X20. [encode] writes a cancelled splice_insert in five bytes, without the
    unique_program_id, avail_num and avails_expected that [decode] reads in
    every case: the command is not read back from its own encoding, [decode]
    reports that the buffer overflowed. *)
Theorem splice_insert_cancelled_not_read_back (cmd : SpliceInsert.SpliceInsert) :
  SpliceInsert.SpliceEventCancelIndicator cmd = true ->
  exists b, SpliceInsert.encode cmd = (b, None)
    /\ length b = 5%nat
    /\ snd (SpliceInsert.decode SpliceInsert.zero b)
       = Some (str "splice_insert", ErrBufferOverflow).
Proof.
  intros Hc. destruct (SpliceInsert_encode_bits cmd) as (b & Henc & Hlen & _).
  assert (Hb : length b = 5%nat).
  { unfold SpliceInsert.length in Hlen. rewrite Hc in Hlen. cbn [negb] in Hlen.
    change ((32 + 1 + 7) / 8) with 5 in Hlen. lia. }
  exists b. split; [done|]. split; [done|].
  apply SpliceInsert_decode_short. lia.
Qed.

Lemma splice_insert_roundtrip_witness :
  let cmd :=
    SpliceInsert.mkSpliceInsert None
      [SpliceInsert.mkComponent 1 (Some (SpliceInsert.mkSpliceTime (Some 900000)));
       SpliceInsert.mkComponent 2 None]
      (Some (SpliceInsert.mkBreakDuration true 2700000))
      0x4800008f false false true 0x7369 0 0 in
  spliceInsertDecodable cmd
  /\ exists b, SpliceInsert.encode cmd = (b, None)
       /\ SpliceInsert.decode SpliceInsert.zero b = (cmd, None).
Proof.
  intros cmd.
  assert (Hwf : spliceInsertDecodable cmd).
  { unfold spliceInsertDecodable, cmd; cbn.
    repeat split; try lia.
    repeat constructor; cbn; lia. }
  split; [exact Hwf | exact (splice_insert_roundtrip cmd Hwf)].
Defined.

Lemma splice_insert_short_input_witness :
  (length [x48; x00; x00; x8f; xff] < 9)%nat
  /\ snd (SpliceInsert.decode SpliceInsert.zero [x48; x00; x00; x8f; xff])
     = Some (str "splice_insert", ErrBufferOverflow).
Proof.
  assert (H : (length [x48; x00; x00; x8f; xff] < 9)%nat) by (cbn; lia).
  split; [exact H | exact (splice_insert_short_input _ _ H)].
Defined.

Lemma splice_insert_cancelled_witness :
  let cmd := SpliceInsert.mkSpliceInsert None [] None 0x4800008f true false false 0 0 0 in
  SpliceInsert.SpliceEventCancelIndicator cmd = true
  /\ exists b, SpliceInsert.encode cmd = (b, None)
       /\ length b = 5%nat
       /\ snd (SpliceInsert.decode SpliceInsert.zero b)
          = Some (str "splice_insert", ErrBufferOverflow).
Proof.
  intros cmd. split; [reflexivity|].
  exact (splice_insert_cancelled_not_read_back cmd eq_refl).
Defined.

(** ** UPID values read back *)

Lemma base64_value_char (v : Z) : 0 <= v < 64 ->
  base64.value (base64.char v) = Some v
  /\ base64.isNewline (base64.char v) = false.
Proof.
  intros Hv.
  assert (H : forallb (fun n =>
            match base64.value (base64.char (Z.of_nat n)) with
            | Some v' => (v' =? Z.of_nat n) | None => false
            end && negb (base64.isNewline (base64.char (Z.of_nat n))))
            (seq 0 64) = true) by (vm_compute; reflexivity).
  rewrite forallb_forall in H. specialize (H (Z.to_nat v)).
  rewrite Z2Nat.id in H by lia.
  assert (Hin : In (Z.to_nat v) (seq 0 64)) by (apply in_seq; lia).
  apply H in Hin. apply andb_prop in Hin as [H1 H2].
  destruct (base64.value (base64.char v)) as [v'|]; [|done].
  apply Z.eqb_eq in H1. subst v'. split; [done|]. by destruct (base64.isNewline _).
Qed.

Ltac sextet :=
  repeat match goal with
         | a : byte |- _ =>
             lazymatch goal with
             | _ : 0 <= Z_of_byte a < 256 |- _ => fail
             | _ => pose proof (Z_of_byte_range a)
             end
         end;
  Z.div_mod_to_equations; lia.

Lemma base64_pad : base64.value "="%byte = None /\ base64.isPad "="%byte = true
  /\ base64.isNewline "="%byte = false.
Proof. by vm_compute. Qed.

Lemma base64_no_newline (l : list byte) :
  Forall (fun c => base64.isNewline c = false) (base64.EncodeToString l).
Proof.
  destruct base64_pad as (_ & _ & Hpad).
  assert (H : forall n l, (length l <= n)%nat ->
    Forall (fun c => base64.isNewline c = false) (base64.EncodeToString l)).
  { clear l. induction n as [|n IH]; intros [|a [|b [|c rest]]] Hl; simpl in Hl; try lia;
      cbn [base64.EncodeToString];
      repeat (constructor; try (apply base64_value_char; sextet)); try done.
    apply IH. lia. }
  by apply (H (length l)).
Qed.

Lemma filter_all {A} (f : A -> bool) (l : list A) :
  Forall (fun c => f c = true) l -> List.filter f l = l.
Proof.
  induction 1 as [|x l Hx _ IH]; [done|]. cbn [List.filter]. by rewrite Hx, IH.
Qed.

Lemma base64_value_of_char (v : Z) : 0 <= v < 64 ->
  base64.value (base64.char v) = Some v.
Proof. apply base64_value_char. Qed.

Lemma byte_of_Z_eq (a : byte) (v : Z) : v = Z_of_byte a -> byte_of_Z v = a.
Proof. intros ->. apply byte_of_Z_of_byte. Qed.

Lemma base64_decodeQuanta_Encode (l : list byte) :
  base64.decodeQuanta (base64.EncodeToString l) = (l, true).
Proof.
  destruct base64_pad as (Hv & Hp & _).
  assert (H : forall n l, (length l <= n)%nat ->
    base64.decodeQuanta (base64.EncodeToString l) = (l, true)).
  { clear l. induction n as [|n IH]; intros [|a [|b [|c rest]]] Hl; simpl in Hl; try lia;
      try done; cbn [base64.EncodeToString base64.decodeQuanta].
    - rewrite !base64_value_of_char by sextet. rewrite Hv, Hp. cbn [andb].
      repeat f_equal; apply byte_of_Z_eq; sextet.
    - rewrite !base64_value_of_char by sextet. rewrite Hv, Hp. cbn [andb].
      repeat f_equal; apply byte_of_Z_eq; sextet.
    - rewrite !base64_value_of_char by sextet.
      rewrite IH by lia. repeat f_equal; apply byte_of_Z_eq; sextet. }
  by apply (H (length l)).
Qed.

Lemma base64_DecodeString_Encode (l : list byte) :
  base64.DecodeString (base64.EncodeToString l) = (l, true).
Proof.
  unfold base64.DecodeString. rewrite filter_all; [apply base64_decodeQuanta_Encode|].
  eapply Forall_impl; [apply base64_no_newline|]. by intros c ->.
Qed.

Lemma LeftBytes_new (buf : list byte) : iobit.LeftBytes (iobit.NewReader buf) = buf.
Proof. done. Qed.

Lemma upid_value_plain (t : Z) (buf : list byte) :
  t <> SegmentationUPIDTypeEIDR -> t <> SegmentationUPIDTypeTI ->
  t <> SegmentationUPIDTypeMPU ->
  Upid.valueBytes (Upid.NewSegmentationUPID t buf) = Some buf.
Proof.
  intros He Ht Hm. unfold Upid.NewSegmentationUPID. rewrite LeftBytes_new.
  destruct (Z.eqb_spec t SegmentationUPIDTypeEIDR) as [|_]; [done|].
  destruct (Z.eqb_spec t SegmentationUPIDTypeMPU) as [|_]; [done|].
  destruct (Z.eqb_spec t SegmentationUPIDTypeTI) as [|_]; [done|].
  unfold Upid.valueBytes.
  destruct ((t =? SegmentationUPIDTypeISAN) || (t =? SegmentationUPIDTypeISANDeprecated));
    cbn [Upid.Type' Upid.Format Upid.Value Upid.FormatIdentifier];
    destruct (Z.eqb_spec t SegmentationUPIDTypeEIDR) as [|_]; try done;
    destruct (Z.eqb_spec t SegmentationUPIDTypeMPU) as [|_]; try done;
    destruct (Z.eqb_spec t SegmentationUPIDTypeTI) as [|_]; try done.
  - change (list_byte_eqb (str "base-64") (str "hexbinary")) with false.
    change (list_byte_eqb (str "base-64") (str "base-64")) with true.
    cbv iota. by rewrite base64_DecodeString_Encode.
Qed.

Lemma bits_of_bytes_zeros (k : nat) :
  bits_of_bytes (repeat x00 k) = repeat false (8 * k).
Proof.
  induction k as [|k IH]; [done|].
  replace (8 * S k)%nat with (8 + 8 * k)%nat by lia.
  rewrite repeat_app. cbn [repeat]. unfold bits_of_bytes in *. cbn [flat_map].
  by rewrite IH.
Qed.

Lemma upid_value_mpu (buf : list byte) :
  Upid.valueBytes (Upid.NewSegmentationUPID SegmentationUPIDTypeMPU buf)
  = Some (buf ++ repeat x00 (4 - length buf)).
Proof.
  unfold Upid.NewSegmentationUPID.
  change (SegmentationUPIDTypeMPU =? SegmentationUPIDTypeEIDR) with false.
  change ((SegmentationUPIDTypeMPU =? SegmentationUPIDTypeISAN)
          || (SegmentationUPIDTypeMPU =? SegmentationUPIDTypeISANDeprecated)) with false.
  change (SegmentationUPIDTypeMPU =? SegmentationUPIDTypeMPU) with true.
  cbv iota. unfold iobit.Uint32. unfold Upid.valueBytes.
  cbn [Upid.Type' Upid.Format Upid.Value Upid.FormatIdentifier].
  change (SegmentationUPIDTypeMPU =? SegmentationUPIDTypeMPU) with true. cbv iota.
  rewrite base64_DecodeString_Encode. cbn [fst].
  unfold iobit.LeftBytes, iobit.peek.
  cbn [iobit.Skip iobit.NewReader iobit.idx iobit.src]. rewrite drop_0.
  change ((0 + 32) / 8)%nat with 4%nat.
  set (P := take 32 (bits_of_bytes buf ++ repeat false 32)).
  assert (HP : P = bits_of_bytes (take 4 (buf ++ repeat x00 4))).
  { unfold P. rewrite bits_of_bytes_take, bits_of_bytes_app, bits_of_bytes_zeros. done. }
  assert (Hlen : length P = 32%nat).
  { unfold P. rewrite length_take, length_app, repeat_length. lia. }
  pose proof (Z_of_bits_range P) as Hr. rewrite Hlen in Hr.
  rewrite uint32_small by (change (Z.of_nat 32) with 32 in Hr; lia).
  unfold be_bytes. change (8 * 4)%nat with 32%nat. rewrite <- Hlen at 1.
  rewrite bits_of_Z_of_bits, HP, bytes_of_bits_of_bytes.
  f_equal. destruct (Nat.le_gt_cases 4 (length buf)) as [Hge|Hlt].
  - rewrite take_app_le by done. rewrite take_drop.
    replace (4 - length buf)%nat with 0%nat by lia. by rewrite app_nil_r.
  - destruct buf as [|a [|b [|c [|d ?]]]]; simpl in Hlt; try lia; done.
Qed.

(** X22. A UPID gives back, as its value bytes, the bytes it was made from: in
    base 64 for the two ISAN types, behind the format identifier for an MPU
    made from four bytes or more, as they are for the other types.  EIDR and
    TI are apart. *)
Theorem upid_value_read_back (t : Z) (buf : list byte) :
  t <> SegmentationUPIDTypeEIDR -> t <> SegmentationUPIDTypeTI ->
  (t = SegmentationUPIDTypeMPU -> (4 <= length buf)%nat) ->
  Upid.valueBytes (Upid.NewSegmentationUPID t buf) = Some buf.
Proof.
  intros He Ht Hm. destruct (Z.eq_dec t SegmentationUPIDTypeMPU) as [->|Hn].
  - rewrite upid_value_mpu. specialize (Hm eq_refl).
    replace (4 - length buf)%nat with 0%nat by lia. by rewrite app_nil_r.
  - by apply upid_value_plain.
Qed.

Lemma upid_value_read_back_witness :
  let buf := [x41; x42; x43; x44; x00; x2c; xa0; xa1; xe3] in
  SegmentationUPIDTypeMPU <> SegmentationUPIDTypeEIDR
  /\ SegmentationUPIDTypeMPU <> SegmentationUPIDTypeTI
  /\ (4 <= length buf)%nat
  /\ Upid.valueBytes (Upid.NewSegmentationUPID SegmentationUPIDTypeMPU buf) = Some buf.
Proof.
  intros buf.
  assert (He : SegmentationUPIDTypeMPU <> SegmentationUPIDTypeEIDR) by done.
  assert (Ht : SegmentationUPIDTypeMPU <> SegmentationUPIDTypeTI) by done.
  assert (Hl : (4 <= length buf)%nat) by (cbn; lia).
  split; [exact He|]. split; [exact Ht|]. split; [exact Hl|].
  exact (upid_value_read_back SegmentationUPIDTypeMPU buf He Ht (fun _ => Hl)).
Defined.

(** ** The segmentation descriptor: when [encode] panics, and its header *)

Lemma valueBytes_None (u : Upid.SegmentationUPID) :
  Upid.valueBytes u = None
  <-> Upid.Type' u = SegmentationUPIDTypeMPU /\ Upid.FormatIdentifier u = None.
Proof.
  unfold Upid.valueBytes.
  destruct (Z.eqb_spec (Upid.Type' u) SegmentationUPIDTypeMPU) as [Hm|Hm].
  - destruct (Upid.FormatIdentifier u); split; try done. by intros [_ ?].
  - split; [|by intros [? _]].
    by repeat match goal with |- context [if ?c then _ else _] => destruct c end.
Qed.

Lemma valuesOf_None (upids : list Upid.SegmentationUPID) :
  valuesOf upids = None <-> exists u, u ∈ upids /\ Upid.valueBytes u = None.
Proof.
  induction upids as [|u upids IH]; cbn [valuesOf].
  - split; [done|]. intros (u & Hu & _). by apply elem_of_nil in Hu.
  - destruct (Upid.valueBytes u) as [vb|] eqn:Hvb; cbn [mbind option_bind].
    + destruct (valuesOf upids) as [vbs|]; cbn [mbind option_bind].
      * split; [done|]. intros (u' & Hu' & Hn).
        apply elem_of_cons in Hu' as [->|Hu']; [congruence|].
        destruct IH as [_ IH]. discriminate IH. by exists u'.
      * split; [|done]. intros _. destruct IH as [IH _].
        destruct (IH eq_refl) as (u' & Hu' & Hn). exists u'. split; [|done].
        by apply elem_of_cons; right.
    + split; [|done]. intros _. exists u. split; [|done]. by apply elem_of_cons; left.
Qed.

Lemma SegDesc_length_None (sd : SegDesc.SegmentationDescriptor) :
  SegDesc.length sd = None
  <-> SegDesc.SegmentationEventCancelIndicator sd = false
      /\ valuesOf (SegDesc.SegmentationUPIDs sd) = None.
Proof.
  unfold SegDesc.length. rewrite SegmentationUpidLength_spec.
  destruct (SegDesc.SegmentationEventCancelIndicator sd); cbn [negb].
  - split; [done | by intros [? _]].
  - destruct (valuesOf (SegDesc.SegmentationUPIDs sd)); cbn [option_map mbind option_bind].
    + split; [done | by intros [_ ?]].
    + done.
Qed.

Lemma SegDesc_encode_None (sd : SegDesc.SegmentationDescriptor) :
  SegDesc.encode sd = None
  <-> SegDesc.SegmentationEventCancelIndicator sd = false
      /\ valuesOf (SegDesc.SegmentationUPIDs sd) = None.
Proof.
  split.
  - intros He.
    destruct (SegDesc.SegmentationEventCancelIndicator sd) eqn:Hc.
    + destruct (encode_cancelled sd Hc) as (buf & Hb & _). congruence.
    + split; [done|].
      destruct (valuesOf (SegDesc.SegmentationUPIDs sd)) as [vbs|] eqn:Hv; [|done].
      destruct (encode_layout sd vbs Hc Hv) as (pre & values & Hb & _). congruence.
  - intros H. apply SegDesc_length_None in H.
    unfold SegDesc.encode, SegDesc.encodeWriter. by rewrite H.
Qed.

(** X23. [encode] panics on a nil pointer exactly when the descriptor is not
    cancelled and one of its UPIDs is an MPU without a format identifier. *)
Theorem segmentation_descriptor_encode_panics (sd : SegDesc.SegmentationDescriptor) :
  SegDesc.encode sd = None
  <-> SegDesc.SegmentationEventCancelIndicator sd = false
      /\ exists u, u ∈ SegDesc.SegmentationUPIDs sd
           /\ Upid.Type' u = SegmentationUPIDTypeMPU
           /\ Upid.FormatIdentifier u = None.
Proof.
  rewrite SegDesc_encode_None, valuesOf_None.
  split; intros (Hc & u & Hu & H); (split; [done|]); exists u; (split; [done|]);
    by apply valueBytes_None.
Qed.

(** Whatever follows the head of the descriptor is appended to it. *)
Lemma putUPID_extends (w w' : iobit.Writer) (u : Upid.SegmentationUPID) :
  SegDesc.putUPID w u = Some w' ->
  iobit.cap w' = iobit.cap w /\ exists X, iobit.out w' = iobit.out w ++ X.
Proof.
  unfold SegDesc.putUPID. destruct (Upid.valueBytes u) as [vb|]; [|done].
  cbn [mbind option_bind]. intros [= <-]. split; [done|].
  cbn [iobit.out iobit.Write iobit.PutUint]. rewrite <- !app_assoc. by eexists.
Qed.

Lemma putUPIDs_extends (upids : list Upid.SegmentationUPID) :
  forall w w', SegDesc.putUPIDs w upids = Some w' ->
    iobit.cap w' = iobit.cap w /\ exists X, iobit.out w' = iobit.out w ++ X.
Proof.
  induction upids as [|u upids IH]; intros w w'; cbn [SegDesc.putUPIDs].
  - intros [= <-]. split; [done|]. exists []. by rewrite app_nil_r.
  - destruct (SegDesc.putUPID w u) as [w1|] eqn:H1; [|done]. cbn [mbind option_bind].
    intros H2. destruct (putUPID_extends _ _ _ H1) as (C1 & X1 & E1).
    destruct (IH _ _ H2) as (C2 & X2 & E2). split; [congruence|]. exists (X1 ++ X2).
    by rewrite E2, E1, <- app_assoc.
Qed.

Lemma encodeUPIDs_extends (sd : SegDesc.SegmentationDescriptor) (w w' : iobit.Writer) :
  SegDesc.encodeUPIDs sd w = Some w' ->
  iobit.cap w' = iobit.cap w /\ exists X, iobit.out w' = iobit.out w ++ X.
Proof.
  unfold SegDesc.encodeUPIDs.
  destruct (SegDesc.SegmentationUPIDs sd) as [|u [|u' us]].
  - intros [= <-]. split; [done|].
    cbn [iobit.out iobit.PutUint]. rewrite <- !app_assoc. by eexists.
  - apply putUPID_extends.
  - destruct (SegDesc.SegmentationUpidLength sd) as [len|]; [|done].
    cbn [mbind option_bind]. intros H.
    destruct (putUPIDs_extends _ _ _ H) as (C & X & E). split; [by rewrite C|].
    rewrite E. cbn [iobit.out iobit.PutUint]. rewrite <- !app_assoc. by eexists.
Qed.

Lemma encodeWriter_head (sd : SegDesc.SegmentationDescriptor) (w : iobit.Writer) :
  SegDesc.encodeWriter sd = Some w ->
  exists len X,
    SegDesc.length sd = Some len
    /\ iobit.out w = iobit.out (SegDesc.encodeHead sd len) ++ X
    /\ iobit.cap w = Z.to_nat (len + 2)
    /\ Z.of_nat (length (iobit.out w)) = 8 * Z.of_nat (iobit.cap w).
Proof.
  intros Hw.
  assert (Hfill : Z.of_nat (length (iobit.out w)) = 8 * Z.of_nat (iobit.cap w)).
  { destruct (SegDesc.SegmentationEventCancelIndicator sd) eqn:Hc.
    - unfold SegDesc.encodeWriter, SegDesc.length in Hw. rewrite Hc in Hw.
      cbn [negb mbind option_bind] in Hw. injection Hw as <-.
      change ((32 + 32 + 1 + 7) / 8) with 9.
      destruct (encodeHead_out sd 9) as [-> ->]. done.
    - destruct (valuesOf (SegDesc.SegmentationUPIDs sd)) as [vbs|] eqn:Hv.
      + destruct (encodeWriter_layout sd vbs Hc Hv) as (w0 & ? & ? & Hw0 & _ & _ & _ & H).
        congruence.
      + assert (Hn : SegDesc.length sd = None) by by apply SegDesc_length_None.
        unfold SegDesc.encodeWriter in Hw. by rewrite Hn in Hw. }
  unfold SegDesc.encodeWriter in Hw.
  destruct (SegDesc.length sd) as [len|]; [|done]. cbn [mbind option_bind] in Hw.
  exists len.
  destruct (encodeHead_out sd len) as [_ Hcap].
  destruct (negb (SegDesc.SegmentationEventCancelIndicator sd)).
  - destruct (SegDesc.encodeUPIDs sd _) as [w1|] eqn:H1; [|done].
    cbn [mbind option_bind] in Hw. injection Hw as <-.
    destruct (encodeUPIDs_extends _ _ _ H1) as (C1 & X1 & E1).
    destruct (encodeFlags_out sd (SegDesc.encodeHead sd len)) as (F & EF & _ & HFc).
    destruct (encodeTail_out sd w1) as [ET HTc].
    exists (F ++ X1 ++ tailBits sd). split; [done|]. split; [|split; [|done]].
    + by rewrite ET, E1, EF, <- !app_assoc.
    + congruence.
  - injection Hw as <-. exists []. by rewrite app_nil_r.
Qed.

Lemma SegDesc_encode_header (sd : SegDesc.SegmentationDescriptor) (b : list byte)
  (err : option error) :
  SegDesc.encode sd = Some (b, err) ->
  err = None
  /\ exists len rest,
       SegDesc.length sd = Some len
       /\ b = byte_of_Z SegmentationDescriptorTag :: byte_of_Z len :: rest
       /\ Z.of_nat (length rest) = len.
Proof.
  unfold SegDesc.encode. destruct (SegDesc.encodeWriter sd) as [w|] eqn:Hw; [|done].
  cbn [mbind option_bind]. intros He.
  destruct (encodeWriter_head sd w Hw) as (len & X & Hlen & Hout & Hcap & Hfill).
  rewrite Flush_exact in He by done. injection He as <- <-. split; [done|].
  exists len. rewrite Hout in *. unfold SegDesc.encodeHead in *.
  cbn [iobit.out iobit.PutUint iobit.PutBit iobit.NewWriter app] in *.
  rewrite <- !app_assoc in *. rewrite !bytes_of_bits_byte, byte_of_Z_uint32.
  eexists. split; [done|]. split; [done|].
  rewrite !length_app, !bits_of_Z_length in Hfill. simpl length in Hfill.
  match goal with |- Z.of_nat (length (bytes_of_bits ?l)) = _ => set (R := l) in * end.
  assert (HR : (length R = 8 * Z.to_nat len)%nat).
  { unfold R. rewrite !length_app, !bits_of_Z_length. simpl length. lia. }
  rewrite (bytes_of_bits_length _ _ HR). lia.
Qed.

(** X24. What [encode] returns, when it returns, is without error and starts
    with the tag 0x02 and the low eight bits of [length], which is the
    number of the bytes that follow these two. *)
Theorem segmentation_descriptor_length_byte (sd : SegDesc.SegmentationDescriptor)
  (b : list byte) (err : option error) :
  SegDesc.encode sd = Some (b, err) ->
  err = None
  /\ exists len rest,
       SegDesc.length sd = Some len
       /\ b = byte_of_Z SegmentationDescriptorTag :: byte_of_Z len :: rest
       /\ Z.of_nat (length rest) = len.
Proof. apply SegDesc_encode_header. Qed.

Lemma segmentation_descriptor_length_byte_witness :
  exists b, SegDesc.encode sd_ti_short = Some (b, None)
    /\ exists len rest,
         SegDesc.length sd_ti_short = Some len
         /\ b = byte_of_Z SegmentationDescriptorTag :: byte_of_Z len :: rest
         /\ Z.of_nat (length rest) = len.
Proof.
  let v := eval vm_compute in (SegDesc.encode sd_ti_short) in
  assert (He : SegDesc.encode sd_ti_short = v) by (vm_compute; reflexivity).
  match type of He with
  | _ = Some (?b, ?e) =>
      exists b; split;
        [exact He | exact (proj2 (segmentation_descriptor_length_byte _ b e He))]
  end.
Defined.

(** ** The segmentation descriptor: cancelled descriptors and short input *)

Lemma SegDesc_encode_cancelled_bits (sd : SegDesc.SegmentationDescriptor) :
  SegDesc.SegmentationEventCancelIndicator sd = true ->
  exists b, SegDesc.encode sd = Some (b, None)
    /\ bits_of_bytes b
       = bits_of_Z 8 SegmentationDescriptorTag ++ bits_of_Z 8 (uint32 9)
           ++ bits_of_Z 32 CUEIdentifier
           ++ bits_of_Z 32 (SegDesc.SegmentationEventID sd)
           ++ [true] ++ bits_of_Z 7 Reserved.
Proof.
  intros Hc. unfold SegDesc.encode, SegDesc.encodeWriter, SegDesc.length.
  rewrite Hc. cbn [negb mbind option_bind].
  change ((32 + 32 + 1 + 7) / 8) with 9.
  destruct (encodeHead_out sd 9) as [Hl Hcap].
  destruct (Flush_bits (SegDesc.encodeHead sd 9)) as [Hf Hb]; [by rewrite Hl, Hcap|].
  rewrite Hf. eexists. split; [reflexivity|]. rewrite Hb.
  unfold SegDesc.encodeHead. cbn [iobit.out iobit.PutUint iobit.PutBit iobit.NewWriter app].
  rewrite Hc. by rewrite <- !app_assoc.
Qed.

Lemma SegDesc_decode_cancelled (sd : SegDesc.SegmentationDescriptor) :
  SegDesc.SegmentationEventCancelIndicator sd = true ->
  0 <= SegDesc.SegmentationEventID sd < 2 ^ 32 ->
  exists b, SegDesc.encode sd = Some (b, None)
    /\ SegDesc.decode SegDesc.zero b
       = (SegDesc.mkSD None [] [] (SegDesc.SegmentationEventID sd) true None 0 0 0
            None None, None).
Proof.
  intros Hc Hid. destruct (SegDesc_encode_cancelled_bits sd Hc) as (b & He & Hb).
  exists b. split; [done|].
  pose proof (leftToRead_new b) as H. rewrite Hb in H.
  unfold SegDesc.decode, SegDesc.decodeHead. cbv zeta.
  skip_bits H 8%nat. skip_bits H 8%nat. skip_bits H 32%nat.
  read32 H. cbn [app] in H. readbit H.
  rewrite <- (app_nil_r (bits_of_Z 7 Reserved)) in H. skip_bits H 7%nat.
  cbn [SegDesc.SegmentationEventCancelIndicator negb].
  rewrite (leftToRead_done _ H).
  change (Z.of_nat 32) with 32. by rewrite Z.mod_small.
Qed.

(** X25. A cancelled descriptor is read back from its own encoding with its event
    id and the cancel indicator, and with nothing else. *)
Theorem segmentation_descriptor_cancelled_roundtrip (sd : SegDesc.SegmentationDescriptor) :
  SegDesc.SegmentationEventCancelIndicator sd = true ->
  0 <= SegDesc.SegmentationEventID sd < 2 ^ 32 ->
  exists b, SegDesc.encode sd = Some (b, None)
    /\ SegDesc.decode SegDesc.zero b
       = (SegDesc.mkSD None [] [] (SegDesc.SegmentationEventID sd) true None 0 0 0
            None None, None).
Proof. apply SegDesc_decode_cancelled. Qed.

Lemma segmentation_descriptor_cancelled_roundtrip_witness :
  SegDesc.SegmentationEventCancelIndicator sd_cancelled = true
  /\ 0 <= SegDesc.SegmentationEventID sd_cancelled < 2 ^ 32
  /\ exists b, SegDesc.encode sd_cancelled = Some (b, None)
       /\ SegDesc.decode SegDesc.zero b
          = (SegDesc.mkSD None [] [] (SegDesc.SegmentationEventID sd_cancelled) true
               None 0 0 0 None None, None).
Proof.
  assert (Hc : SegDesc.SegmentationEventCancelIndicator sd_cancelled = true) by reflexivity.
  assert (Hid : 0 <= SegDesc.SegmentationEventID sd_cancelled < 2 ^ 32) by (cbn; lia).
  split; [exact Hc|]. split; [exact Hid|].
  exact (segmentation_descriptor_cancelled_roundtrip sd_cancelled Hc Hid).
Defined.

(** *** How far [decode] reads *)

Lemma movedOn_refl (r : iobit.Reader) : movedOn r r.
Proof. by split. Qed.

Lemma movedOn_trans (r1 r2 r3 : iobit.Reader) :
  movedOn r1 r2 -> movedOn r2 r3 -> movedOn r1 r3.
Proof. intros [S1 I1] [S2 I2]. split; [congruence | lia]. Qed.

Lemma movedOn_Skip (n : nat) (r r' : iobit.Reader) :
  movedOn r r' -> movedOn r (iobit.Skip n r').
Proof. intros [S1 I1]. split; [done | cbn; lia]. Qed.

Lemma SegDesc_decodeComponents_reader (n : nat) :
  forall r, movedOn r (snd (SegDesc.decodeComponents n r)).
Proof.
  induction n as [|n IH]; intros r; [apply movedOn_refl|].
  cbn [SegDesc.decodeComponents]. unfold iobit.Uint32, iobit.Uint64.
  specialize (IH (iobit.Skip 33 (iobit.Skip 7 (iobit.Skip 8 r)))).
  destruct (SegDesc.decodeComponents n _) as [cs r']. cbn [snd] in *.
  eapply movedOn_trans; [|exact IH]. do 3 apply movedOn_Skip. apply movedOn_refl.
Qed.

Lemma decodeUPIDs_reader (old : list Upid.SegmentationUPID) (r : iobit.Reader) :
  movedOn (iobit.Skip 16 r) (snd (SegDesc.decodeUPIDs old r)).
Proof.
  unfold SegDesc.decodeUPIDs, iobit.Uint32, iobit.Bytes.
  assert (H0 : movedOn (iobit.Skip 16 r) (iobit.Skip 8 (iobit.Skip 8 r))).
  { split; [done | cbn; lia]. }
  destruct (0 <? _); [|done].
  destruct (_ =? SegmentationUPIDTypeMID); cbn [snd]; by apply movedOn_Skip.
Qed.

Lemma decodeSegmentation_reader (sd : SegDesc.SegmentationDescriptor) (r : iobit.Reader) :
  movedOn (iobit.Skip 48 r) (snd (SegDesc.decodeSegmentation sd r)).
Proof.
  unfold SegDesc.decodeSegmentation, iobit.Bit, iobit.Uint64.
  set (r3 := iobit.Skip 1 (iobit.Skip 1 (iobit.Skip 1 r))).
  set (p1 := if negb _ then _ else (SegDesc.DeliveryRestrictions' sd, iobit.Skip 5 r3)).
  assert (H1 : movedOn (iobit.Skip 8 r) (snd p1)).
  { subst p1. destruct (negb _); unfold iobit.Uint32; split; cbn; done || lia. }
  destruct p1 as [restrictions r4]. cbn [snd] in H1.
  set (p2 := if negb _ then _ else (SegDesc.Components sd, r4)).
  assert (H2 : movedOn r4 (snd p2)).
  { subst p2. destruct (negb _); [|apply movedOn_refl]. unfold iobit.Uint32.
    eapply movedOn_trans; [|apply SegDesc_decodeComponents_reader].
    apply movedOn_Skip, movedOn_refl. }
  destruct p2 as [components r5]. cbn [snd] in H2.
  set (p3 := if (match iobit.peek 1 (iobit.Skip 1 r) with b :: _ => b | [] => false end)
             then _ else (SegDesc.SegmentationDuration sd, r5)).
  assert (H3 : movedOn r5 (snd p3)).
  { subst p3. destruct (match iobit.peek 1 (iobit.Skip 1 r) with b :: _ => b | [] => false end);
      [apply movedOn_Skip|]; apply movedOn_refl. }
  destruct p3 as [duration r6]. cbn [snd] in H3.
  pose proof (decodeUPIDs_reader (SegDesc.SegmentationUPIDs sd) r6) as H4.
  destruct (SegDesc.decodeUPIDs _ r6) as [upids r7]. cbn [snd] in H4.
  unfold iobit.Uint32. cbn [snd].
  destruct H1 as [S1 I1], H2 as [S2 I2], H3 as [S3 I3], H4 as [S4 I4].
  unfold movedOn. cbn [iobit.Skip iobit.src iobit.idx] in *. split; [congruence | lia].
Qed.

Lemma decodeSubSegments_reader (sd : SegDesc.SegmentationDescriptor) (r : iobit.Reader) :
  movedOn r (snd (SegDesc.decodeSubSegments sd r)).
Proof.
  unfold SegDesc.decodeSubSegments, iobit.Uint32.
  destruct (_ || _); [|apply movedOn_refl].
  destruct (_ =? 16)%nat; [|apply movedOn_refl].
  do 2 apply movedOn_Skip. apply movedOn_refl.
Qed.

Lemma SegDesc_decode_reader (sd : SegDesc.SegmentationDescriptor) (b : list byte) :
  exists r,
    snd (SegDesc.decode sd b)
    = match readerError r with
      | Some err => Some (str "segmentation_descriptor", err)
      | None => None
      end
    /\ iobit.src r = b /\ (88 <= iobit.idx r)%nat.
Proof.
  unfold SegDesc.decode, SegDesc.decodeHead, iobit.Uint32, iobit.Bit. cbv zeta.
  cbn [SegDesc.SegmentationEventCancelIndicator].
  set (r0 := iobit.Skip 7 _).
  assert (H0 : iobit.src r0 = b /\ iobit.idx r0 = 88%nat) by done.
  destruct H0 as [S0 I0]. clearbody r0.
  destruct (negb _).
  - set (sd1 := SegDesc.mkSD _ _ _ _ _ _ _ _ _ _ _).
    pose proof (decodeSegmentation_reader sd1 r0) as [S1 I1].
    destruct (SegDesc.decodeSegmentation sd1 r0) as [sd2 r1]. cbn [snd] in *.
    pose proof (decodeSubSegments_reader sd2 r1) as [S2 I2].
    destruct (SegDesc.decodeSubSegments sd2 r1) as [sd3 r2]. cbn [snd] in *.
    exists r2. split; [by destruct (readerError r2)|].
    cbn [iobit.Skip iobit.src iobit.idx] in *. split; [congruence | lia].
  - exists r0. split; [by destruct (readerError r0)|]. split; [done | lia].
Qed.

Lemma SegDesc_decode_short (sd : SegDesc.SegmentationDescriptor) (b : list byte) :
  (length b < 11)%nat ->
  snd (SegDesc.decode sd b) = Some (str "segmentation_descriptor", ErrBufferOverflow).
Proof.
  intros Hb. destruct (SegDesc_decode_reader sd b) as (r & -> & Hs & Hi).
  unfold readerError, iobit.overflowed, iobit.size. rewrite Hs.
  by destruct (Nat.ltb_spec (8 * length b) (iobit.idx r)); [|lia].
Qed.

(** X26. [decode] reads at least eleven bytes: of anything shorter it reports
    that the buffer overflowed, whatever the bytes are. *)
Theorem segmentation_descriptor_short_input (sd : SegDesc.SegmentationDescriptor)
  (b : list byte) :
  (length b < 11)%nat ->
  snd (SegDesc.decode sd b) = Some (str "segmentation_descriptor", ErrBufferOverflow).
Proof. apply SegDesc_decode_short. Qed.

Lemma segmentation_descriptor_short_input_witness :
  (length [x02; x09; x43; x55; x45; x49] < 11)%nat
  /\ snd (SegDesc.decode SegDesc.zero [x02; x09; x43; x55; x45; x49])
     = Some (str "segmentation_descriptor", ErrBufferOverflow).
Proof.
  assert (H : (length [x02; x09; x43; x55; x45; x49] < 11)%nat) by (cbn; lia).
  split; [exact H | exact (segmentation_descriptor_short_input _ _ H)].
Defined.

(** *** A component count that the buffer cannot hold *)

Lemma SpliceInsert_decodeComponents_least (n : nat) (immediate : bool) :
  forall r,
    iobit.src (snd (SpliceInsert.decodeComponents n immediate r)) = iobit.src r
    /\ (iobit.idx r + 8 * n
        <= iobit.idx (snd (SpliceInsert.decodeComponents n immediate r)))%nat.
Proof.
  induction n as [|n IH]; intros r; [cbn; split; [done | lia]|].
  cbn [SpliceInsert.decodeComponents]. unfold iobit.Uint32.
  destruct immediate; cbn [negb].
  - destruct (IH (iobit.Skip 8 r)) as [Hs Hi].
    destruct (SpliceInsert.decodeComponents n true (iobit.Skip 8 r)) as [cs r'].
    cbn [snd iobit.Skip iobit.src iobit.idx] in *. split; [done | lia].
  - destruct (decodeTime_reader (iobit.Skip 8 r)) as [Hs0 Hi0].
    destruct (SpliceInsert.decodeTime (iobit.Skip 8 r)) as [pts r0].
    destruct (IH r0) as [Hs Hi].
    destruct (SpliceInsert.decodeComponents n false r0) as [cs r'].
    cbn [snd iobit.Skip iobit.src iobit.idx] in *. split; [congruence | lia].
Qed.

Lemma SpliceInsert_decode_count (cmd : SpliceInsert.SpliceInsert) (b : list byte) :
  readBit 32 b = false -> readBit 41 b = false ->
  8 * Z.of_nat (length b) < 88 + 8 * readUint32 48 8 b ->
  snd (SpliceInsert.decode cmd b) = Some (str "splice_insert", ErrBufferOverflow).
Proof.
  intros Hc Hp Hn.
  unfold SpliceInsert.decode, iobit.Uint32, iobit.Uint64, iobit.Bit.
  change (match iobit.peek 1 (iobit.Skip 32 (iobit.NewReader b)) with
          | b0 :: _ => b0 | [] => false end) with (readBit 32 b).
  rewrite Hc. cbn [negb].
  change (match iobit.peek 1 (iobit.Skip 1 (iobit.Skip 7 (iobit.Skip 1
            (iobit.Skip 32 (iobit.NewReader b))))) with
          | b0 :: _ => b0 | [] => false end) with (readBit 41 b).
  rewrite Hp.
  change (uint32 (Z_of_bits (iobit.peek 8 (iobit.Skip 4 (iobit.Skip 1 (iobit.Skip 1
            (iobit.Skip 1 (iobit.Skip 1 (iobit.Skip 7 (iobit.Skip 1
              (iobit.Skip 32 (iobit.NewReader b)))))))))))) with (readUint32 48 8 b).
  set (imm := match iobit.peek 1 _ with b0 :: _ => b0 | [] => false end).
  set (r0 := iobit.Skip 8 _).
  assert (H0 : iobit.src r0 = b /\ iobit.idx r0 = 56%nat) by done.
  destruct H0 as [S0 I0]. clearbody r0 imm.
  destruct (SpliceInsert_decodeComponents_least (Z.to_nat (readUint32 48 8 b)) imm r0)
    as [S1 I1].
  destruct (SpliceInsert.decodeComponents _ imm r0) as [cs r1]. cbn [snd] in S1, I1.
  set (dur := match iobit.peek 1 _ with b0 :: _ => b0 | [] => false end).
  clearbody dur.
  assert (Hover : forall r, iobit.src r = b ->
    (56 + 8 * Z.to_nat (readUint32 48 8 b) + 32 <= iobit.idx r)%nat ->
    readerError r = Some ErrBufferOverflow).
  { intros r Hs Hi. unfold readerError, iobit.overflowed, iobit.size. rewrite Hs.
    destruct (Nat.ltb_spec (8 * length b) (iobit.idx r)); [done | lia]. }
  destruct dur; cbv beta iota zeta; rewrite Hover; try done;
    cbn [iobit.Skip iobit.src iobit.idx]; try congruence; lia.
Qed.

(** X21. A splice_insert that is not cancelled and announces more components
    than its bytes can hold is reported as a buffer overflow. *)
Theorem splice_insert_component_count_overflow (cmd : SpliceInsert.SpliceInsert)
  (b : list byte) :
  readBit 32 b = false -> readBit 41 b = false ->
  8 * Z.of_nat (length b) < 88 + 8 * readUint32 48 8 b ->
  snd (SpliceInsert.decode cmd b) = Some (str "splice_insert", ErrBufferOverflow).
Proof. apply SpliceInsert_decode_count. Qed.

Lemma splice_insert_component_count_witness :
  let b := [x00; x00; x00; x01; x7f; x0f; x04; x01; x02; x03; x00; x00; x00; x00] in
  readBit 32 b = false /\ readBit 41 b = false
  /\ 8 * Z.of_nat (length b) < 88 + 8 * readUint32 48 8 b
  /\ snd (SpliceInsert.decode SpliceInsert.zero b)
     = Some (str "splice_insert", ErrBufferOverflow).
Proof.
  intros b.
  assert (Hc : readBit 32 b = false) by (vm_compute; reflexivity).
  assert (Hp : readBit 41 b = false) by (vm_compute; reflexivity).
  assert (Hn : 8 * Z.of_nat (length b) < 88 + 8 * readUint32 48 8 b)
    by (vm_compute; reflexivity).
  split; [exact Hc|]. split; [exact Hp|]. split; [exact Hn|].
  exact (splice_insert_component_count_overflow SpliceInsert.zero b Hc Hp Hn).
Defined.

(** ** audio_descriptor *)

Lemma AudioDescriptor_decodeChannels_reader (n : nat) :
  forall r,
    iobit.src (snd (AudioDescriptor.decodeChannels n r)) = iobit.src r
    /\ iobit.idx (snd (AudioDescriptor.decodeChannels n r)) = (iobit.idx r + 40 * n)%nat
    /\ length (fst (AudioDescriptor.decodeChannels n r)) = n.
Proof.
  induction n as [|n IH]; intros r; [cbn; repeat split; lia|].
  cbn [AudioDescriptor.decodeChannels].
  unfold iobit.Uint32, iobit.Bytes, iobit.Bit.
  set (r1 := iobit.Skip 1 _).
  assert (H1 : iobit.src r1 = iobit.src r /\ iobit.idx r1 = (iobit.idx r + 40)%nat).
  { split; [done | cbn; lia]. }
  destruct H1 as [S1 I1]. clearbody r1.
  destruct (IH r1) as (S2 & I2 & L2).
  destruct (AudioDescriptor.decodeChannels n r1) as [rest r2].
  cbn [fst snd length] in *. repeat split; [congruence | lia | lia].
Qed.

Lemma high_nibble (c : byte) : Z_of_bits (take 4 (bits_of_byte c)) = Z_of_byte c / 16.
Proof. by destruct c. Qed.

Lemma audio_count_read (b : list byte) (c : byte) :
  b !! 6%nat = Some c ->
  fst (iobit.Uint32 4 (iobit.Skip 32 (iobit.Skip 8 (iobit.Skip 8 (iobit.NewReader b)))))
  = Z_of_byte c / 16.
Proof.
  intros Hc. unfold iobit.Uint32, iobit.peek. cbn [fst iobit.Skip iobit.NewReader iobit.idx iobit.src].
  change (0 + 8 + 8 + 32)%nat with (8 * 6)%nat.
  rewrite <- bits_of_bytes_drop.
  rewrite (drop_S _ _ _ Hc).
  change (bits_of_bytes (c :: drop 7 b)) with (bits_of_byte c ++ bits_of_bytes (drop 7 b)).
  rewrite <- app_assoc. rewrite take_app_le by (rewrite bits_of_byte_length; lia).
  rewrite high_nibble. apply uint32_small.
  pose proof (Z_of_byte_range c). Z.div_mod_to_equations. lia.
Qed.

Lemma AudioDescriptor_decode_size (b : list byte) :
  snd (AudioDescriptor.decode b)
  = (if Z.of_nat (length b) <? 7 + 5 * audioCountOf b
     then Some (str "audio_descriptor", ErrBufferOverflow)
     else if 7 + 5 * audioCountOf b <? Z.of_nat (length b)
          then Some (str "audio_descriptor", ErrBufferUnderflow)
          else None)
  /\ ((7 <= length b)%nat ->
      length (AudioDescriptor.AudioChannels (fst (AudioDescriptor.decode b)))
      = Z.to_nat (audioCountOf b)).
Proof.
  unfold AudioDescriptor.decode. cbv zeta.
  set (r0 := iobit.Skip 32 _).
  destruct (iobit.Uint32 4 r0) as [count r1] eqn:Hcount.
  assert (Hr1 : iobit.src r1 = b /\ iobit.idx r1 = 52%nat).
  { unfold iobit.Uint32 in Hcount. by injection Hcount as _ <-. }
  destruct Hr1 as [S1 I1].
  destruct (AudioDescriptor_decodeChannels_reader (Z.to_nat count) (iobit.Skip 4 r1))
    as (S2 & I2 & L2).
  destruct (AudioDescriptor.decodeChannels _ _) as [channels r2].
  cbn [fst snd iobit.Skip iobit.src iobit.idx] in *.
  assert (Hcnt : (7 <= length b)%nat -> count = audioCountOf b).
  { intros Hl. unfold audioCountOf.
    destruct (b !! 6%nat) as [c|] eqn:Hc.
    - pose proof (audio_count_read b c Hc) as H. fold r0 in H. by rewrite Hcount in H.
    - apply lookup_ge_None in Hc. lia. }
  assert (Hnn : 0 <= audioCountOf b).
  { unfold audioCountOf. destruct (b !! 6%nat) as [c|]; [|lia].
    pose proof (Z_of_byte_range c). Z.div_mod_to_equations. lia. }
  split.
  - unfold readerError, iobit.overflowed, iobit.LeftBits, iobit.size. rewrite S2, S1, I2, I1.
    destruct (Nat.le_gt_cases 7 (length b)) as [Hge|Hlt].
    + rewrite (Hcnt Hge).
      destruct (Nat.ltb_spec (8 * length b) (52 + 4 + 40 * Z.to_nat (audioCountOf b)));
        destruct (Z.ltb_spec (Z.of_nat (length b)) (7 + 5 * audioCountOf b)); try lia;
        [done|].
      destruct (Nat.ltb_spec 0 (8 * length b - (52 + 4 + 40 * Z.to_nat (audioCountOf b))));
        destruct (Z.ltb_spec (7 + 5 * audioCountOf b) (Z.of_nat (length b))); try lia; done.
    + destruct (Nat.ltb_spec (8 * length b) (52 + 4 + 40 * Z.to_nat count)); [|lia].
      destruct (Z.ltb_spec (Z.of_nat (length b)) (7 + 5 * audioCountOf b)); [done | lia].
  - intros Hl. rewrite <- (Hcnt Hl).
    by destruct (readerError r2).
Qed.

(** X27. [decode] accepts exactly the buffers of seven bytes and five more for
    each channel that the high four bits of the seventh byte announce: a
    shorter buffer is an overflow, a longer one an underflow.  A buffer of
    seven bytes or more gives as many channels as announced, also when it is
    refused. *)
Theorem audio_descriptor_decode_size (b : list byte) :
  snd (AudioDescriptor.decode b)
  = (if Z.of_nat (length b) <? 7 + 5 * audioCountOf b
     then Some (str "audio_descriptor", ErrBufferOverflow)
     else if 7 + 5 * audioCountOf b <? Z.of_nat (length b)
          then Some (str "audio_descriptor", ErrBufferUnderflow)
          else None)
  /\ ((7 <= length b)%nat ->
      length (AudioDescriptor.AudioChannels (fst (AudioDescriptor.decode b)))
      = Z.to_nat (audioCountOf b)).
Proof. apply AudioDescriptor_decode_size. Qed.

(** ** [ASCIIValue] *)

Lemma Valid_single (c : byte) : utf8.Valid [c] = (Z_of_byte c <? 0x80).
Proof.
  cbn [utf8.Valid]. destruct (Z_of_byte c <? 0x80); [done|].
  by repeat match goal with |- context [if ?x then _ else _] => destruct x end.
Qed.

Lemma ASCIIValue_spec (upid : Upid.SegmentationUPID) (vb : list byte) :
  Upid.valueBytes upid = Some vb ->
  exists s, ASCIIValue upid = Some s
    /\ length s = length vb
    /\ Forall isASCII s
    /\ (Forall isASCII vb -> s = vb).
Proof.
  intros Hvb. unfold ASCIIValue. rewrite Hvb. cbn [mbind option_bind].
  eexists. split; [reflexivity|]. clear Hvb. change (str ".") with ["."%byte].
  induction vb as [|c vb (IHl & IHa & IHe)]; [by repeat split|].
  cbn [flat_map]. rewrite Valid_single.
  destruct (Z.ltb_spec (Z_of_byte c) 0x80) as [Hc|Hc]; cbn [app].
  - split; [cbn [length]; by rewrite IHl|]. split; [by constructor|].
    intros Hall. inversion Hall; subst. f_equal. by apply IHe.
  - split; [cbn [length]; by rewrite IHl|]. split.
    + constructor; [by vm_compute | done].
    + intros Hall. inversion Hall as [|? ? Hc' ?]; subst. unfold isASCII in Hc'. lia.
Qed.

Lemma ASCIIValue_map (upid : Upid.SegmentationUPID) (vb : list byte) :
  Upid.valueBytes upid = Some vb ->
  ASCIIValue upid
  = Some (map (fun c => if Z_of_byte c <? 0x80 then c else "."%byte) vb).
Proof.
  intros Hvb. unfold ASCIIValue. rewrite Hvb. cbn [mbind option_bind]. f_equal.
  clear Hvb. change (str ".") with ["."%byte].
  induction vb as [|c vb IH]; [done|].
  cbn [flat_map map]. rewrite Valid_single, IH.
  by destruct (Z_of_byte c <? 0x80).
Qed.

(** X28. [ASCIIValue] is the value bytes with every byte above 0x7F replaced
    by a dot and every other byte kept: one ASCII character for each value
    byte, and the value bytes themselves when they are all ASCII. *)
Theorem ascii_value_is_ascii (upid : Upid.SegmentationUPID) (vb : list byte) :
  Upid.valueBytes upid = Some vb ->
  ASCIIValue upid
  = Some (map (fun c => if Z_of_byte c <? 0x80 then c else "."%byte) vb)
  /\ exists s, ASCIIValue upid = Some s
       /\ length s = length vb
       /\ Forall isASCII s
       /\ (Forall isASCII vb -> s = vb).
Proof.
  intros Hvb. split; [by apply ASCIIValue_map | by apply ASCIIValue_spec].
Qed.

Lemma ascii_value_is_ascii_witness :
  let upid := Upid.mkUPID 0x09 None (str "text") [x53; xe9; x41] in
  Upid.valueBytes upid = Some [x53; xe9; x41]
  /\ ASCIIValue upid = Some (str "S.A").
Proof.
  intros upid.
  assert (H : Upid.valueBytes upid = Some [x53; xe9; x41]) by (vm_compute; reflexivity).
  split; [exact H | exact (proj1 (ascii_value_is_ascii upid _ H))].
Defined.

(** ** UPID values as text *)

(** X29. In the revision that decodes text through [DecodeASCII], the value of a
    decoded UPID is valid UTF-8 whatever the bytes are, unless it is an EIDR
    whose bytes have a slash and are passed through (then it is valid when
    the bytes are). *)
Theorem upid_value_valid_utf8 (upidType : Z) (buf : list byte) :
  upidType <> SegmentationUPIDTypeEIDR
  \/ strings.Contains buf "/"%byte = false
  \/ utf8.Valid buf = true ->
  utf8.Valid (UpidASCII.Value (UpidASCII.NewSegmentationUPID upidType buf)) = true.
Proof. apply NewSegmentationUPID_valid_utf8. Qed.

Lemma upid_value_valid_utf8_witness :
  (0x09 <> SegmentationUPIDTypeEIDR
   \/ strings.Contains [x53; xe9; xff] "/"%byte = false
   \/ utf8.Valid [x53; xe9; xff] = true)
  /\ utf8.Valid (UpidASCII.Value (UpidASCII.NewSegmentationUPID 0x09 [x53; xe9; xff]))
     = true.
Proof.
  assert (H : 0x09 <> SegmentationUPIDTypeEIDR
              \/ strings.Contains [x53; xe9; xff] "/"%byte = false
              \/ utf8.Valid [x53; xe9; xff] = true) by (left; done).
  split; [exact H | exact (upid_value_valid_utf8 _ _ H)].
Defined.

